(** * Utility code for VAR estimation: a shallow embedding and its properties

    The definitions below follow [statsmodels/tsa/vector_ar/util.py]
    function by function.  Python integers are [Z], Python strings are
    [string], numpy arrays are lists of rows that carry their [shape]
    next to the data (a numpy array with no rows still knows how many
    columns it has), and a Python exception is a [Raise] outcome. *)

From Stdlib Require Import ZArith QArith Qcanon Lia.
From stdpp Require Import base list strings pretty.
From Equations Require Import Equations.

Open Scope Z_scope.

(** ** Python exceptions and fallible computations *)

Inductive exn : Type :=
  | ValueError (msg : string)
  | AssertionError
  | UnboundLocalError (var : string)
  | IndexError.

Inductive outcome (A : Type) : Type :=
  | Ok (a : A)
  | Raise (e : exn).
Arguments Ok {A} a.
Arguments Raise {A} e.

Definition bind {A B} (m : outcome A) (k : A → outcome B) : outcome B :=
  match m with
  | Ok a => k a
  | Raise e => Raise e
  end.

Notation "'let!' x ':=' m 'in' k" := (bind m (λ x, k))
  (at level 10, x pattern, m at level 100, k at level 200).

Definition is_Ok {A} (m : outcome A) : Prop := ∃ a, m = Ok a.
Definition is_Raise {A} (m : outcome A) : Prop := ∃ e, m = Raise e.

(** ** Python built-ins used by the module *)

(** [range(lo, hi)] *)
Definition py_range (lo hi : Z) : list Z :=
  map (λ i : nat, lo + Z.of_nat i) (seq 0 (Z.to_nat (hi - lo))).

(** [l.insert(i, x)]: a negative index counts from the end, and an index
    outside the list is clamped to its nearest end. *)
Definition py_insert {A} (i : Z) (x : A) (l : list A) : list A :=
  let n := Z.of_nat (length l) in
  let pos := if i <? 0 then Z.max 0 (i + n) else Z.min i n in
  take (Z.to_nat pos) l ++ x :: drop (Z.to_nat pos) l.

(** The objects a caller puts in a list of variable names: strings, or
    something else that [str] has to stringify (integers here). *)
Inductive pyobj : Type :=
  | PyStr (s : string)
  | PyInt (n : Z).

Definition is_string (o : pyobj) : bool :=
  match o with PyStr _ => true | PyInt _ => false end.

(** [str(o)] *)
Definition str (o : pyobj) : string :=
  match o with
  | PyStr s => s
  | PyInt n => pretty n
  end.

(** ** numpy arrays *)

Record ndarray2 (A : Type) : Type := Array2 {
  nrows : nat;
  ncols : nat;
  rows : list (list A)
}.
Arguments Array2 {A} nrows ncols rows.
Arguments nrows {A} _.
Arguments ncols {A} _.
Arguments rows {A} _.

Record ndarray3 (A : Type) : Type := Array3 {
  dim0 : nat;
  dim1 : nat;
  dim2 : nat;
  slices : list (list (list A))
}.
Arguments Array3 {A} dim0 dim1 dim2 slices.
Arguments dim0 {A} _.
Arguments dim1 {A} _.
Arguments dim2 {A} _.
Arguments slices {A} _.

(** The data of an array agrees with its shape. *)
Definition wf2 {A} (a : ndarray2 A) : Prop :=
  length (rows a) = nrows a ∧ Forall (λ r, length r = ncols a) (rows a).

Definition wf3 {A} (a : ndarray3 A) : Prop :=
  length (slices a) = dim0 a ∧
  Forall (λ s, length s = dim1 a ∧ Forall (λ r, length r = dim2 a) s) (slices a).

(** [a[i, j]] for in-range indices *)
Definition get2 {A} (a : ndarray2 A) (i j : nat) : option A :=
  match rows a !! i with
  | Some r => r !! j
  | None => None
  end.

Definition get3 {A} (a : ndarray3 A) (l i j : nat) : option A :=
  match slices a !! l with
  | Some s => match s !! i with Some r => r !! j | None => None end
  | None => None
  end.

(** ** Trend order and coefficient names *)

Definition get_trendorder (trend : string) : outcome Z :=
  if decide (trend = "c") then Ok 1
  else if decide (trend = "nc") then Ok 0
  else if decide (trend = "ct") then Ok 2
  else if decide (trend = "ctt") then Ok 3
  else Raise (UnboundLocalError "trendorder").

(** The [names] argument of [make_lag_names]: one string, or a list. *)
Inductive names_arg : Type :=
  | OneName (s : string)
  | NameList (l : list pyobj).

Definition lag_name (i : Z) (name : pyobj) : string :=
  let name := if is_string name then name else PyStr (str name) in
  "L" +:+ pretty i +:+ "." +:+ str name.

Definition make_lag_names {A} (names : names_arg) (lag_order : Z)
    (trendorder : Z) (exog : option (ndarray2 A)) : list string :=
  let lag_names := [] in
  let names :=
    match names with
    | OneName s => [PyStr s]
    | NameList l => l
    end in
  let lag_names :=
    foldl (λ acc i, foldl (λ acc name, acc ++ [lag_name i name]) acc names)
      lag_names (py_range 1 (lag_order + 1)) in
  let lag_names :=
    if decide (trendorder ≠ 0) then py_insert 0 "const" lag_names
    else lag_names in
  let lag_names :=
    if decide (trendorder > 1) then py_insert 1 "trend" lag_names
    else lag_names in
  let lag_names :=
    if decide (trendorder > 2) then py_insert 2 "trend**2" lag_names
    else lag_names in
  match exog with
  | Some exog =>
      foldl (λ acc i, py_insert (trendorder + i) ("exog" +:+ pretty i) acc)
        lag_names (py_range 0 (Z.of_nat (ncols exog)))
  | None => lag_names
  end.

Example make_lag_names_doc :
  make_lag_names (A:=Q) (NameList [PyStr "foo"; PyStr "bar"]) 2 1 None
  = ["const"; "L1.foo"; "L1.bar"; "L2.foo"; "L2.bar"].
Proof. reflexivity. Qed.

(** ** Array elements

    The arrays of the module hold floating-point numbers.  The code only
    uses the operations below, so the embedding is stated once for any
    carrier that provides them; the rationals are the instance on which
    the examples are evaluated. *)

Class Scalar (F : Type) : Type := {
  f0 : F;
  f1 : F;
  fadd : F → F → F;
  fsub : F → F → F;
  fmul : F → F → F;
  fdiv : F → F → F;
  of_int : Z → F;
  feqb : F → F → bool
}.

#[export] Instance Q_scalar : Scalar Q := {
  f0 := 0%Q;
  f1 := 1%Q;
  fadd := Qplus;
  fsub := Qminus;
  fmul := Qmult;
  fdiv := Qdiv;
  of_int := inject_Z;
  feqb := Qeq_bool
}.

(** The two identities of addition that statements about sums rely on. *)
Class ScalarLaws (F : Type) `{Scalar F} : Prop := {
  fadd_0_l : ∀ x : F, fadd f0 x = x;
  fadd_0_r : ∀ x : F, fadd x f0 = x
}.

Section Arrays.
Context {F : Type} `{Scalar F}.

(** [np.zeros((n, m))] *)
Definition zeros (n m : nat) : ndarray2 F :=
  Array2 n m (replicate n (replicate m f0)).

(** [np.eye(k)] *)
Definition eye (k : nat) : ndarray2 F :=
  Array2 k k
    (map (λ i, map (λ j, if decide (i = j) then f1 else f0) (seq 0 k)) (seq 0 k)).

(** [a[i, j] = x] (both indices in range) *)
Definition set2 (i j : nat) (x : F) (a : ndarray2 F) : ndarray2 F :=
  Array2 (nrows a) (ncols a) (alter (<[j:=x]>) i (rows a)).

(** [a[ii, jj] = x] with two index arrays: they must have one length, and
    every pair has to lie inside [a]. *)
Definition setitem_pairs (ii jj : list nat) (x : F) (a : ndarray2 F)
    : outcome (ndarray2 F) :=
  if decide (length ii = length jj) then
    if decide (Forall (λ i, i < nrows a)%nat ii ∧ Forall (λ j, j < ncols a)%nat jj)
    then Ok (foldl (λ a ij, set2 ij.1 ij.2 x a) a (zip ii jj))
    else Raise IndexError
  else Raise IndexError.

(** Broadcasting one axis of length [len] to length [n]. *)
Definition stretch {A} (n len : nat) (l : list A) : outcome (list A) :=
  if decide (len = n) then Ok l
  else if decide (len = 1%nat) then Ok (mjoin (map (replicate n) l))
  else Raise (ValueError "operands could not be broadcast together").

Fixpoint mapM {A B} (f : A → outcome B) (l : list A) : outcome (list B) :=
  match l with
  | [] => Ok []
  | x :: l => let! y := f x in let! ys := mapM f l in Ok (y :: ys)
  end.

Fixpoint foldM {A B} (f : B → A → outcome B) (b : B) (l : list A) : outcome B :=
  match l with
  | [] => Ok b
  | x :: l => let! b := f b x in foldM f b l
  end.

(** [a[lo:hi] = src] *)
Definition set_row_slice (lo hi : nat) (src : ndarray2 F) (a : ndarray2 F)
    : outcome (ndarray2 F) :=
  let hi := (hi `min` nrows a)%nat in
  let! rs := stretch (hi - lo) (nrows src) (rows src) in
  let! rs := mapM (stretch (ncols a) (ncols src)) rs in
  Ok (Array2 (nrows a) (ncols a) (take lo (rows a) ++ rs ++ drop hi (rows a))).

(** [np.concatenate(a, axis=1)] over the slices of a 3-d array *)
Definition concatenate_axis1 (a : ndarray3 F) : outcome (ndarray2 F) :=
  match slices a with
  | [] => Raise (ValueError "need at least one array to concatenate")
  | _ =>
      Ok (Array2 (dim1 a) (dim0 a * dim2 a)
            (map (λ i, mjoin (map (λ s, default [] (s !! i)) (slices a)))
               (seq 0 (dim1 a))))
  end.

(** ** Companion matrix *)

Definition comp_matrix (coefs : ndarray3 F) : outcome (ndarray2 F) :=
  let p := dim0 coefs in
  let k := dim1 coefs in
  let k2 := dim2 coefs in
  if decide (k = k2) then
    let kp := (k * p)%nat in
    let result := zeros kp kp in
    let! top := concatenate_axis1 coefs in
    let! result := set_row_slice 0 k top result in
    if decide (1 < p)%nat then
      setitem_pairs (seq k (kp - k)) (seq 0 (kp - k)) f1 result
    else Ok result
  else Raise AssertionError.

End Arrays.

Example comp_matrix_ex :
  comp_matrix (Array3 2 2 2 [[[1%Q; 2%Q]; [3%Q; 4%Q]]; [[5%Q; 6%Q]; [7%Q; 8%Q]]])
  = Ok (Array2 4 4 [[1%Q; 2%Q; 5%Q; 6%Q]; [3%Q; 4%Q; 7%Q; 8%Q];
                    [1%Q; 0%Q; 0%Q; 0%Q]; [0%Q; 1%Q; 0%Q; 0%Q]]).
Proof. reflexivity. Qed.

(** ** Half-vectorisation *)

Section Vech.
Context {A : Type}.

(** The inner loop [while b < length: vechvec.append(A[b, i]); b = b + 1].
    Reading [A[b, i]] outside the array raises [IndexError]. *)
Equations? vech_while (a : ndarray2 A) (length i b : nat) (vechvec : list A)
    : outcome (list A) by wf (length - b)%nat lt :=
  vech_while a length i b vechvec with decide (b < length)%nat := {
    | left _ with get2 a b i := {
        | Some x => vech_while a length i (b + 1) (vechvec ++ [x])
        | None => Raise IndexError }
    | right _ => Ok vechvec }.
Proof. lia. Qed.

Definition vech (a : ndarray2 A) : outcome (list A) :=
  let length := ncols a in
  let vechvec := [] in
  foldM (λ vechvec i, let b := i in vech_while a length i b vechvec)
    vechvec (seq 0 length).

End Vech.

Example vech_ex :
  vech (Array2 3 3 [[1; 2; 3]; [4; 5; 6]; [7; 8; 9]]) = Ok [1; 4; 7; 5; 8; 9].
Proof. reflexivity. Qed.

(** ** Seasonal dummies *)

(** [range(lo, hi, step)] for a positive step *)
Definition py_range_step (lo hi step : Z) : list Z :=
  map (λ m : nat, lo + Z.of_nat m * step)
    (seq 0 (Z.to_nat ((hi - lo + step - 1) `div` step))).

(** The row indices selected by the slice [start::step] on an axis of
    length [n], for a positive step: a negative start counts from the
    end, and the start is clamped to the axis. *)
Definition slice_from (start step : Z) (n : nat) : list nat :=
  let len := Z.of_nat n in
  let start := if start <? 0 then Z.max 0 (start + len) else Z.min start len in
  map Z.to_nat (py_range_step start len step).

Section Seasonal.
Context {F : Type} `{Scalar F}.

(** [a[start::step, j] = x] *)
Definition set_col_slice (start step : Z) (j : nat) (x : F) (a : ndarray2 F)
    : ndarray2 F :=
  foldl (λ a r, set2 r j x a) a (slice_from start step (nrows a)).

(** [a -= c] for a scalar [c] *)
Definition isub_scalar (c : F) (a : ndarray2 F) : ndarray2 F :=
  Array2 (nrows a) (ncols a) (map (map (λ x, fsub x c)) (rows a)).

(** The result is [None] where the Python function falls off its end
    (negative [n_seasons]). *)
Definition seasonal_dummies (n_seasons : Z) (len_endog : nat)
    (first_period : Z) (centered : bool) : option (ndarray2 F) :=
  if decide (n_seasons = 0) then
    Some (Array2 len_endog 0 (replicate len_endog []))
  else if decide (n_seasons > 0) then
    let season_exog := zeros len_endog (Z.to_nat (n_seasons - 1)) in
    let season_exog :=
      foldl (λ season_exog i,
               set_col_slice ((i - first_period) `mod` n_seasons) n_seasons
                 (Z.to_nat i) f1 season_exog)
        season_exog (py_range 0 (n_seasons - 1)) in
    let season_exog :=
      if centered
      then isub_scalar (fdiv (of_int 1) (of_int n_seasons)) season_exog
      else season_exog in
    Some season_exog
  else None.

End Seasonal.

Example seasonal_dummies_ex :
  seasonal_dummies 4 8 0 false
  = Some (Array2 8 3 [[1%Q; 0%Q; 0%Q]; [0%Q; 1%Q; 0%Q]; [0%Q; 0%Q; 1%Q];
                      [0%Q; 0%Q; 0%Q]; [1%Q; 0%Q; 0%Q]; [0%Q; 1%Q; 0%Q];
                      [0%Q; 0%Q; 1%Q]; [0%Q; 0%Q; 0%Q]]).
Proof. reflexivity. Qed.

Example seasonal_dummies_march :
  seasonal_dummies 12 1 2 false
  = Some (Array2 1 11 [[0%Q; 0%Q; 1%Q; 0%Q; 0%Q; 0%Q; 0%Q; 0%Q; 0%Q; 0%Q; 0%Q]]).
Proof. reflexivity. Qed.

(** ** Design matrix of lagged observations *)

(** [range(lo, hi)] over indices *)
Definition index_range (lo hi : nat) : list nat := seq lo (hi - lo).

(** [l[lo:hi]] for [0 <= lo] *)
Definition py_slice {A} (lo hi : nat) (l : list A) : list A :=
  take (hi - lo) (drop lo l).

(** [np.array(l)] for a list of equally long rows.  (From an empty list
    numpy builds a 1-d array of shape (0,); it is rendered here as an
    array with no rows and no columns.) *)
Definition np_array {A} (l : list (list A)) : ndarray2 A :=
  Array2 (length l) (match l with [] => 0 | r :: _ => length r end) l.

(** The three values of the [has_constant] option. *)
Inductive has_constant_t : Type := HC_raise | HC_add | HC_skip.

Section Design.
Context {F : Type} `{Scalar F}.

(** Modelled from the spec: the test of [add_trend] for "a constant
    column already exists in the data" (section 4.1); [add_trend] itself
    is not among the source files.  A column is constant when all its
    entries are equal. *)
Definition constant_column (x : ndarray2 F) (j : nat) : bool :=
  match rows x with
  | [] => false
  | r0 :: rest =>
      forallb (λ r, feqb (default f0 (r !! j)) (default f0 (r0 !! j))) rest
  end.

(** Modelled from the spec: some column of [x] is constant (section 4.1;
    part of the absent [add_trend]). *)
Definition has_constant_column (x : ndarray2 F) : bool :=
  existsb (constant_column x) (seq 0 (ncols x)).

(** Modelled from the spec: the values of the trend columns of the absent
    [add_trend] at observation [i] (counted from 0), "1s; 1s+linear
    index; 1s+linear+quadratic" (section 4.1): a one, the linear index,
    and its square. *)
Definition trend_terms (i : nat) : list F :=
  let t := of_int (Z.of_nat i + 1) in
  [f1; t; fmul t t].

(** Modelled from the spec: the three-valued [has_constant] policy of the
    absent [add_trend] (section 4.1), as the number of leading trend
    columns that are left out when [x] already holds a constant column:
    the call raises, adds the constant all the same (none left out), or
    skips the constant (one left out). *)
Definition constant_policy (x : ndarray2 F) (order : nat)
    (has_constant : has_constant_t) : outcome nat :=
  if bool_decide (0 < order)%nat && has_constant_column x then
    match has_constant with
    | HC_raise => Raise (ValueError "x already contains a constant")
    | HC_add => Ok 0%nat
    | HC_skip => Ok 1%nat
    end
  else Ok 0%nat.

(** Modelled from the spec: [add_trend] of statsmodels.tsa.tsatools is not
    among the source files.  Following sections 3 and 4.1 of the
    specification, the trend order of [trend] decides how many columns
    are added (a column of ones, then the linear index, then its
    square); they go before the columns of [x] when [prepend] is set and
    after them otherwise; and the [has_constant] policy applies when [x]
    already holds a constant column. *)
Definition add_trend (x : ndarray2 F) (prepend : bool) (trend : string)
    (has_constant : has_constant_t) : outcome (ndarray2 F) :=
  let! trendorder := get_trendorder trend in
  let order := Z.to_nat trendorder in
  let! skip := constant_policy x order has_constant in
  let added (i : nat) := drop skip (take order (trend_terms i)) in
  Ok (Array2 (nrows x) (order - skip + ncols x)
        (imap (λ i r, if prepend then added i ++ r else r ++ added i) (rows x))).

(** The array [Z] of [get_var_endog] before the trend is added: one row
    [y[t-lags : t][::-1].ravel()] for every [t] in [range(lags, nobs)]. *)
Definition lag_matrix (y : ndarray2 F) (lags : nat) : ndarray2 F :=
  let nobs := nrows y in
  np_array
    (map (λ t, mjoin (reverse (py_slice (t - lags) t (rows y))))
       (index_range lags nobs)).

Definition get_var_endog (y : ndarray2 F) (lags : nat) (trend : string)
    (has_constant : has_constant_t) : outcome (ndarray2 F) :=
  let Zmat := lag_matrix y lags in
  if decide (trend ≠ "nc") then add_trend Zmat true trend has_constant
  else Ok Zmat.

End Design.

Example get_var_endog_ex :
  get_var_endog (Array2 4 2 [[1%Q; 2%Q]; [3%Q; 4%Q]; [5%Q; 6%Q]; [7%Q; 8%Q]])
    2 "ct" HC_skip
  = Ok (Array2 2 6 [[1%Q; 1%Q; 3%Q; 4%Q; 1%Q; 2%Q];
                    [1%Q; 2%Q; 5%Q; 6%Q; 3%Q; 4%Q]]).
Proof. reflexivity. Qed.

(** ** Simulation of a VAR(p) process *)

(** The random source, [numpy.random]: generator states, the
    construction of a generator from an integer seed, and a draw of
    [size] multivariate normal vectors, which advances the generator. *)
Class Sampler (F : Type) : Type := {
  RandomState : Type;
  new_RandomState : Z → outcome RandomState;
  multivariate_normal :
    RandomState → list F → ndarray2 F → nat → outcome (ndarray2 F) * RandomState
}.

(** What the simulation expects of a draw: [size] rows, as wide as the
    mean; and a covariance of zeros leaves nothing but the mean. *)
Class SamplerLaws (F : Type) `{Scalar F} `{Sampler F} : Prop := {
  mvn_shape : ∀ rs mean cov size u rs',
    multivariate_normal rs mean cov size = (Ok u, rs') →
    wf2 u ∧ nrows u = size ∧ ncols u = length mean;
  mvn_degenerate : ∀ rs mean cov size u rs',
    multivariate_normal rs mean cov size = (Ok u, rs') →
    Forall (Forall (λ x, x = f0)) (rows cov) →
    Forall (λ r, r = mean) (rows u)
}.

(** A 1-d or 2-d array, as the [intercept] argument may be. *)
Inductive array12 (F : Type) : Type :=
  | Arr1 (v : list F)
  | Arr2 (a : ndarray2 F).
Arguments Arr1 {F} v.
Arguments Arr2 {F} a.

(** [np.ndim(a)] and [len(a)] *)
Definition ndim {F} (a : array12 F) : nat :=
  match a with Arr1 _ => 1 | Arr2 _ => 2 end.

Definition len {F} (a : array12 F) : nat :=
  match a with Arr1 v => length v | Arr2 a => nrows a end.

(** The [seed] argument: nothing, an integer, or the caller's own
    generator object. *)
Inductive seed_arg : Type :=
  | SeedNone
  | SeedInt (n : Z)
  | SeedRandomState.

Section Simulation.
Context {F : Type} `{Scalar F} `{Sampler F}.

(** The generators that outlive a call: the one of the module
    [np.random], and the object the caller may pass as [seed]. *)
Record world : Type := World {
  np_random : RandomState;
  caller_rs : RandomState
}.

(** [b] broadcast to the shape (n, m) *)
Definition broadcast_to (n m : nat) (b : array12 F) : outcome (list (list F)) :=
  match b with
  | Arr1 v => let! r := stretch m (length v) v in Ok (replicate n r)
  | Arr2 b =>
      let! rs := stretch n (nrows b) (rows b) in
      mapM (stretch m (ncols b)) rs
  end.

Definition vadd (u v : list F) : list F := zip_with fadd u v.

(** [a += b] *)
Definition iadd (a : ndarray2 F) (b : array12 F) : outcome (ndarray2 F) :=
  let! b := broadcast_to (nrows a) (ncols a) b in
  Ok (Array2 (nrows a) (ncols a) (zip_with vadd (rows a) b)).

(** [a[p:]], of the shape and with the rows that are left *)
Definition rows_from (p : nat) (a : ndarray2 F) : ndarray2 F :=
  Array2 (nrows a - p) (ncols a) (drop p (rows a)).

(** [a[p:] += b[p:]] *)
Definition iadd_from (p : nat) (a b : ndarray2 F) : outcome (ndarray2 F) :=
  let! tl := iadd (rows_from p a) (Arr2 (rows_from p b)) in
  Ok (Array2 (nrows a) (ncols a) (take p (rows a) ++ rows tl)).

(** [a[p:] = b[p:]] *)
Definition assign_from (p : nat) (a b : ndarray2 F) : outcome (ndarray2 F) :=
  let! tl := broadcast_to (nrows a - p) (ncols a) (Arr2 (rows_from p b)) in
  Ok (Array2 (nrows a) (ncols a) (take p (rows a) ++ tl)).

(** [np.dot(c, v)] for a matrix [c] and a vector [v] *)
Definition dotp (r v : list F) : F :=
  foldl (λ acc ab, fadd acc (fmul ab.1 ab.2)) f0 (zip r v).

Definition dot (c : list (list F)) (v : list F) : list F :=
  map (λ r, dotp r v) c.

(** One turn of the inner loop: [ygen] is row [t] of [result] itself, and
    [ygen += np.dot(coefs[j], result[t-j-1])] updates that row in place. *)
Definition ar_step (coefs : ndarray3 F) (t j : nat) (result : ndarray2 F)
    : outcome (ndarray2 F) :=
  match rows result !! t, slices coefs !! j, rows result !! (t - j - 1)%nat with
  | Some ygen, Some c, Some prev =>
      let term := dot c prev in
      let! term := stretch (ncols result) (dim1 coefs) term in
      Ok (Array2 (nrows result) (ncols result)
            (<[t := vadd ygen term]> (rows result)))
  | _, _, _ => Raise IndexError
  end.

(** The body of [varsim] once the noise [ugen] is drawn, in its two
    parts: the intercept and the noise are put in place, then the
    autoregressive terms are added row after row. *)
Definition varsim_start (coefs : ndarray3 F) (intercept : option (array12 F))
    (steps : nat) (ugen : ndarray2 F) : outcome (ndarray2 F) :=
  let p := dim0 coefs in
  let k := dim2 coefs in
  let result := zeros steps k in
  match intercept with
  | Some intercept =>
      let! _ :=
        if bool_decide (1 < ndim intercept)%nat
           && negb (bool_decide (len intercept = nrows ugen))
        then Raise (ValueError "2-D intercept needs to have length `steps`")
        else Ok () in
      let! result := iadd result intercept in
      iadd_from p result ugen
  | None => assign_from p result ugen
  end.

Definition varsim_series (coefs : ndarray3 F) (intercept : option (array12 F))
    (steps : nat) (ugen : ndarray2 F) : outcome (ndarray2 F) :=
  let p := dim0 coefs in
  let! result := varsim_start coefs intercept steps ugen in
  foldM (λ result t,
           foldM (λ result j, ar_step coefs t j result) result (index_range 0 p))
    result (index_range p steps).

(** The generator to draw from, and where its new state is kept. *)
Definition seed_generator (seed : seed_arg) (w : world)
    : outcome (RandomState * (RandomState → world)) :=
  match seed with
  | SeedRandomState => Ok (caller_rs w, λ rs, World (np_random w) rs)
  | SeedInt n => let! rs := new_RandomState n in Ok (rs, λ _, w)
  | SeedNone => Ok (np_random w, λ rs, World rs (caller_rs w))
  end.

Definition varsim (coefs : ndarray3 F) (intercept : option (array12 F))
    (cov_resid : option (ndarray2 F)) (steps : nat)
    (initvalues : option (ndarray2 F)) (seed : seed_arg) (w : world)
    : outcome (ndarray2 F) * world :=
  match seed_generator seed w with
  | Raise e => (Raise e, w)
  | Ok (rs, store) =>
      let k := dim2 coefs in
      let cov_resid := match cov_resid with None => eye k | Some c => c end in
      let '(ugen, rs) :=
        multivariate_normal rs (replicate (nrows cov_resid) f0) cov_resid steps in
      (let! ugen := ugen in varsim_series coefs intercept steps ugen, store rs)
  end.

End Simulation.

(** ** The layout of the coefficient names, as the specification words it *)

Definition spec_trend_names (trendorder : Z) : list string :=
  take (Z.to_nat trendorder) ["const"; "trend"; "trend**2"].

Definition spec_exog_names (count : nat) : list string :=
  map (λ i, "exog" +:+ pretty i) (py_range 0 (Z.of_nat count)).

Definition spec_lag_names (names : list pyobj) (lag_order : Z) : list string :=
  mjoin (map (λ lag, map (λ name, "L" +:+ pretty lag +:+ "." +:+ str name) names)
           (py_range 1 (lag_order + 1))).

Definition exog_count {A} (exog : option (ndarray2 A)) : nat :=
  match exog with Some e => ncols e | None => 0 end.

(** ** The rows of the design matrix, as the specification words them *)

(** The [lags] observations that precede time [t], most recent first,
    each flattened with its variables side by side. *)
Definition spec_lagged_row {F} (y : ndarray2 F) (lags t : nat) : list F :=
  mjoin (map (λ lag, default [] (rows y !! (t - lag)%nat)) (seq 1 lags)).

(** ** The simulated rows, as the specification words them *)

Section SimulationSpec.
Context {F : Type} `{Scalar F}.

(** Row [t] of an array, the empty row outside it. *)
Definition row_of (a : ndarray2 F) (t : nat) : list F :=
  default [] (rows a !! t).

(** The contribution of the intercept to row [t]: zero when there is
    none, the vector itself, or row [t] of the offset. *)
Definition spec_intercept_row (k : nat) (intercept : option (array12 F))
    (t : nat) : list F :=
  match intercept with
  | None => replicate k f0
  | Some (Arr1 v) => v
  | Some (Arr2 m) => row_of m t
  end.

(** [base] plus the sum over the lags j = 0..p-1 of coefficient slice j
    applied to row [t - j - 1] of [series]. *)
Definition spec_ar_row (coefs : ndarray3 F) (series : ndarray2 F) (t : nat)
    (base : list F) : list F :=
  foldl (λ acc j,
           vadd acc (dot (default [] (slices coefs !! j))
                       (row_of series (t - j - 1))))
    base (seq 0 (dim0 coefs)).

(** The shapes the [intercept] argument is documented to have. *)
Definition intercept_shape (k steps : nat) (intercept : option (array12 F))
    : Prop :=
  match intercept with
  | None => True
  | Some (Arr1 v) => length v = k
  | Some (Arr2 m) => wf2 m ∧ nrows m = steps ∧ ncols m = k
  end.

End SimulationSpec.

(** ** A generator to evaluate the simulation on

    A linear congruential generator in the place of numpy's: a state is
    an integer, a seed has to lie in 0 .. 2^32 - 1, and a draw is the
    mean plus the covariance applied to a vector of small integers. *)

Definition lcg_next (s : Z) : Z := (1103515245 * s + 12345) `mod` 2147483648.

Fixpoint lcg_vector (k : nat) (s : Z) : list Q * Z :=
  match k with
  | O => ([], s)
  | S k =>
      let s1 := lcg_next s in
      let '(v, s2) := lcg_vector k s1 in
      (inject_Z (s1 `mod` 7 - 3) :: v, s2)
  end.

Fixpoint lcg_draws (size k : nat) (mean : list Q) (cov : list (list Q)) (s : Z)
    : list (list Q) * Z :=
  match size with
  | O => ([], s)
  | S size =>
      let '(z, s1) := lcg_vector k s in
      let '(us, s2) := lcg_draws size k mean cov s1 in
      (vadd mean (dot cov z) :: us, s2)
  end.

Definition lcg_multivariate_normal (s : Z) (mean : list Q) (cov : ndarray2 Q)
    (size : nat) : outcome (ndarray2 Q) * Z :=
  if decide (wf2 cov ∧ nrows cov = length mean ∧ ncols cov = length mean) then
    let '(us, s') := lcg_draws size (length mean) mean (rows cov) s in
    (Ok (Array2 size (length mean) us), s')
  else (Raise (ValueError "cov must be 2 dimensional and square"), s).

#[export] Instance lcg_sampler : Sampler Q := {
  RandomState := Z;
  new_RandomState n :=
    if decide (0 ≤ n < 4294967296) then Ok n
    else Raise (ValueError "Seed must be between 0 and 2**32 - 1");
  multivariate_normal := lcg_multivariate_normal
}.

(** [a[:n, :]] for [n = a.shape[1]]: the square block at the top of an
    array with at least as many rows as columns. *)
Definition top_square {A} (a : ndarray2 A) : ndarray2 A :=
  Array2 (ncols a) (ncols a) (take (ncols a) (rows a)).

(** [A[b, i] == A[i, b]] throughout, as for a covariance matrix *)
Definition symmetric {A} (a : ndarray2 A) : Prop :=
  ∀ b i, get2 a b i = get2 a i b.

(** Row [r] of the seasonal dummies, written out: a one in the column of
    the season (r + first_period) mod n_seasons, if that season has a
    column. *)
Definition season_row {F} `{Scalar F} (n_seasons first_period : Z) (r : nat)
    : list F :=
  map (λ i : nat,
         if decide ((Z.of_nat r + first_period) `mod` n_seasons = Z.of_nat i)
         then f1 else f0)
    (seq 0 (Z.to_nat (n_seasons - 1))).

(** ** Exact arithmetic

    Floating-point addition is not associative.  Statements that
    regroup sums are made for carriers on which the laws below hold, as
    they do for exact numbers; the rationals in canonical form are the
    instance they are evaluated on. *)

Class ExactLaws (F : Type) `{Scalar F} : Prop := {
  exact_add_0_l : ∀ x : F, fadd f0 x = x;
  exact_add_0_r : ∀ x : F, fadd x f0 = x;
  exact_add_assoc : ∀ x y z : F, fadd x (fadd y z) = fadd (fadd x y) z;
  exact_mul_0_l : ∀ x : F, fmul f0 x = f0;
  exact_mul_1_l : ∀ x : F, fmul f1 x = x
}.

#[export] Instance Qc_scalar : Scalar Qc := {
  f0 := 0%Qc;
  f1 := 1%Qc;
  fadd := Qcplus;
  fsub := Qcminus;
  fmul := Qcmult;
  fdiv := Qcdiv;
  of_int := λ z, Q2Qc (inject_Z z);
  feqb := λ x y, Qeq_bool x y
}.

Section CompanionState.
Context {F : Type} `{Scalar F}.

(** Row [c] of the identity matrix of size [n]. *)
Definition unit_row (n c : nat) : list F :=
  map (λ j, if decide (j = c) then f1 else f0) (seq 0 n).

(** The autoregressive term [A_1 y_1 + ... + A_p y_p] for the lagged
    observations [ys], most recent first, summed from zero in the order
    of the lags. *)
Definition lag_sum (coefs : ndarray3 F) (ys : list (list F)) : list F :=
  foldl (λ acc cy, vadd acc (dot cy.1 cy.2))
    (replicate (dim1 coefs) f0) (zip (slices coefs) ys).

End CompanionState.

(** The [p] observations before time [t] in a series, most recent
    first: [series[t-1]], ..., [series[t-p]]. *)
Definition lags_at {F} `{Scalar F} (series : ndarray2 F) (p t : nat)
    : list (list F) :=
  map (λ j, row_of series (t - j - 1)) (seq 0 p).

(** ** Autocovariances to autocorrelations *)

Section Autocorrelation.
Context {F : Type} `{Scalar F}.

(** The square root of numpy on array elements. *)
Variable fsqrt : F → F.

(** [s[i, j]] in a list of rows, for indices inside it *)
Definition at2 (s : list (list F)) (i j : nat) : F :=
  match s !! i with
  | Some r => default f0 (r !! j)
  | None => f0
  end.

(** [np.diag(a)] of a 2-d array of shape (d1, d2): its main diagonal *)
Definition np_diag (a : list (list F)) (d1 d2 : nat) : list F :=
  map (λ i, at2 a i i) (seq 0 (d1 `min` d2)).

(** [np.sqrt(np.outer(u, v))] *)
Definition sqrt_outer (u v : list F) : ndarray2 F :=
  Array2 (length u) (length v) (map (λ x, map (λ y, fsqrt (fmul x y)) v) u).

(** The length of an axis after broadcasting the lengths [a] and [b]. *)
Definition broadcast_dim (a b : nat) : outcome nat :=
  if decide (a = b) then Ok a
  else if decide (a = 1%nat) then Ok b
  else if decide (b = 1%nat) then Ok a
  else Raise (ValueError "operands could not be broadcast together").

(** The index on an axis of length [len] that the broadcast index [i]
    reads. *)
Definition pick (len i : nat) : nat := if decide (len = 1%nat) then 0%nat else i.

(** [x / d] for a 3-d array [x] and a 2-d array [d], broadcast over the
    first axis of [x] and over axes of length 1. *)
Definition div_broadcast (x : ndarray3 F) (d : ndarray2 F) : outcome (ndarray3 F) :=
  let! r := broadcast_dim (dim1 x) (nrows d) in
  let! c := broadcast_dim (dim2 x) (ncols d) in
  Ok (Array3 (dim0 x) r c
        (map (λ s,
           map (λ i,
             map (λ j,
               fdiv (at2 s (pick (dim1 x) i) (pick (dim2 x) j))
                    (at2 (rows d) (pick (nrows d) i) (pick (ncols d) j)))
               (seq 0 c))
             (seq 0 r))
           (slices x))).

Definition acf_to_acorr (acf : ndarray3 F) : outcome (ndarray3 F) :=
  match slices acf !! 0%nat with
  | None => Raise IndexError
  | Some acf0 =>
      let diag := np_diag acf0 (dim1 acf) (dim2 acf) in
      div_broadcast acf (sqrt_outer diag diag)
  end.

End Autocorrelation.

(** A square root on the rationals, exact where numerator and
    denominator are perfect squares; it stands in for [np.sqrt] where
    [acf_to_acorr] is evaluated. *)
Definition Qsqrt (q : Q) : Q := Z.sqrt (Qnum q) # Pos.sqrt (Qden q).

Example acf_to_acorr_ex :
  acf_to_acorr Qsqrt (Array3 1 2 2 [[[4%Q; 2%Q]; [2%Q; 9%Q]]])
  = Ok (Array3 1 2 2 [[[4 # 4; 2 # 6]; [2 # 6; 9 # 9]]]).
Proof. reflexivity. Qed.

(** ** Position of a name in a list *)

(** Python's [==] on the objects a list of names holds: a string never
    equals an integer. *)
#[export] Instance pyobj_eq_dec : EqDecision pyobj.
Proof. solve_decision. Defined.

(** [repr(o)], for strings that need no escaping *)
Definition repr (o : pyobj) : string :=
  match o with
  | PyStr s => "'" +:+ s +:+ "'"
  | PyInt n => pretty n
  end.

(** [lst.index(x)]: the position of the first element equal to [x], and
    a [ValueError] when there is none. *)
Definition py_index (lst : list pyobj) (x : pyobj) : outcome Z :=
  match list_find (λ y, y = x) lst with
  | Some (i, _) => Ok (Z.of_nat i)
  | None => Raise (ValueError (repr x +:+ " is not in list"))
  end.

(** [isinstance(name, (int, long))] *)
Definition is_int (o : pyobj) : bool :=
  match o with PyInt _ => true | PyStr _ => false end.

(** The result is an integer either way: the position found, or [name]
    itself when the lookup fails on an integer. *)
Definition get_index (lst : list pyobj) (name : pyobj) : outcome Z :=
  match py_index lst name with
  | Ok result => Ok result
  | Raise e =>
      if negb (is_int name) then Raise e
      else match name with
           | PyInt n => let result := n in Ok result
           | PyStr _ => Raise e
           end
  end.

Example get_index_ex :
  get_index [PyStr "gdp"; PyStr "cons"; PyStr "inv"] (PyStr "cons") = Ok 1 ∧
  get_index [PyStr "gdp"; PyStr "cons"; PyStr "inv"] (PyInt 2) = Ok 2.
Proof. split; reflexivity. Qed.

(** ** Intermediate values of the loops *)

(** The cells that the loop of [seasonal_dummies] sets to one in column
    [i]: the rows of the slice [(i - first_period) % n_seasons::n_seasons]. *)
Definition season_cells (n_seasons first_period : Z) (len_endog : nat) (i : Z)
    : list (nat * nat) :=
  map (λ r, (r, Z.to_nat i))
    (slice_from ((i - first_period) `mod` n_seasons) n_seasons len_endog).

Section CompanionRows.
Context {F : Type} `{Scalar F}.

(** Row [i] of [np.concatenate(coefs, axis=1)]. *)
Definition top_row (coefs : ndarray3 F) (i : nat) : list F :=
  mjoin (map (λ s, default [] (s !! i)) (slices coefs)).

(** The value of [result] in [comp_matrix] after [result[:k] = ...],
    before the identity blocks are set. *)
Definition with_top (coefs : ndarray3 F) : ndarray2 F :=
  let k := dim1 coefs in
  let kp := (k * dim0 coefs)%nat in
  Array2 kp kp
    (map (top_row coefs) (seq 0 k) ++ replicate (kp - k) (replicate kp f0)).

End CompanionRows.

(** * Properties *)

(** ** Trend order *)

(** C7: [get_trendorder] sends 'nc', 'c', 'ct' and 'ctt' to 0, 1, 2 and 3,
    and fails on every other string.  The failure is the one Python
    raises when the unassigned local [trendorder] is returned; it is the
    only exception the function can raise, and stands for the
    specification's InvalidTrendSpec. *)
Theorem get_trendorder_total :
  get_trendorder "nc" = Ok 0 ∧ get_trendorder "c" = Ok 1 ∧
  get_trendorder "ct" = Ok 2 ∧ get_trendorder "ctt" = Ok 3 ∧
  ∀ trend : string,
    trend ∉ ["nc"; "c"; "ct"; "ctt"] →
    get_trendorder trend = Raise (UnboundLocalError "trendorder").
Proof.
  repeat split; try reflexivity.
  intros trend Hnot. unfold get_trendorder.
  repeat case_decide; subst; try reflexivity;
    exfalso; apply Hnot; rewrite !elem_of_cons; tauto.
Qed.

Lemma get_trendorder_total_witness :
  ("t" ∉ ["nc"; "c"; "ct"; "ctt"]) ∧
  get_trendorder "t" = Raise (UnboundLocalError "trendorder").
Proof.
  assert (Hnot : "t" ∉ ["nc"; "c"; "ct"; "ctt"]).
  { rewrite !not_elem_of_cons. repeat split; try discriminate.
    apply not_elem_of_nil. }
  split; [exact Hnot |].
  exact (proj2 (proj2 (proj2 (proj2 get_trendorder_total))) "t" Hnot).
Defined.

Lemma get_trendorder_range trend t :
  get_trendorder trend = Ok t → 0 ≤ t ≤ 3.
Proof.
  unfold get_trendorder. repeat case_decide; intros [= <-]; lia.
Qed.

(** ** Coefficient names *)

Lemma lag_name_str i name :
  lag_name i name = "L" +:+ pretty i +:+ "." +:+ str name.
Proof. by destruct name. Qed.

Lemma foldl_snoc_map {A B} (f : A → B) (l : list A) (acc : list B) :
  foldl (λ acc x, acc ++ [f x]) acc l = acc ++ map f l.
Proof.
  revert acc. induction l as [| x l IH]; intros acc; simpl.
  - by rewrite app_nil_r.
  - rewrite IH. by rewrite <- app_assoc.
Qed.

Lemma lag_loop_eq (names : list pyobj) (lags : list Z) (acc : list string) :
  foldl (λ acc i, foldl (λ acc name, acc ++ [lag_name i name]) acc names) acc lags
  = acc ++ mjoin (map (λ lag, map (λ name, "L" +:+ pretty lag +:+ "." +:+ str name) names) lags).
Proof.
  revert acc. induction lags as [| i lags IH]; intros acc; simpl.
  - by rewrite app_nil_r.
  - rewrite IH, foldl_snoc_map, <- app_assoc. do 2 f_equal.
    apply map_ext. intros name. apply lag_name_str.
Qed.

Lemma py_insert_app {A} (i : Z) (x : A) (l1 l2 : list A) :
  i = Z.of_nat (length l1) → py_insert i x (l1 ++ l2) = l1 ++ x :: l2.
Proof.
  intros ->. unfold py_insert.
  assert ((Z.of_nat (length l1) <? 0) = false) as -> by (apply Z.ltb_ge; lia).
  rewrite length_app.
  replace (Z.to_nat (Z.of_nat (length l1) `min` Z.of_nat (length l1 + length l2)))
    with (length l1) by lia.
  by rewrite take_app_length, drop_app_length.
Qed.

Lemma py_insert_0 {A} (x : A) (l : list A) : py_insert 0 x l = x :: l.
Proof. exact (py_insert_app 0 x [] l eq_refl). Qed.

Lemma py_insert_1 {A} (x a : A) (l : list A) :
  py_insert 1 x (a :: l) = a :: x :: l.
Proof. exact (py_insert_app 1 x [a] l eq_refl). Qed.

Lemma py_insert_2 {A} (x a b : A) (l : list A) :
  py_insert 2 x (a :: b :: l) = a :: b :: x :: l.
Proof. exact (py_insert_app 2 x [a; b] l eq_refl). Qed.

Lemma py_range_succ (n : nat) :
  py_range 0 (Z.of_nat (S n)) = py_range 0 (Z.of_nat n) ++ [Z.of_nat n].
Proof.
  unfold py_range.
  replace (Z.to_nat (Z.of_nat (S n) - 0)) with (S n) by lia.
  replace (Z.to_nat (Z.of_nat n - 0)) with n by lia.
  rewrite seq_S, map_app. reflexivity.
Qed.

Lemma length_py_range (lo hi : Z) : length (py_range lo hi) = Z.to_nat (hi - lo).
Proof. unfold py_range. by rewrite length_map, length_seq. Qed.

Lemma exog_loop_eq (trendorder : Z) (n : nat) (tr lags : list string) :
  trendorder = Z.of_nat (length tr) →
  foldl (λ acc i, py_insert (trendorder + i) ("exog" +:+ pretty i) acc)
    (tr ++ lags) (py_range 0 (Z.of_nat n))
  = tr ++ spec_exog_names n ++ lags.
Proof.
  intros Ht. unfold spec_exog_names. induction n as [| n IH].
  - reflexivity.
  - rewrite py_range_succ, foldl_app, IH, map_app. simpl.
    rewrite (app_assoc tr), py_insert_app.
    + by rewrite <- !app_assoc.
    + rewrite length_app, length_map, length_py_range. lia.
Qed.

Lemma trend_inserts_eq (trendorder : Z) (lags : list string) :
  0 ≤ trendorder ≤ 3 →
  (let lag_names := lags in
   let lag_names :=
     if decide (trendorder ≠ 0) then py_insert 0 "const" lag_names else lag_names in
   let lag_names :=
     if decide (trendorder > 1) then py_insert 1 "trend" lag_names else lag_names in
   if decide (trendorder > 2) then py_insert 2 "trend**2" lag_names else lag_names)
  = spec_trend_names trendorder ++ lags.
Proof.
  intros Hrange.
  assert (trendorder = 0 ∨ trendorder = 1 ∨ trendorder = 2 ∨ trendorder = 3)
    as [-> | [-> | [-> | ->]]] by lia; simpl.
  - reflexivity.
  - apply py_insert_0.
  - rewrite py_insert_0. apply py_insert_1.
  - rewrite py_insert_0, py_insert_1. apply py_insert_2.
Qed.

Lemma length_spec_trend_names (trendorder : Z) :
  0 ≤ trendorder ≤ 3 → length (spec_trend_names trendorder) = Z.to_nat trendorder.
Proof.
  intros Hrange. unfold spec_trend_names. rewrite length_take. simpl. lia.
Qed.

Lemma length_spec_lag_names (names : list pyobj) (lag_order : Z) :
  length (spec_lag_names names lag_order)
  = (length names * Z.to_nat lag_order)%nat.
Proof.
  unfold spec_lag_names.
  replace (Z.to_nat lag_order) with (length (py_range 1 (lag_order + 1)))
    by (rewrite length_py_range; lia).
  induction (py_range 1 (lag_order + 1)) as [| i l IH]; simpl.
  - lia.
  - rewrite length_app, length_map, IH. lia.
Qed.

Lemma make_lag_names_list {A} (names : list pyobj) (lag_order trendorder : Z)
    (exog : option (ndarray2 A)) :
  0 ≤ trendorder ≤ 3 →
  make_lag_names (NameList names) lag_order trendorder exog
  = spec_trend_names trendorder ++ spec_exog_names (exog_count exog)
      ++ spec_lag_names names lag_order.
Proof.
  intros Hrange. unfold make_lag_names.
  rewrite lag_loop_eq. simpl app.
  fold (spec_lag_names names lag_order).
  pose proof (trend_inserts_eq trendorder (spec_lag_names names lag_order) Hrange)
    as Htrend.
  cbv zeta in Htrend. rewrite Htrend.
  destruct exog as [e |]; simpl.
  - apply exog_loop_eq. rewrite length_spec_trend_names by done. lia.
  - reflexivity.
Qed.

(** C10: a single string passed as [names] is treated as a list of one
    name: the call equals the call on the one-element list, and the
    lag-name portion of the result is L1.s, ..., L{lag_order}.s. *)
Theorem make_lag_names_one_string {A} (s : string) (lag_order trendorder : Z)
    (exog : option (ndarray2 A)) :
  make_lag_names (OneName s) lag_order trendorder exog
  = make_lag_names (NameList [PyStr s]) lag_order trendorder exog ∧
  (0 ≤ trendorder ≤ 3 →
   make_lag_names (OneName s) lag_order trendorder exog
   = spec_trend_names trendorder ++ spec_exog_names (exog_count exog)
       ++ map (λ lag, "L" +:+ pretty lag +:+ "." +:+ s) (py_range 1 (lag_order + 1))).
Proof.
  split; [reflexivity |].
  intros Hrange.
  change (make_lag_names (OneName s) lag_order trendorder exog)
    with (make_lag_names (NameList [PyStr s]) lag_order trendorder exog).
  rewrite make_lag_names_list by done. do 2 f_equal.
  unfold spec_lag_names.
  induction (py_range 1 (lag_order + 1)) as [| i l IH]; [done |].
  cbn. f_equal. exact IH.
Qed.

Lemma make_lag_names_one_string_witness :
  0 ≤ 1 ≤ 3 ∧
  make_lag_names (A:=Q) (OneName "gdp") 2 1 None = ["const"; "L1.gdp"; "L2.gdp"].
Proof.
  assert (Hrange : 0 ≤ 1 ≤ 3) by lia.
  split; [exact Hrange |].
  exact (proj2 (make_lag_names_one_string (A:=Q) "gdp" 2 1 None) Hrange).
Defined.

(** ** Design matrix *)

Lemma length_mjoin_uniform {A} (ls : list (list A)) (k : nat) :
  Forall (λ r, length r = k) ls → length (mjoin ls) = (length ls * k)%nat.
Proof.
  induction 1 as [| r ls Hr _ IH]; simpl; [done |].
  rewrite length_app, IH, Hr. lia.
Qed.

Lemma lookup_mjoin_uniform {A} (ls : list (list A)) (k j v : nat) (r : list A) :
  Forall (λ r, length r = k) ls → (v < k)%nat → ls !! j = Some r →
  mjoin ls !! (j * k + v)%nat = r !! v.
Proof.
  intros Hls Hv. revert j. induction Hls as [| r0 ls Hr0 _ IH]; intros j Hj.
  - done.
  - destruct j as [| j]; simpl in *.
    + injection Hj as ->. apply lookup_app_l. lia.
    + rewrite lookup_app_r by lia.
      replace (k + j * k + v - length r0)%nat with (j * k + v)%nat by lia.
      by apply IH.
Qed.

Lemma reverse_window {A} (l : list (list A)) (t lags : nat) :
  (lags ≤ t ≤ length l)%nat →
  reverse (py_slice (t - lags) t l)
  = map (λ lag, default [] (l !! (t - lag)%nat)) (seq 1 lags).
Proof.
  intros Ht. unfold py_slice.
  replace (t - (t - lags))%nat with lags by lia.
  assert (Hlen : length (take lags (drop (t - lags) l)) = lags).
  { rewrite length_take, length_drop. lia. }
  apply list_eq. intros i.
  destruct (decide (i < lags)%nat) as [Hi | Hi].
  - rewrite reverse_lookup by lia. rewrite Hlen.
    rewrite lookup_take_lt by lia. rewrite lookup_drop.
    rewrite list_lookup_fmap, lookup_seq_lt by done. simpl.
    replace (t - lags + (lags - S i))%nat with (t - S i)%nat by lia.
    destruct (lookup_lt_is_Some_2 l (t - S i)%nat) as [r Hr]; [lia |].
    by rewrite Hr.
  - rewrite lookup_ge_None_2 by (rewrite length_reverse; lia).
    rewrite lookup_ge_None_2; [done |].
    rewrite length_map, length_seq. lia.
Qed.

Section DesignFacts.
Context {F : Type} `{Scalar F}.

Lemma rows_lag_matrix (y : ndarray2 F) (lags : nat) :
  wf2 y →
  rows (lag_matrix y lags)
  = map (spec_lagged_row y lags) (seq lags (nrows y - lags)).
Proof.
  intros [Hlen _]. unfold lag_matrix, np_array, index_range. simpl.
  apply map_ext_in. intros t Ht. apply in_seq in Ht.
  unfold spec_lagged_row. f_equal. apply reverse_window. lia.
Qed.

Lemma length_spec_lagged_row (y : ndarray2 F) (lags t : nat) :
  wf2 y → (lags ≤ t ≤ nrows y)%nat →
  length (spec_lagged_row y lags t) = (ncols y * lags)%nat.
Proof.
  intros [Hlen Hrows] Ht. unfold spec_lagged_row.
  rewrite (length_mjoin_uniform _ (ncols y)).
  - rewrite length_map, length_seq. lia.
  - apply Forall_forall. intros r Hr. apply list_elem_of_In, in_map_iff in Hr.
    destruct Hr as (lag & <- & Hlag). apply in_seq in Hlag.
    destruct (lookup_lt_is_Some_2 (rows y) (t - lag)%nat) as [r Hr]; [lia |].
    rewrite Hr. simpl. by eapply (Forall_lookup_1 _ _ _ _ Hrows).
Qed.

Lemma lag_matrix_shape (y : ndarray2 F) (lags : nat) :
  wf2 y → (lags < nrows y)%nat →
  wf2 (lag_matrix y lags) ∧
  nrows (lag_matrix y lags) = (nrows y - lags)%nat ∧
  ncols (lag_matrix y lags) = (ncols y * lags)%nat.
Proof.
  intros Hwf Hlags.
  assert (Hn : nrows (lag_matrix y lags) = (nrows y - lags)%nat).
  { unfold lag_matrix, np_array, index_range. simpl.
    by rewrite length_map, length_seq. }
  assert (Hc : ncols (lag_matrix y lags) = (ncols y * lags)%nat).
  { pose proof (rows_lag_matrix y lags Hwf) as Hrows.
    unfold lag_matrix, np_array in *. simpl in *. rewrite Hrows.
    destruct (nrows y - lags)%nat as [| n] eqn:Hd; [lia |]. simpl.
    apply length_spec_lagged_row; [done | lia]. }
  split_and!; [| done | done].
  split.
  - rewrite Hn. rewrite rows_lag_matrix by done.
    by rewrite length_map, length_seq.
  - rewrite Hc, rows_lag_matrix by done.
    apply Forall_forall. intros r Hr. apply list_elem_of_In, in_map_iff in Hr.
    destruct Hr as (t & <- & Ht). apply in_seq in Ht.
    apply length_spec_lagged_row; [done | lia].
Qed.

Lemma constant_policy_order_0 (x : ndarray2 F) (hc : has_constant_t) :
  constant_policy x 0 hc = Ok 0%nat.
Proof. reflexivity. Qed.

Lemma constant_policy_bound (x : ndarray2 F) (order : nat) (hc : has_constant_t)
    (skip : nat) :
  constant_policy x order hc = Ok skip → (skip ≤ 1 ∧ skip ≤ order)%nat.
Proof.
  unfold constant_policy.
  destruct (bool_decide (0 < order)%nat) eqn:Ho; simpl.
  - apply bool_decide_eq_true in Ho.
    destruct (has_constant_column x), hc; intros [= <-]; lia.
  - intros [= <-]. lia.
Qed.

Lemma get_var_endog_rows (y : ndarray2 F) (lags : nat) (trend : string)
    (hc : has_constant_t) (t : Z) (skip : nat) :
  wf2 y → (lags < nrows y)%nat →
  get_trendorder trend = Ok t →
  constant_policy (lag_matrix y lags) (Z.to_nat t) hc = Ok skip →
  ∃ Zm, get_var_endog y lags trend hc = Ok Zm ∧ wf2 Zm ∧
    nrows Zm = (nrows y - lags)%nat ∧
    ncols Zm = (Z.to_nat t - skip + ncols y * lags)%nat ∧
    ∀ t', (lags ≤ t' < nrows y)%nat →
      rows Zm !! (t' - lags)%nat
      = Some (drop skip (take (Z.to_nat t) (trend_terms (t' - lags)))
                ++ spec_lagged_row y lags t').
Proof.
  intros Hwf Hlags Ht Hskip.
  destruct (lag_matrix_shape y lags Hwf Hlags) as ([Hlen Hrows] & Hn & Hc).
  pose proof (get_trendorder_range _ _ Ht) as Hrange.
  pose proof (constant_policy_bound _ _ _ _ Hskip) as Hbound.
  assert (Hlook : ∀ t', (lags ≤ t' < nrows y)%nat →
            rows (lag_matrix y lags) !! (t' - lags)%nat
            = Some (spec_lagged_row y lags t')).
  { intros t' Ht'. rewrite rows_lag_matrix by done.
    rewrite list_lookup_fmap, lookup_seq_lt by lia. simpl.
    do 2 f_equal. lia. }
  unfold get_var_endog. cbv zeta.
  remember (lag_matrix y lags) as X eqn:HX. clear HX.
  case_decide as Hnc.
  - unfold add_trend. rewrite Ht. simpl. rewrite Hskip. simpl.
    eexists. split; [reflexivity |]. simpl. split_and!.
    + split; simpl.
      * by rewrite length_imap.
      * apply Forall_forall. intros r Hr.
        apply list_elem_of_lookup in Hr as [i Hr].
        rewrite list_lookup_imap in Hr.
        destruct (rows X !! i) as [r0 |] eqn:Hr0;
          simpl in Hr; [| discriminate].
        injection Hr as <-.
        rewrite length_app, length_drop, length_take. simpl.
        rewrite (Forall_lookup_1 _ _ _ _ Hrows Hr0). lia.
    + done.
    + lia.
    + intros t' Ht'. rewrite list_lookup_imap, (Hlook t' Ht'). reflexivity.
  - subst trend. injection Ht as <-.
    rewrite constant_policy_order_0 in Hskip. injection Hskip as <-.
    eexists. split; [reflexivity |]. split_and!; done.
Qed.

End DesignFacts.

Section DesignClaims.
Context {F : Type} `{Scalar F}.

(** C3, as amended: for a series [y] of [nobs] observations of [K]
    variables, a lag order [lags < nobs] and a trend of order [t],
    [get_var_endog] returns a matrix of [nobs - lags] rows and
    [t - skip + K * lags] columns, where [skip] counts the trend columns
    that the [has_constant] policy leaves out: none under 'add' or when
    the lagged block has no constant column, one under 'skip' when it has
    one.  Row [t' - lags] holds the remaining trend terms followed by
    the observations at [t' - 1], ..., [t' - lags], each with its [K]
    variables side by side. *)
Theorem get_var_endog_design (y : ndarray2 F) (lags : nat) (trend : string)
    (hc : has_constant_t) (t : Z) (skip : nat) :
  wf2 y → (lags < nrows y)%nat →
  get_trendorder trend = Ok t →
  constant_policy (lag_matrix y lags) (Z.to_nat t) hc = Ok skip →
  (hc = HC_add ∨ has_constant_column (lag_matrix y lags) = false → skip = 0%nat) ∧
  (hc = HC_skip → 0 < t → has_constant_column (lag_matrix y lags) = true →
   skip = 1%nat) ∧
  ∃ Zm, get_var_endog y lags trend hc = Ok Zm ∧ wf2 Zm ∧
    nrows Zm = (nrows y - lags)%nat ∧
    ncols Zm = (Z.to_nat t - skip + ncols y * lags)%nat ∧
    ∀ t', (lags ≤ t' < nrows y)%nat →
      rows Zm !! (t' - lags)%nat
      = Some (drop skip (take (Z.to_nat t) (trend_terms (t' - lags)))
                ++ spec_lagged_row y lags t').
Proof.
  intros Hwf Hlags Ht Hskip. split_and!.
  - unfold constant_policy in Hskip. intros [-> | Hno].
    + destruct (_ && _); by injection Hskip as <-.
    + rewrite Hno, andb_false_r in Hskip. by injection Hskip as <-.
  - intros -> Hpos Hconst. unfold constant_policy in Hskip.
    rewrite Hconst, bool_decide_eq_true_2 in Hskip by lia.
    by injection Hskip as <-.
  - by apply get_var_endog_rows.
Qed.

End DesignClaims.

Lemma get_var_endog_design_witness :
  let y := Array2 4 2 [[1%Q; 2%Q]; [3%Q; 5%Q]; [5%Q; 6%Q]; [7%Q; 9%Q]] in
  ∃ Zm, get_var_endog y 2 "ct" HC_skip = Ok Zm ∧
    nrows Zm = 2%nat ∧ ncols Zm = 6%nat ∧
    rows Zm !! 0%nat = Some [1%Q; 1%Q; 3%Q; 5%Q; 1%Q; 2%Q].
Proof.
  intros y.
  assert (Hwf : wf2 y) by (split; [reflexivity | repeat constructor]).
  assert (Hlags : (2 < nrows y)%nat) by (simpl; lia).
  assert (Ht : get_trendorder "ct" = Ok 2) by reflexivity.
  assert (Hskip : constant_policy (lag_matrix y 2) (Z.to_nat 2) HC_skip = Ok 0%nat)
    by (vm_compute; reflexivity).
  destruct (get_var_endog_design y 2 "ct" HC_skip 2 0 Hwf Hlags Ht Hskip)
    as (_ & _ & Zm & HZ & _ & Hn & Hc & Hrow).
  exists Zm. split_and!; [exact HZ | exact Hn | exact Hc |].
  exact (Hrow 2%nat (conj (le_n 2) Hlags)).
Defined.

(** C3 as stated fails: a series that is constant has a constant column
    in its lagged block, so under the default policy 'skip' the design
    matrix carries no constant: one column, not trendOrder + K*p = 2. *)
Lemma get_var_endog_constant_series :
  ¬ ∃ Zm, get_var_endog (Array2 3 1 [[1%Q]; [1%Q]; [1%Q]]) 1 "c" HC_skip = Ok Zm ∧
          nrows Zm = (3 - 1)%nat ∧ ncols Zm = (1 + 1 * 1)%nat.
Proof.
  intros (Zm & HZ & _ & Hc). vm_compute in HZ. injection HZ as <-.
  discriminate Hc.
Qed.

(** ** Names against columns *)

Lemma lookup_py_range (lo hi : Z) (i : nat) :
  (i < Z.to_nat (hi - lo))%nat → py_range lo hi !! i = Some (lo + Z.of_nat i).
Proof.
  intros Hi. unfold py_range.
  by rewrite list_lookup_fmap, lookup_seq_lt.
Qed.

Lemma lookup_spec_lag_names (names : list pyobj) (lag_order : Z) (lag v : nat)
    (name : pyobj) :
  (1 ≤ lag)%nat → Z.of_nat lag ≤ lag_order → names !! v = Some name →
  spec_lag_names names lag_order !! ((lag - 1) * length names + v)%nat
  = Some ("L" +:+ pretty (Z.of_nat lag) +:+ "." +:+ str name).
Proof.
  intros Hlag Hle Hv. unfold spec_lag_names.
  rewrite (lookup_mjoin_uniform _ (length names) (lag - 1) v
             (map (λ name, "L" +:+ pretty (Z.of_nat lag) +:+ "." +:+ str name)
                names)).
  - by rewrite list_lookup_fmap, Hv.
  - apply Forall_forall. intros r Hr. apply list_elem_of_In, in_map_iff in Hr.
    destruct Hr as (i & <- & _). apply length_map.
  - by eapply lookup_lt_Some.
  - rewrite list_lookup_fmap, lookup_py_range by lia. simpl.
    by replace (1 + Z.of_nat (lag - 1)) with (Z.of_nat lag) by lia.
Qed.

Section NameClaims.
Context {A F : Type} `{Scalar F}.

(** C4, as amended: for a trend order in 0..3, [make_lag_names] returns
    the trend names, then the names of the exogenous regressors, then
    for each lag 1..p one name "L{lag}.{name}" per variable,
    trendorder + exog count + K*p names in all.  When there are no
    exogenous regressors and [get_var_endog] leaves out no trend column,
    the list is as long as the design matrix is wide, and its order is
    the order of the columns: the name at a trend position labels that
    trend term, and the name "L{lag}.{name}" of variable [v] labels the
    column that holds [y[t - lag, v]] in the row of time [t]. *)
Theorem make_lag_names_layout (names : list pyobj) (lag_order trendorder : Z)
    (exog : option (ndarray2 A)) :
  0 ≤ trendorder ≤ 3 →
  let result := make_lag_names (NameList names) lag_order trendorder exog in
  result = spec_trend_names trendorder ++ spec_exog_names (exog_count exog)
             ++ spec_lag_names names lag_order ∧
  length result
  = (Z.to_nat trendorder + exog_count exog + length names * Z.to_nat lag_order)%nat ∧
  ∀ (y : ndarray2 F) (lags : nat) (trend : string) (hc : has_constant_t)
    (Zm : ndarray2 F),
    wf2 y → (lags < nrows y)%nat → ncols y = length names →
    lag_order = Z.of_nat lags → get_trendorder trend = Ok trendorder →
    exog = None →
    constant_policy (lag_matrix y lags) (Z.to_nat trendorder) hc = Ok 0%nat →
    get_var_endog y lags trend hc = Ok Zm →
    ncols Zm = length result ∧
    (∀ c t', (c < Z.to_nat trendorder)%nat → (lags ≤ t' < nrows y)%nat →
       result !! c = ["const"; "trend"; "trend**2"] !! c ∧
       get2 Zm (t' - lags) c = trend_terms (t' - lags) !! c) ∧
    (∀ lag v name t', (1 ≤ lag ≤ lags)%nat → names !! v = Some name →
       (lags ≤ t' < nrows y)%nat →
       let c := (Z.to_nat trendorder + ((lag - 1) * length names + v))%nat in
       result !! c = Some ("L" +:+ pretty (Z.of_nat lag) +:+ "." +:+ str name) ∧
       get2 Zm (t' - lags) c = get2 y (t' - lag) v).
Proof.
  intros Hrange result.
  assert (Hres : result = spec_trend_names trendorder
                   ++ spec_exog_names (exog_count exog)
                   ++ spec_lag_names names lag_order)
    by (by apply make_lag_names_list).
  assert (Hlen : length result
            = (Z.to_nat trendorder + exog_count exog
               + length names * Z.to_nat lag_order)%nat).
  { rewrite Hres, !length_app, length_spec_trend_names by done.
    rewrite length_spec_lag_names. unfold spec_exog_names.
    rewrite length_map, length_py_range. lia. }
  split_and!; [done | done |].
  intros y lags trend hc Zm Hwf Hlags HK -> Ht -> Hskip HZ.
  destruct (get_var_endog_rows y lags trend hc trendorder 0 Hwf Hlags Ht Hskip)
    as (Zm' & HZ' & _ & _ & Hc & Hrow).
  rewrite HZ in HZ'. injection HZ' as <-.
  assert (Htt : ∀ i, length (take (Z.to_nat trendorder) (trend_terms (F:=F) i))
                     = Z.to_nat trendorder).
  { intros i. rewrite length_take. simpl. lia. }
  split_and!.
  - rewrite Hlen, Hc. simpl. lia.
  - intros c t' Hc' Ht'. split.
    + rewrite Hres. rewrite lookup_app_l
        by (rewrite length_spec_trend_names by done; lia).
      unfold spec_trend_names. by rewrite lookup_take_lt.
    + unfold get2. rewrite (Hrow t' Ht'). rewrite drop_0.
      rewrite lookup_app_l by (rewrite Htt; lia).
      by rewrite lookup_take_lt.
  - intros lag v name t' Hlag Hv Ht' c. split.
    + rewrite Hres. simpl. unfold c.
      rewrite lookup_app_r
        by (rewrite length_spec_trend_names by done; apply Nat.le_add_r).
      rewrite length_spec_trend_names by done.
      replace (Z.to_nat trendorder + ((lag - 1) * length names + v)
               - Z.to_nat trendorder)%nat
        with ((lag - 1) * length names + v)%nat by nia.
      apply lookup_spec_lag_names; [lia | lia | done].
    + unfold get2. rewrite (Hrow t' Ht'). rewrite drop_0. unfold c.
      rewrite lookup_app_r by (rewrite Htt; apply Nat.le_add_r). rewrite Htt.
      replace (Z.to_nat trendorder + ((lag - 1) * length names + v)
               - Z.to_nat trendorder)%nat
        with ((lag - 1) * length names + v)%nat by nia.
      destruct Hwf as [Hylen Hyrows].
      destruct (lookup_lt_is_Some_2 (rows y) (t' - lag)%nat) as [r Hr]; [lia |].
      rewrite Hr. unfold spec_lagged_row. rewrite <- HK.
      apply (lookup_mjoin_uniform _ (ncols y)).
      * apply Forall_forall. intros r' Hr'.
        apply list_elem_of_In, in_map_iff in Hr'.
        destruct Hr' as (lag' & <- & Hlag'). apply in_seq in Hlag'.
        destruct (lookup_lt_is_Some_2 (rows y) (t' - lag')%nat) as [r' Hr'];
          [lia |].
        rewrite Hr'. simpl. by eapply (Forall_lookup_1 _ _ _ _ Hyrows).
      * rewrite HK. by eapply lookup_lt_Some.
      * rewrite list_lookup_fmap, lookup_seq_lt by lia. simpl.
        replace (S (lag - 1)) with lag by lia. by rewrite Hr.
Qed.

End NameClaims.

Lemma make_lag_names_layout_witness :
  0 ≤ 1 ≤ 3 ∧
  make_lag_names (A:=Q) (NameList [PyStr "foo"; PyStr "bar"]) 2 1 None
  = ["const"; "L1.foo"; "L1.bar"; "L2.foo"; "L2.bar"].
Proof.
  assert (Hrange : 0 ≤ 1 ≤ 3) by lia.
  split; [exact Hrange |].
  exact (proj1 (make_lag_names_layout (A:=Q) (F:=Q)
                  [PyStr "foo"; PyStr "bar"] 2 1 None Hrange)).
Defined.

(** C4 as stated fails where it equates the names with the columns of
    the design matrix for every count of exogenous regressors: with one
    variable, one lag, a constant and one exogenous regressor there are
    three names, and [get_var_endog] builds two columns. *)
Lemma make_lag_names_exog_misaligned :
  let y := Array2 3 1 [[1%Q]; [2%Q]; [4%Q]] in
  let exog := Array2 3 1 [[0%Q]; [0%Q]; [0%Q]] in
  get_trendorder "c" = Ok 1 ∧
  ¬ ∀ Zm, get_var_endog y 1 "c" HC_skip = Ok Zm →
          ncols Zm = length (make_lag_names (NameList [PyStr "y"]) 1 1 (Some exog)).
Proof.
  intros y exog. split; [reflexivity |].
  intros Hall. specialize (Hall _ eq_refl). vm_compute in Hall. discriminate Hall.
Qed.

(** ** Half-vectorisation *)

Section VechFacts.
Context {A : Type}.

Lemma omap_total_length {B} (f : B → option A) (l : list B) :
  (∀ y, y ∈ l → is_Some (f y)) → length (omap f l) = length l.
Proof.
  induction l as [| y l IH]; intros Hall; simpl; [done |].
  destruct (Hall y) as [x Hx]; [by left |]. rewrite Hx. simpl.
  f_equal. apply IH. intros y' Hy'. apply Hall. by right.
Qed.

Lemma omap_total_lookup {B} (f : B → option A) (l : list B) (j : nat) (y : B) :
  (∀ y, y ∈ l → is_Some (f y)) → l !! j = Some y → omap f l !! j = f y.
Proof.
  revert j. induction l as [| y0 l IH]; intros j Hall Hj; [done |].
  simpl. destruct (Hall y0) as [x Hx]; [by left |]. rewrite Hx.
  destruct j as [| j]; simpl in *.
  - injection Hj as <-. by rewrite Hx.
  - apply IH; [| done]. intros y' Hy'. apply Hall. by right.
Qed.

Lemma vech_while_eq (a : ndarray2 A) (length i : nat) (n b : nat) (acc : list A) :
  (b + n = length)%nat →
  (∀ b', (b ≤ b' < length)%nat → is_Some (get2 a b' i)) →
  vech_while a length i b acc
  = Ok (acc ++ omap (λ b', get2 a b' i) (seq b n)).
Proof.
  revert b acc. induction n as [| n IH]; intros b acc Hb Hall.
  - simp vech_while. destruct (decide (b < length)%nat); [lia |]. simpl.
    by rewrite app_nil_r.
  - simp vech_while. destruct (decide (b < length)%nat) as [Hlt |]; [| lia].
    simpl. destruct (Hall b) as [x Hx]; [lia |]. rewrite Hx. simpl.
    rewrite IH; [| lia | intros b' Hb'; apply Hall; lia].
    replace (b + 1)%nat with (S b) by lia. by rewrite <- app_assoc.
Qed.

Lemma vech_columns_eq (a : ndarray2 A) (k lo n : nat) (acc : list A) :
  (∀ b i, (b < k)%nat → (i < k)%nat → is_Some (get2 a b i)) →
  (lo + n ≤ k)%nat →
  foldM (λ vechvec i, vech_while a k i i vechvec) acc (seq lo n)
  = Ok (acc ++ mjoin (map (λ i, omap (λ b, get2 a b i) (seq i (k - i)))
                        (seq lo n))).
Proof.
  intros Hall. revert lo acc. induction n as [| n IH]; intros lo acc Hlo; simpl.
  - by rewrite app_nil_r.
  - rewrite (vech_while_eq a k lo (k - lo)); [| lia | intros; apply Hall; lia].
    simpl. rewrite IH by lia. by rewrite <- app_assoc.
Qed.

Lemma triangle_length (cols : nat → list A) (k lo n : nat) :
  (∀ i, (i < k)%nat → length (cols i) = (k - i)%nat) →
  (lo + n = k)%nat →
  (2 * length (mjoin (map cols (seq lo n))) = n * (n + 1))%nat.
Proof.
  intros Hcols. revert lo. induction n as [| n IH]; intros lo Hlo; simpl.
  - done.
  - rewrite length_app, Hcols by lia.
    specialize (IH (S lo) ltac:(lia)). nia.
Qed.

(** C9: on a square K x K matrix [vech] returns K(K+1)/2 elements: column
    by column from left to right, and in column [i] the entries
    [A[b, i]] for the rows [b] from [i] to [K - 1]. *)
Theorem vech_square (a : ndarray2 A) (k : nat) :
  wf2 a → nrows a = k → ncols a = k →
  ∃ (v : list A) (cols : list (list A)),
    vech a = Ok v ∧ length v = (k * (k + 1) / 2)%nat ∧
    v = mjoin cols ∧ length cols = k ∧
    ∀ i, (i < k)%nat →
      ∃ col, cols !! i = Some col ∧ length col = (k - i)%nat ∧
        ∀ b, (i ≤ b < k)%nat → col !! (b - i)%nat = get2 a b i.
Proof.
  intros [Hlen Hrows] Hn Hc.
  assert (Hall : ∀ b i, (b < k)%nat → (i < k)%nat → is_Some (get2 a b i)).
  { intros b i Hb Hi. unfold get2.
    destruct (lookup_lt_is_Some_2 (rows a) b) as [r Hr]; [lia |].
    rewrite Hr. apply lookup_lt_is_Some_2.
    rewrite (Forall_lookup_1 _ _ _ _ Hrows Hr). lia. }
  set (col := λ i, omap (λ b, get2 a b i) (seq i (k - i))).
  assert (Hcol : ∀ i, (i < k)%nat → length (col i) = (k - i)%nat).
  { intros i Hi. unfold col. rewrite omap_total_length.
    - apply length_seq.
    - intros b Hb. apply list_elem_of_In, in_seq in Hb. apply Hall; lia. }
  exists (mjoin (map col (seq 0 k))), (map col (seq 0 k)). split_and!.
  - unfold vech. rewrite Hc. by rewrite (vech_columns_eq a k 0 k []).
  - pose proof (triangle_length col k 0 k Hcol eq_refl) as Htri.
    rewrite <- Htri, Nat.mul_comm. symmetry. by apply Nat.div_mul.
  - done.
  - by rewrite length_map, length_seq.
  - intros i Hi. exists (col i). split_and!.
    + by rewrite list_lookup_fmap, lookup_seq_lt.
    + by apply Hcol.
    + intros b Hb. unfold col.
      apply (omap_total_lookup (λ b', get2 a b' i)).
      * intros b' Hb'. apply list_elem_of_In, in_seq in Hb'. apply Hall; lia.
      * rewrite lookup_seq_lt by lia. f_equal. lia.
Qed.

End VechFacts.

Lemma vech_square_witness :
  vech (Array2 3 3 [[1; 2; 3]; [4; 5; 6]; [7; 8; 9]]) = Ok [1; 4; 7; 5; 8; 9].
Proof.
  set (a := Array2 3 3 [[1; 2; 3]; [4; 5; 6]; [7; 8; 9]]).
  assert (Hwf : wf2 a) by (split; [reflexivity | repeat constructor]).
  destruct (vech_square a 3 Hwf eq_refl eq_refl) as (v & cols & Hv & _).
  rewrite Hv. f_equal. vm_compute in Hv. by injection Hv.
Defined.

(** ** Assignments into arrays *)

Section AssignFacts.
Context {F : Type} `{Scalar F}.

Lemma wf2_zeros (n m : nat) : wf2 (zeros n m).
Proof.
  split; simpl.
  - by rewrite length_replicate.
  - apply Forall_replicate. by rewrite length_replicate.
Qed.

Lemma get2_zeros (n m r c : nat) :
  (r < n)%nat → (c < m)%nat → get2 (zeros n m) r c = Some f0.
Proof.
  intros Hr Hc. unfold get2, zeros. simpl.
  rewrite lookup_replicate_2 by done. by rewrite lookup_replicate_2.
Qed.

Lemma get2_is_Some (a : ndarray2 F) (r c : nat) :
  wf2 a → (r < nrows a)%nat → (c < ncols a)%nat → is_Some (get2 a r c).
Proof.
  intros [Hlen Hrows] Hr Hc. unfold get2.
  destruct (lookup_lt_is_Some_2 (rows a) r) as [row Hrow]; [lia |].
  rewrite Hrow. apply lookup_lt_is_Some_2.
  rewrite (Forall_lookup_1 _ _ _ _ Hrows Hrow). lia.
Qed.

Lemma wf2_set2 (i j : nat) (x : F) (a : ndarray2 F) : wf2 a → wf2 (set2 i j x a).
Proof.
  intros [Hlen Hrows]. split; simpl.
  - by rewrite length_alter.
  - apply Forall_alter; [done |]. intros r _ Hr. by rewrite length_insert.
Qed.

Lemma get2_set2 (i j : nat) (x : F) (a : ndarray2 F) (r c : nat) :
  is_Some (get2 a r c) →
  get2 (set2 i j x a) r c
  = if decide (i = r ∧ j = c) then Some x else get2 a r c.
Proof.
  unfold get2, set2. simpl. intros Hsome.
  destruct (rows a !! r) as [row |] eqn:Hrow; [| by destruct Hsome].
  destruct (decide (i = r)) as [-> | Hi].
  - rewrite list_lookup_alter_eq, Hrow. simpl.
    destruct (decide (j = c)) as [-> | Hj].
    + rewrite decide_True by done. apply list_lookup_insert_eq.
      by apply lookup_lt_is_Some_1.
    + rewrite decide_False by tauto. by apply list_lookup_insert_ne.
  - rewrite list_lookup_alter_ne, Hrow by done.
    by rewrite decide_False by tauto.
Qed.

Lemma wf2_set_pairs (ps : list (nat * nat)) (x : F) (a : ndarray2 F) :
  wf2 a →
  wf2 (foldl (λ a ij, set2 ij.1 ij.2 x a) a ps) ∧
  nrows (foldl (λ a ij, set2 ij.1 ij.2 x a) a ps) = nrows a ∧
  ncols (foldl (λ a ij, set2 ij.1 ij.2 x a) a ps) = ncols a.
Proof.
  revert a. induction ps as [| [i j] ps IH]; intros a Hwf; simpl; [done |].
  destruct (IH (set2 i j x a) (wf2_set2 i j x a Hwf)) as (? & ? & ?).
  done.
Qed.

Lemma get2_set_pairs (ps : list (nat * nat)) (x : F) (a : ndarray2 F) (r c : nat) :
  is_Some (get2 a r c) →
  get2 (foldl (λ a ij, set2 ij.1 ij.2 x a) a ps) r c
  = if decide ((r, c) ∈ ps) then Some x else get2 a r c.
Proof.
  revert a. induction ps as [| [i j] ps IH]; intros a Hsome; cbn [foldl fst snd].
  - rewrite decide_False; [done |]. apply not_elem_of_nil.
  - pose proof (get2_set2 i j x a r c Hsome) as Hset.
    rewrite IH by (rewrite Hset; case_decide; [by eexists | done]).
    rewrite Hset. destruct (decide ((r, c) ∈ ps)) as [Hin | Hnin].
    + rewrite decide_True; [done |]. by right.
    + destruct (decide (i = r ∧ j = c)) as [[-> ->] | Hne].
      * rewrite decide_True; [done |]. by left.
      * rewrite decide_False; [done |].
        intros [[= -> ->] | Hin]%elem_of_cons; tauto.
Qed.

Lemma foldl_nested {A B C} (g : A → C → A) (h : B → list C) (l : list B) (a : A) :
  foldl (λ a i, foldl g a (h i)) a l = foldl g a (mjoin (map h l)).
Proof.
  revert a. induction l as [| i l IH]; intros a; simpl; [done |].
  by rewrite foldl_app, IH.
Qed.

End AssignFacts.

(** ** Seasonal dummies *)

Lemma elem_of_slice_from (s step : Z) (n r : nat) :
  0 ≤ s → 0 < step →
  r ∈ slice_from s step n
  ↔ (r < n)%nat ∧ s ≤ Z.of_nat r ∧ (Z.of_nat r - s) `mod` step = 0.
Proof.
  intros Hs Hstep. unfold slice_from, py_range_step.
  assert ((s <? 0) = false) as -> by (apply Z.ltb_ge; lia).
  set (start := s `min` Z.of_nat n).
  set (q := (Z.of_nat n - start + step - 1) `div` step).
  pose proof (Z.mul_div_le (Z.of_nat n - start + step - 1) step Hstep) as Hq.
  fold q in Hq.
  rewrite list_elem_of_In, in_map_iff. split.
  - intros (z & <- & Hz). apply in_map_iff in Hz as (m & <- & Hm).
    apply in_seq in Hm.
    assert (Z.of_nat m + 1 ≤ q) by lia.
    assert (start + Z.of_nat m * step ≤ Z.of_nat n - 1) by nia.
    assert (start = s) as Hstart by lia. rewrite Hstart in *.
    split_and!; [lia | lia |].
    replace (Z.of_nat (Z.to_nat (s + Z.of_nat m * step)) - s)
      with (Z.of_nat m * step) by lia.
    apply Z_mod_mult.
  - intros (Hr & Hsr & Hmod).
    assert (start = s) as Hstart by lia.
    apply Z.mod_divide in Hmod as [m Hm]; [| lia].
    assert (0 ≤ m) by nia.
    assert (m + 1 ≤ q).
    { apply Z.div_le_lower_bound; [done |]. rewrite Hstart. nia. }
    exists (Z.of_nat r). split; [lia |].
    apply in_map_iff. exists (Z.to_nat m). split.
    + rewrite Hstart. lia.
    + apply in_seq. lia.
Qed.

Lemma seasonal_congruence (n fp r c : Z) :
  0 < n → 0 ≤ r → 0 ≤ c < n →
  (r < 0 ∨ ((c - fp) `mod` n ≤ r ∧ (r - (c - fp) `mod` n) `mod` n = 0))
  ↔ (r + fp) `mod` n = c.
Proof.
  intros Hn Hr Hc. split.
  - intros [? | [_ Hmod]]; [lia |].
    apply Z.mod_divide in Hmod as [m Hm]; [| lia].
    replace (r + fp) with ((c - fp) `mod` n + fp + m * n) by lia.
    rewrite Z_mod_plus_full, Zplus_mod_idemp_l.
    replace (c - fp + fp) with c by lia. by apply Z.mod_small.
  - intros <-. right.
    rewrite Zminus_mod_idemp_l. replace (r + fp - fp) with r by lia.
    pose proof (Z.mod_pos_bound r n Hn). pose proof (Z.mod_le r n Hr Hn).
    split; [lia |].
    rewrite Zminus_mod_idemp_r. replace (r - r) with 0 by lia.
    by apply Z.mod_0_l; lia.
Qed.

Section SeasonalClaims.
Context {F : Type} `{Scalar F}.

Lemma set_col_slice_cells (start step : Z) (j : nat) (x : F) (a : ndarray2 F) :
  set_col_slice start step j x a
  = foldl (λ a ij, set2 ij.1 ij.2 x a) a
      (map (λ r, (r, j)) (slice_from start step (nrows a))).
Proof.
  unfold set_col_slice. symmetry.
  exact (foldl_fmap (λ a ij, set2 ij.1 ij.2 x a) a
           (slice_from start step (nrows a)) (λ r, (r, j))).
Qed.

Lemma seasonal_loop_eq (n_seasons first_period : Z) (len_endog : nat)
    (cols : list Z) (a : ndarray2 F) :
  wf2 a → nrows a = len_endog →
  foldl (λ season_exog i,
           set_col_slice ((i - first_period) `mod` n_seasons) n_seasons
             (Z.to_nat i) f1 season_exog) a cols
  = foldl (λ a ij, set2 ij.1 ij.2 f1 a) a
      (mjoin (map (season_cells n_seasons first_period len_endog) cols)).
Proof.
  revert a. induction cols as [| i cols IH]; intros a Hwf Hn; [done |].
  cbn [foldl map mjoin list_join]. rewrite foldl_app.
  rewrite set_col_slice_cells, Hn.
  fold (season_cells n_seasons first_period len_endog i).
  destruct (wf2_set_pairs (season_cells n_seasons first_period len_endog i)
              f1 a Hwf) as (Hwf' & Hn' & _).
  apply IH; [done | by rewrite Hn'].
Qed.

Lemma elem_of_season_cells (n_seasons first_period : Z) (len_endog r c : nat) :
  0 < n_seasons → (r < len_endog)%nat → (c < Z.to_nat (n_seasons - 1))%nat →
  (r, c) ∈ mjoin (map (season_cells n_seasons first_period len_endog)
                    (py_range 0 (n_seasons - 1)))
  ↔ (Z.of_nat r + first_period) `mod` n_seasons = Z.of_nat c.
Proof.
  intros Hn Hr Hc.
  rewrite <- (seasonal_congruence n_seasons first_period (Z.of_nat r) (Z.of_nat c))
    by lia.
  pose proof (Z.mod_pos_bound (Z.of_nat c - first_period) n_seasons Hn) as Hmod.
  rewrite list_elem_of_join. split.
  - intros (cells & Hin & Hcells).
    apply list_elem_of_fmap in Hcells as (i & -> & Hi).
    apply list_elem_of_fmap in Hin as (r' & [= <- ->] & Hr').
    apply list_elem_of_fmap in Hi as (m & -> & Hm).
    apply list_elem_of_In, in_seq in Hm.
    apply elem_of_slice_from in Hr' as (_ & Hle & Hz);
      [| by apply Z.mod_pos_bound | done].
    right. by replace (Z.of_nat (Z.to_nat (0 + Z.of_nat m))) with (0 + Z.of_nat m)
      by lia.
  - intros [? | [Hle Hz]]; [lia |].
    exists (season_cells n_seasons first_period len_endog (Z.of_nat c)). split.
    + apply list_elem_of_fmap. exists r. split; [by rewrite Nat2Z.id |].
      apply elem_of_slice_from; [lia | done | done].
    + apply list_elem_of_fmap_2. apply list_elem_of_fmap.
      exists c. split; [lia |]. apply list_elem_of_In, in_seq. lia.
Qed.

(** C5, as amended: for [n_seasons >= 1] and [centered = False] the
    result has shape (len_endog, n_seasons - 1), and entry (r, i) is 1
    exactly when (r + first_period) mod n_seasons = i, and 0 otherwise;
    only first_period modulo n_seasons matters. *)
Theorem seasonal_dummies_entries (n_seasons : Z) (len_endog : nat)
    (first_period : Z) :
  1 ≤ n_seasons →
  (∃ M, seasonal_dummies n_seasons len_endog first_period false = Some M ∧
     wf2 M ∧ nrows M = len_endog ∧ ncols M = Z.to_nat (n_seasons - 1) ∧
     ∀ r i, (r < len_endog)%nat → (i < Z.to_nat (n_seasons - 1))%nat →
       get2 M r i
       = Some (if decide ((Z.of_nat r + first_period) `mod` n_seasons = Z.of_nat i)
               then f1 else f0)) ∧
  seasonal_dummies n_seasons len_endog (first_period `mod` n_seasons) false
  = seasonal_dummies n_seasons len_endog first_period false.
Proof.
  intros Hn. split.
  - unfold seasonal_dummies.
    rewrite decide_False by lia. rewrite decide_True by lia.
    eexists. split; [reflexivity |].
    rewrite (seasonal_loop_eq n_seasons first_period len_endog)
      by (apply wf2_zeros || done).
    destruct (wf2_set_pairs
                (mjoin (map (season_cells n_seasons first_period len_endog)
                          (py_range 0 (n_seasons - 1))))
                f1 (zeros len_endog (Z.to_nat (n_seasons - 1)))
                (wf2_zeros _ _)) as (Hwf & Hrows & Hcols).
    split_and!; [done | done | done |].
    intros r i Hr Hi.
    rewrite get2_set_pairs by (rewrite get2_zeros by done; by eexists).
    rewrite get2_zeros by done.
    pose proof (elem_of_season_cells n_seasons first_period len_endog r i
                  ltac:(lia) Hr Hi) as Hiff.
    repeat case_decide; tauto.
  - unfold seasonal_dummies. repeat case_decide; try done.
    f_equal.
    induction (py_range 0 (n_seasons - 1)) as [| i l IH] using rev_ind; [done |].
    rewrite !foldl_app. simpl. rewrite IH.
    by rewrite Zminus_mod_idemp_r.
Qed.

End SeasonalClaims.

Lemma seasonal_dummies_entries_witness :
  1 ≤ 12 ∧
  ∃ M, seasonal_dummies (F:=Q) 12 3 2 false = Some M ∧
       get2 M 0 2 = Some 1%Q ∧ get2 M 0 10 = Some 0%Q.
Proof.
  assert (Hn : 1 ≤ 12) by lia. split; [exact Hn |].
  destruct (proj1 (seasonal_dummies_entries (F:=Q) 12 3 2 Hn))
    as (M & HM & _ & _ & _ & Hentry).
  exists M. split_and!; [exact HM | |].
  - exact (Hentry 0%nat 2%nat ltac:(lia) ltac:(lia)).
  - exact (Hentry 0%nat 10%nat ltac:(lia) ltac:(lia)).
Defined.

(** C5 as stated fails: it puts the one where (r - first_period) mod
    n_seasons = i.  With three seasons and a first observation in the
    second season, row 0 has its one in column 1, where the claim asks
    for a zero. *)
Lemma seasonal_dummies_sign_counterexample :
  ¬ ∃ M, seasonal_dummies (F:=Q) 3 1 1 false = Some M ∧
     ∀ r i, (r < 1)%nat → (i < 2)%nat →
       get2 M r i
       = Some (if decide ((Z.of_nat r - 1) `mod` 3 = Z.of_nat i)
               then 1%Q else 0%Q).
Proof.
  intros (M & HM & Hentry). vm_compute in HM. injection HM as <-.
  specialize (Hentry 0%nat 1%nat ltac:(lia) ltac:(lia)).
  vm_compute in Hentry. discriminate Hentry.
Qed.

(** ** Companion matrix *)

Section CompanionFacts.
Context {F : Type} `{Scalar F}.

Lemma stretch_same {A} (n : nat) (l : list A) : stretch n n l = Ok l.
Proof. unfold stretch. by rewrite decide_True. Qed.

Lemma mapM_stretch_same {A} (n : nat) (ls : list (list A)) :
  mapM (stretch n n) ls = Ok ls.
Proof.
  induction ls as [| l ls IH]; simpl; [done |].
  by rewrite stretch_same, IH.
Qed.

Lemma top_row_block (coefs : ndarray3 F) (i : nat) :
  wf3 coefs → (i < dim1 coefs)%nat →
  Forall (λ r, length r = dim2 coefs)
    (map (λ s : list (list F), default [] (s !! i)) (slices coefs)).
Proof.
  intros [_ Hsl] Hi. apply Forall_forall. intros r Hr.
  apply list_elem_of_fmap in Hr as (s & -> & Hs).
  destruct (proj1 (Forall_forall _ _) Hsl s Hs) as [Hlen Hrows].
  destruct (lookup_lt_is_Some_2 s i) as [r Hr]; [lia |].
  rewrite Hr. simpl. by eapply (Forall_lookup_1 _ _ _ _ Hrows).
Qed.

Lemma length_top_row (coefs : ndarray3 F) (i : nat) :
  wf3 coefs → (i < dim1 coefs)%nat →
  length (top_row coefs i) = (dim0 coefs * dim2 coefs)%nat.
Proof.
  intros Hwf Hi. unfold top_row.
  rewrite (length_mjoin_uniform _ (dim2 coefs)) by by apply top_row_block.
  rewrite length_map. by destruct Hwf as [-> _].
Qed.

Lemma lookup_top_row (coefs : ndarray3 F) (l i j : nat) :
  wf3 coefs → (l < dim0 coefs)%nat → (i < dim1 coefs)%nat →
  (j < dim2 coefs)%nat →
  top_row coefs i !! (l * dim2 coefs + j)%nat = get3 coefs l i j.
Proof.
  intros Hwf Hl Hi Hj. unfold top_row, get3.
  destruct Hwf as [Hlen Hsl].
  destruct (lookup_lt_is_Some_2 (slices coefs) l) as [s Hs]; [lia |].
  destruct (Forall_lookup_1 _ _ _ _ Hsl Hs) as [Hslen Hsrows].
  destruct (lookup_lt_is_Some_2 s i) as [r Hr]; [lia |].
  rewrite Hs, Hr.
  rewrite (lookup_mjoin_uniform _ (dim2 coefs) l j r).
  - done.
  - by apply top_row_block.
  - done.
  - by rewrite list_lookup_fmap, Hs; simpl; rewrite Hr.
Qed.

Lemma comp_matrix_eq (coefs : ndarray3 F) :
  dim1 coefs = dim2 coefs → (1 ≤ dim0 coefs)%nat → wf3 coefs →
  let k := dim1 coefs in
  let kp := (k * dim0 coefs)%nat in
  comp_matrix coefs
  = Ok (foldl (λ a ij, set2 ij.1 ij.2 f1 a) (with_top coefs)
          (zip (seq k (kp - k)) (seq 0 (kp - k)))).
Proof.
  intros Hk Hp Hwf k kp. unfold comp_matrix. fold k. fold kp.
  rewrite decide_True by done.
  unfold concatenate_axis1.
  destruct (slices coefs) as [| s0 ss] eqn:Hss.
  { destruct Hwf as [Hlen _]. rewrite Hss in Hlen. simpl in Hlen. lia. }
  rewrite <- Hss. cbn [bind]. unfold set_row_slice. cbn [nrows ncols rows zeros].
  assert (Hle : (k ≤ kp)%nat) by (unfold kp; nia).
  replace (k `min` kp)%nat with k by lia.
  replace (k - 0)%nat with k by lia. fold k.
  rewrite stretch_same. cbn [bind].
  replace (dim0 coefs * dim2 coefs)%nat with kp by (unfold kp, k; lia).
  rewrite mapM_stretch_same. cbn [bind]. rewrite take_0. cbn [app].
  rewrite drop_replicate. fold (top_row coefs).
  change (Array2 kp kp (map (top_row coefs) (seq 0 k)
            ++ replicate (kp - k) (replicate kp f0))) with (with_top coefs).
  destruct (decide (1 < dim0 coefs)%nat) as [Hgt | Hngt].
  - unfold setitem_pairs.
    rewrite decide_True by (by rewrite !length_seq).
    rewrite decide_True; [done |]. split.
    + apply Forall_forall. intros i Hi. apply list_elem_of_In, in_seq in Hi.
      simpl. lia.
    + apply Forall_forall. intros j Hj. apply list_elem_of_In, in_seq in Hj.
      simpl. lia.
  - assert (dim0 coefs = 1)%nat as Hone by lia.
    replace (kp - k)%nat with 0%nat by (unfold kp; rewrite Hone; lia).
    done.
Qed.

Lemma wf2_with_top (coefs : ndarray3 F) :
  dim1 coefs = dim2 coefs → (1 ≤ dim0 coefs)%nat → wf3 coefs →
  wf2 (with_top coefs).
Proof.
  intros Hk Hp Hwf. unfold with_top. split; cbn [nrows ncols rows].
  - rewrite length_app, length_map, length_seq, length_replicate. nia.
  - apply Forall_app. split.
    + apply Forall_forall. intros r Hr.
      apply list_elem_of_fmap in Hr as (i & -> & Hi).
      apply list_elem_of_In, in_seq in Hi.
      rewrite length_top_row by (done || lia). rewrite <- Hk. lia.
    + apply Forall_replicate. by rewrite length_replicate.
Qed.

Lemma get2_with_top (coefs : ndarray3 F) (i j : nat) :
  dim1 coefs = dim2 coefs → (1 ≤ dim0 coefs)%nat →
  (i < dim1 coefs * dim0 coefs)%nat → (j < dim1 coefs * dim0 coefs)%nat →
  get2 (with_top coefs) i j
  = if decide (i < dim1 coefs)%nat then top_row coefs i !! j else Some f0.
Proof.
  intros Hk Hp Hi Hj. unfold get2, with_top. cbn [rows].
  destruct (decide (i < dim1 coefs)%nat) as [Hlt | Hge].
  - rewrite lookup_app_l by (by rewrite length_map, length_seq).
    by rewrite list_lookup_fmap, lookup_seq_lt.
  - rewrite lookup_app_r by (rewrite length_map, length_seq; lia).
    rewrite length_map, length_seq.
    rewrite lookup_replicate_2 by lia. by rewrite lookup_replicate_2.
Qed.

Lemma elem_of_diagonal (k n i j : nat) :
  (i, j) ∈ zip (seq k n) (seq 0 n) ↔ (j < n)%nat ∧ i = (k + j)%nat.
Proof.
  split.
  - intros Hin. apply list_elem_of_lookup in Hin as [m Hm].
    apply lookup_zip_with_Some in Hm as (x & y & [= <- <-] & Hx & Hy).
    apply lookup_seq in Hx as [-> ?]. apply lookup_seq in Hy as [-> ?]. lia.
  - intros [Hj ->]. apply list_elem_of_lookup. exists j.
    apply lookup_zip_with_Some. exists (k + j)%nat, j.
    split_and!; [done | by apply lookup_seq | by apply lookup_seq].
Qed.

(** C2: for coefficients of shape (p, K, K) with at least one lag the
    companion matrix is Kp x Kp; its top K rows are the p coefficient
    slices side by side in lag order; below them the block in block-row
    [b] and block-column [c] is the identity when [b = c + 1], and every
    other entry is zero. *)
Theorem comp_matrix_structure (coefs : ndarray3 F) (p k : nat) :
  wf3 coefs → dim0 coefs = p → dim1 coefs = k → dim2 coefs = k →
  (1 ≤ p)%nat →
  ∃ M, comp_matrix coefs = Ok M ∧ wf2 M ∧
    nrows M = (k * p)%nat ∧ ncols M = (k * p)%nat ∧
    (∀ l i j, (l < p)%nat → (i < k)%nat → (j < k)%nat →
       get2 M i (l * k + j) = get3 coefs l i j) ∧
    (∀ b c r s, (1 ≤ b < p)%nat → (c < p)%nat → (r < k)%nat → (s < k)%nat →
       get2 M (b * k + r) (c * k + s)
       = Some (if decide (c + 1 = b ∧ r = s)%nat then f1 else f0)).
Proof.
  intros Hwf Hp Hk Hk2 Hp1.
  assert (Hsq : dim1 coefs = dim2 coefs) by congruence.
  assert (Hp1' : (1 ≤ dim0 coefs)%nat) by lia.
  pose proof (comp_matrix_eq coefs Hsq Hp1' Hwf) as Heq. cbv zeta in Heq.
  pose proof (wf2_with_top coefs Hsq Hp1' Hwf) as Hwft.
  rewrite Hp, Hk in Heq.
  set (pairs := zip (seq k (k * p - k)) (seq 0 (k * p - k))) in *.
  destruct (wf2_set_pairs pairs f1 _ Hwft) as (HwfM & HnM & HcM).
  eexists. split; [exact Heq |].
  assert (Hsome : ∀ i j, (i < k * p)%nat → (j < k * p)%nat →
            is_Some (get2 (with_top coefs) i j)).
  { intros i j Hi Hj. apply get2_is_Some; [done | |];
      unfold with_top; cbn [nrows ncols]; rewrite Hp, Hk; lia. }
  split_and!.
  - exact HwfM.
  - rewrite HnM. unfold with_top. cbn [nrows]. by rewrite Hp, Hk.
  - rewrite HcM. unfold with_top. cbn [ncols]. by rewrite Hp, Hk.
  - intros l i j Hl Hi Hj.
    assert (l * k + j < k * p)%nat by nia.
    assert (i < k * p)%nat by nia.
    rewrite get2_set_pairs by (by apply Hsome).
    rewrite decide_False.
    + rewrite get2_with_top by (rewrite ?Hp, ?Hk; lia || done).
      rewrite decide_True by lia.
      rewrite <- Hk2 at 1. apply lookup_top_row; (done || lia).
    + unfold pairs. rewrite elem_of_diagonal. lia.
  - intros b c r s Hb Hc Hr Hs.
    assert (b * k + r < k * p)%nat by nia.
    assert (c * k + s < k * p)%nat by nia.
    rewrite get2_set_pairs by (by apply Hsome).
    rewrite get2_with_top by (rewrite ?Hp, ?Hk; lia || done).
    rewrite (decide_False (P := (b * k + r < dim1 coefs)%nat)) by (rewrite Hk; nia).
    unfold pairs.
    destruct (decide (c + 1 = b ∧ r = s)%nat) as [[<- <-] | Hne].
    + rewrite decide_True; [done |]. apply elem_of_diagonal. nia.
    + rewrite decide_False; [done |]. rewrite elem_of_diagonal.
      intros [Hlt Heq']. apply Hne.
      assert (b = c + 1)%nat by nia. subst b. split; [done | nia].
Qed.

(** Without a lag there is nothing to concatenate, and no matrix is
    returned. *)
Lemma comp_matrix_no_lags (coefs : ndarray3 F) :
  wf3 coefs → dim0 coefs = 0%nat → dim1 coefs = dim2 coefs →
  comp_matrix coefs = Raise (ValueError "need at least one array to concatenate").
Proof.
  intros [Hlen _] Hp Hk. unfold comp_matrix.
  rewrite decide_True by done. unfold concatenate_axis1.
  rewrite Hp in Hlen. by destruct (slices coefs).
Qed.

End CompanionFacts.

Lemma comp_matrix_structure_witness :
  let coefs := Array3 2 2 2 [[[1%Q; 2%Q]; [3%Q; 4%Q]]; [[5%Q; 6%Q]; [7%Q; 8%Q]]] in
  ∃ M, comp_matrix coefs = Ok M ∧ nrows M = 4%nat ∧ ncols M = 4%nat ∧
       get2 M 1 2 = Some 7%Q ∧ get2 M 3 1 = Some 1%Q ∧ get2 M 3 2 = Some 0%Q.
Proof.
  intros coefs.
  assert (Hwf : wf3 coefs) by (split; [reflexivity | repeat constructor]).
  destruct (comp_matrix_structure coefs 2 2 Hwf eq_refl eq_refl eq_refl (le_S 1 1 (le_n 1)))
    as (M & HM & _ & Hn & Hc & Htop & Hlow).
  exists M. split_and!; [exact HM | exact Hn | exact Hc | | |].
  - exact (Htop 1%nat 1%nat 0%nat ltac:(lia) ltac:(lia) ltac:(lia)).
  - exact (Hlow 1%nat 0%nat 1%nat 1%nat ltac:(lia) ltac:(lia) ltac:(lia) ltac:(lia)).
  - exact (Hlow 1%nat 1%nat 1%nat 0%nat ltac:(lia) ltac:(lia) ltac:(lia) ltac:(lia)).
Defined.

(** ** Simulation *)

Lemma foldl_ext_in {A B} (f g : A → B → A) (l : list B) (a : A) :
  (∀ a x, x ∈ l → f a x = g a x) → foldl f a l = foldl g a l.
Proof.
  revert a. induction l as [| x l IH]; intros a Hfg; simpl; [done |].
  rewrite Hfg by by left. apply IH. intros a' y Hy. apply Hfg. by right.
Qed.

Section SimulationFacts.
Context {F : Type} `{Scalar F} `{Sampler F}.

Lemma row_of_lookup (a : ndarray2 F) (t : nat) (r : list F) :
  rows a !! t = Some r → row_of a t = r.
Proof. unfold row_of. by intros ->. Qed.

Lemma lookup_row_of (a : ndarray2 F) (t : nat) :
  (t < length (rows a))%nat → rows a !! t = Some (row_of a t).
Proof.
  intros Ht. unfold row_of.
  destruct (lookup_lt_is_Some_2 (rows a) t Ht) as [r Hr]. by rewrite Hr.
Qed.

(** One turn of the inner loop adds one term to row [t]. *)
Lemma ar_step_eq (coefs : ndarray3 F) (t j : nat) (a : ndarray2 F) :
  length (slices coefs) = dim0 coefs → dim1 coefs = ncols a →
  (j < dim0 coefs)%nat → (j < t)%nat → (t < length (rows a))%nat →
  ar_step coefs t j a
  = Ok (Array2 (nrows a) (ncols a)
          (<[t := vadd (row_of a t)
                    (dot (default [] (slices coefs !! j)) (row_of a (t - j - 1)))]>
             (rows a))).
Proof.
  intros Hlen Hdim Hj Hjt Ht. unfold ar_step.
  rewrite (lookup_row_of a t) by done.
  rewrite (lookup_row_of a (t - j - 1)) by lia.
  destruct (lookup_lt_is_Some_2 (slices coefs) j) as [c Hc]; [lia |].
  rewrite Hc. simpl. by rewrite Hdim, stretch_same.
Qed.

(** The inner loop over the lags: the rows read lie before [t], so they
    are those of the array the loop started from. *)
Lemma ar_lags_eq (coefs : ndarray3 F) (t : nat) (lags : list nat)
    (prev : nat → list F) (a : ndarray2 F) :
  length (slices coefs) = dim0 coefs → dim1 coefs = ncols a →
  (t < length (rows a))%nat →
  (∀ j, j ∈ lags → (j < dim0 coefs)%nat ∧ (j < t)%nat ∧
                   row_of a (t - j - 1) = prev j) →
  foldM (λ result j, ar_step coefs t j result) a lags
  = Ok (Array2 (nrows a) (ncols a)
          (<[t := foldl (λ acc j,
                           vadd acc (dot (default [] (slices coefs !! j)) (prev j)))
                    (row_of a t) lags]> (rows a))).
Proof.
  intros Hlen. revert a. induction lags as [| j lags IH]; intros a Hdim Ht Hlags.
  - simpl. rewrite list_insert_id by by apply lookup_row_of. by destruct a.
  - destruct (Hlags j) as (Hj & Hjt & Hprev); [by left |].
    cbn [foldM]. rewrite ar_step_eq by done. cbn [bind].
    rewrite IH; cbn [nrows ncols rows].
    + rewrite list_insert_insert_eq. do 2 f_equal. cbn [foldl].
      unfold row_of at 1. cbn [rows].
      rewrite list_lookup_insert_eq by done. simpl. by rewrite Hprev.
    + done.
    + by rewrite length_insert.
    + intros j' Hj'. destruct (Hlags j') as (? & ? & Hprev'); [by right |].
      split_and!; [done | done |]. rewrite <- Hprev'.
      unfold row_of. cbn [rows]. by rewrite list_lookup_insert_ne by lia.
Qed.

(** The outer loop over the time steps [lo, lo + n): rows outside the
    range are left alone, and each row in it receives the autoregressive
    terms computed from the rows as they are returned. *)
Lemma ar_loop_eq (coefs : ndarray3 F) (n lo : nat) (a : ndarray2 F) :
  length (slices coefs) = dim0 coefs → dim1 coefs = ncols a →
  (dim0 coefs ≤ lo)%nat → ((0 < n)%nat → (lo + n ≤ length (rows a))%nat) →
  ∃ result,
    foldM (λ result t,
             foldM (λ result j, ar_step coefs t j result) result
               (index_range 0 (dim0 coefs)))
      a (seq lo n) = Ok result ∧
    nrows result = nrows a ∧ ncols result = ncols a ∧
    length (rows result) = length (rows a) ∧
    (∀ t, (t < lo ∨ lo + n ≤ t)%nat → rows result !! t = rows a !! t) ∧
    (∀ t, (lo ≤ t < lo + n)%nat →
       rows result !! t = Some (spec_ar_row coefs result t (row_of a t))).
Proof.
  intros Hlen. revert lo a. induction n as [| n IH]; intros lo a Hdim Hlo Hn.
  - exists a. split_and!; try done. intros t Ht. lia.
  - specialize (Hn ltac:(lia)). cbn [seq foldM]. unfold index_range at 1.
    rewrite (ar_lags_eq coefs lo (seq 0 (dim0 coefs - 0))
               (λ j, row_of a (lo - j - 1))); [| done | done | lia |].
    2:{ intros j Hj. apply list_elem_of_In, in_seq in Hj. split_and!; [lia | lia | done]. }
    cbn [bind].
    set (a1 := Array2 (nrows a) (ncols a) _).
    destruct (IH (S lo) a1) as (result & Hres & Hnr & Hnc & Hlenr & Hout & Hin).
    { done. }
    { lia. }
    { intros _. unfold a1. cbn [rows]. rewrite length_insert. lia. }
    exists result. split; [exact Hres |].
    assert (Ha1 : ∀ t, t ≠ lo → rows a1 !! t = rows a !! t).
    { intros t Ht. unfold a1. cbn [rows]. by apply list_lookup_insert_ne. }
    assert (Hlena1 : length (rows a1) = length (rows a)).
    { unfold a1. cbn [rows]. apply length_insert. }
    split_and!.
    + by rewrite Hnr.
    + by rewrite Hnc.
    + by rewrite Hlenr.
    + intros t Ht. rewrite Hout by lia. apply Ha1. lia.
    + intros t Ht. destruct (decide (t = lo)) as [-> | Hne].
      * rewrite Hout by lia. unfold a1. cbn [rows].
        rewrite list_lookup_insert_eq by lia. f_equal.
        unfold spec_ar_row. replace (dim0 coefs - 0)%nat with (dim0 coefs) by lia.
        apply foldl_ext_in. intros acc j Hj.
        apply list_elem_of_In, in_seq in Hj.
        do 2 f_equal. unfold row_of.
        rewrite Hout by lia. rewrite Ha1 by lia. done.
      * rewrite Hin by lia. do 2 f_equal. unfold row_of. by rewrite Ha1.
Qed.

Lemma vadd_zeros_l `{!ScalarLaws F} (k : nat) (v : list F) :
  length v = k → vadd (replicate k f0) v = v.
Proof.
  intros <-. unfold vadd. induction v as [| x v IH]; simpl; [done |].
  by rewrite fadd_0_l, IH.
Qed.

Lemma vadd_zeros_r `{!ScalarLaws F} (k : nat) (v : list F) :
  length v = k → vadd v (replicate k f0) = v.
Proof.
  intros <-. unfold vadd. induction v as [| x v IH]; simpl; [done |].
  by rewrite fadd_0_r, IH.
Qed.

Lemma broadcast_rows_same (n m : nat) (b : ndarray2 F) :
  nrows b = n → ncols b = m → broadcast_to n m (Arr2 b) = Ok (rows b).
Proof.
  intros <- <-. unfold broadcast_to.
  rewrite stretch_same. cbn [bind]. apply mapM_stretch_same.
Qed.

(** [result += intercept] on the zero array leaves the intercept in
    every row. *)
Lemma iadd_zeros_eq `{!ScalarLaws F} (k steps : nat) (ic : array12 F) :
  intercept_shape k steps (Some ic) →
  ∃ a, iadd (zeros steps k) ic = Ok a ∧
    nrows a = steps ∧ ncols a = k ∧ length (rows a) = steps ∧
    ∀ t, (t < steps)%nat →
      rows a !! t = Some (spec_intercept_row k (Some ic) t).
Proof.
  destruct ic as [v | m]; simpl.
  - intros Hv. unfold iadd, broadcast_to. cbn [nrows ncols rows zeros].
    rewrite Hv, stretch_same. cbn [bind].
    eexists. split; [reflexivity |]. cbn [nrows ncols rows].
    rewrite zip_with_replicate, length_replicate.
    split_and!; try done. intros t Ht.
    rewrite lookup_replicate_2 by done. by rewrite vadd_zeros_l.
  - intros ([Hlen Hrows] & Hn & Hc). unfold iadd.
    cbn [nrows ncols rows zeros].
    rewrite broadcast_rows_same by done. cbn [bind].
    eexists. split; [reflexivity |]. cbn [nrows ncols rows].
    rewrite length_zip_with, length_replicate.
    split_and!; [done | done | lia |]. intros t Ht.
    destruct (lookup_lt_is_Some_2 (rows m) t) as [r Hr]; [lia |].
    rewrite lookup_zip_with, lookup_replicate_2, Hr by done. simpl.
    rewrite (row_of_lookup m t r Hr).
    rewrite vadd_zeros_l; [done |].
    rewrite <- Hc. by eapply (Forall_lookup_1 _ _ _ _ Hrows).
Qed.

(** [a[p:] += b[p:]] for arrays of one shape. *)
Lemma iadd_from_eq (p : nat) (a b : ndarray2 F) :
  nrows b = nrows a → ncols b = ncols a →
  iadd_from p a b
  = Ok (Array2 (nrows a) (ncols a)
          (take p (rows a) ++ zip_with vadd (drop p (rows a)) (drop p (rows b)))).
Proof.
  intros Hn Hc. unfold iadd_from, iadd, rows_from. cbn [nrows ncols rows].
  rewrite broadcast_rows_same; cbn [nrows ncols rows]; [done | lia | done].
Qed.

(** [a[p:] = b[p:]] for arrays of one shape. *)
Lemma assign_from_eq (p : nat) (a b : ndarray2 F) :
  nrows b = nrows a → ncols b = ncols a →
  assign_from p a b
  = Ok (Array2 (nrows a) (ncols a) (take p (rows a) ++ drop p (rows b))).
Proof.
  intros Hn Hc. unfold assign_from, rows_from. cbn [nrows ncols rows].
  rewrite broadcast_rows_same; cbn [nrows ncols rows]; [done | lia | done].
Qed.

(** The series before the autoregressive terms are added: the intercept
    in the first [p] rows, the intercept plus the noise in the others. *)
Lemma varsim_start_eq `{!ScalarLaws F} (coefs : ndarray3 F)
    (intercept : option (array12 F)) (steps : nat) (ugen : ndarray2 F) :
  let p := dim0 coefs in
  let k := dim2 coefs in
  wf2 ugen → nrows ugen = steps → ncols ugen = k →
  intercept_shape k steps intercept →
  ∃ a, varsim_start coefs intercept steps ugen = Ok a ∧
    nrows a = steps ∧ ncols a = k ∧ length (rows a) = steps ∧
    ∀ t, (t < steps)%nat →
      rows a !! t
      = Some (if decide (t < p)%nat then spec_intercept_row k intercept t
              else vadd (spec_intercept_row k intercept t) (row_of ugen t)).
Proof.
  intros p k [Hulen Hurows] Hun Huc Hshape. unfold varsim_start. fold p. fold k.
  assert (Hurow : ∀ t, (t < steps)%nat →
            rows ugen !! t = Some (row_of ugen t) ∧ length (row_of ugen t) = k).
  { intros t Ht. rewrite lookup_row_of by lia. split; [done |].
    rewrite <- Huc. eapply (Forall_lookup_1 _ _ _ _ Hurows).
    apply lookup_row_of. lia. }
  destruct intercept as [ic |].
  - assert (Hcheck : bool_decide (1 < ndim ic)%nat
                     && negb (bool_decide (len ic = nrows ugen)) = false).
    { destruct ic as [v | m]; [done |]. simpl.
      destruct Hshape as (_ & Hn & _). by rewrite bool_decide_eq_true_2 by lia. }
    rewrite Hcheck. cbn [bind].
    destruct (iadd_zeros_eq k steps ic Hshape) as (a & Ha & Hn & Hc & Hlen & Hrow).
    rewrite Ha. cbn [bind]. rewrite iadd_from_eq by lia.
    eexists. split; [reflexivity |]. cbn [nrows ncols rows].
    split_and!; [done | done | |].
    + rewrite length_app, length_take, length_zip_with, !length_drop. lia.
    + intros t Ht. destruct (decide (t < p)%nat) as [Hlt | Hge].
      * rewrite lookup_app_l by (rewrite length_take; lia).
        rewrite lookup_take_lt by done. by apply Hrow.
      * rewrite lookup_app_r by (rewrite length_take; lia).
        rewrite length_take. replace (p `min` length (rows a))%nat with p by lia.
        rewrite lookup_zip_with, !lookup_drop.
        replace (p + (t - p))%nat with t by lia.
        rewrite Hrow by done. simpl.
        by destruct (Hurow t Ht) as [-> _].
  - rewrite assign_from_eq by done.
    eexists. split; [reflexivity |]. cbn [nrows ncols rows zeros].
    split_and!; [done | done | |].
    + rewrite length_app, length_take, length_replicate, length_drop. lia.
    + intros t Ht. cbn [spec_intercept_row].
      destruct (decide (t < p)%nat) as [Hlt | Hge].
      * rewrite lookup_app_l by (rewrite length_take, length_replicate; lia).
        rewrite lookup_take_lt by done. by rewrite lookup_replicate_2.
      * rewrite lookup_app_r by (rewrite length_take, length_replicate; lia).
        rewrite length_take, length_replicate.
        replace (p `min` steps)%nat with p by lia.
        rewrite lookup_drop. replace (p + (t - p))%nat with t by lia.
        destruct (Hurow t Ht) as [-> Hk]. by rewrite vadd_zeros_l.
Qed.

End SimulationFacts.

(** *** The rationals and the congruential generator obey the laws *)

#[export] Instance Q_scalar_laws : ScalarLaws Q.
Proof.
  split; intros [n d]; cbn [fadd f0 Q_scalar]; unfold Qplus; cbn [Qnum Qden].
  - f_equal; lia.
  - f_equal; lia.
Qed.

Lemma lcg_vector_integral (k : nat) (s : Z) :
  Forall (λ q, Qden q = 1%positive) (lcg_vector k s).1.
Proof.
  revert s. induction k as [| k IH]; intros s; simpl; [constructor |].
  specialize (IH (lcg_next s)). destruct (lcg_vector k (lcg_next s)) as [v s2].
  simpl in *. by constructor.
Qed.

Lemma dotp_zero_row (r z : list Q) :
  Forall (λ x, x = 0%Q) r → Forall (λ q, Qden q = 1%positive) z →
  dotp r z = 0%Q.
Proof.
  unfold dotp. cbn [f0 Q_scalar]. intros Hr. revert z.
  induction Hr as [| x r -> _ IH]; intros z Hz; [done |].
  destruct Hz as [| [n d] z Hq Hz]; [done |]. simpl in Hq. subst d.
  cbn [zip zip_with foldl fst snd fadd fmul Q_scalar].
  replace (0 + 0 * (n # 1))%Q with 0%Q by reflexivity. by apply IH.
Qed.

Lemma lcg_draws_spec (size k : nat) (mean : list Q) (cov : list (list Q)) (s : Z) :
  length (lcg_draws size k mean cov s).1 = size ∧
  Forall (λ u, ∃ z, Forall (λ q, Qden q = 1%positive) z ∧
                    u = vadd mean (dot cov z))
    (lcg_draws size k mean cov s).1.
Proof.
  revert s. induction size as [| size IH]; intros s; simpl; [by split |].
  pose proof (lcg_vector_integral k s) as Hz.
  destruct (lcg_vector k s) as [z s1]. specialize (IH s1).
  destruct (lcg_draws size k mean cov s1) as [us s2]. simpl in *.
  destruct IH as [Hlen Hall]. split; [by rewrite Hlen |].
  constructor; [by exists z | done].
Qed.

#[export] Instance lcg_sampler_laws : SamplerLaws Q.
Proof.
  split.
  - intros rs mean cov size u rs'. cbn [multivariate_normal lcg_sampler].
    unfold lcg_multivariate_normal.
    destruct (decide _) as [([Hclen Hcrows] & Hn & Hc) |]; [| done].
    pose proof (lcg_draws_spec size (length mean) mean (rows cov) rs)
      as [Hlen Hall].
    destruct (lcg_draws size (length mean) mean (rows cov) rs) as [us s2].
    intros [= <- <-]. simpl in *. split_and!; [| done | done].
    split; simpl; [done |].
    eapply Forall_impl; [exact Hall |]. intros r (z & _ & ->).
    unfold vadd, dot. rewrite length_zip_with, length_map. lia.
  - intros rs mean cov size u rs'. cbn [multivariate_normal lcg_sampler].
    unfold lcg_multivariate_normal.
    destruct (decide _) as [([Hclen Hcrows] & Hn & Hc) |]; [| done].
    pose proof (lcg_draws_spec size (length mean) mean (rows cov) rs)
      as [Hlen Hall].
    destruct (lcg_draws size (length mean) mean (rows cov) rs) as [us s2].
    intros [= <- <-] Hzero. simpl in *.
    eapply Forall_impl; [exact Hall |]. intros r (z & Hz & ->).
    replace (dot (rows cov) z) with (replicate (length mean) 0%Q).
    + exact (vadd_zeros_r (F:=Q) (length mean) mean eq_refl).
    + rewrite <- Hn, <- Hclen. unfold dot. clear -Hzero Hz.
      induction Hzero as [| r rs Hr _ IH]; simpl; [done |].
      by rewrite dotp_zero_row, IH.
Qed.

Section SimulationClaims.
Context {F : Type} `{Scalar F} `{Sampler F} `{!ScalarLaws F} `{!SamplerLaws F}.

Lemma length_spec_ar_row (coefs : ndarray3 F) (series : ndarray2 F) (t : nat)
    (base : list F) :
  wf3 coefs → length base = dim1 coefs →
  length (spec_ar_row coefs series t base) = dim1 coefs.
Proof.
  intros [Hlen Hsl] Hbase. unfold spec_ar_row.
  assert (Hall : ∀ j, j ∈ seq 0 (dim0 coefs) → (j < dim0 coefs)%nat).
  { intros j Hj. apply list_elem_of_In, in_seq in Hj. lia. }
  revert base Hbase Hall.
  induction (seq 0 (dim0 coefs)) as [| j l IH]; intros base Hbase Hall; [done |].
  cbn [foldl]. apply IH.
  - destruct (lookup_lt_is_Some_2 (slices coefs) j) as [c Hc];
      [rewrite Hlen; apply Hall; by left |].
    rewrite Hc. simpl. unfold vadd, dot.
    rewrite length_zip_with, length_map, Hbase.
    destruct (Forall_lookup_1 _ _ _ _ Hsl Hc) as [-> _]. lia.
  - intros j' Hj'. apply Hall. by right.
Qed.

Lemma length_spec_intercept_row (k steps : nat) (intercept : option (array12 F))
    (t : nat) :
  intercept_shape k steps intercept → (t < steps)%nat →
  length (spec_intercept_row k intercept t) = k.
Proof.
  destruct intercept as [[v | m] |]; simpl.
  - done.
  - intros ([Hlen Hrows] & Hn & Hc) Ht. rewrite <- Hc.
    eapply (Forall_lookup_1 _ _ _ _ Hrows). apply lookup_row_of. lia.
  - intros _ _. apply length_replicate.
Qed.

(** What [varsim] returns once the generator is chosen and the noise is
    drawn. *)
Lemma varsim_eq (coefs : ndarray3 F) (intercept : option (array12 F))
    (cov_resid : option (ndarray2 F)) (steps : nat)
    (initvalues : option (ndarray2 F)) (seed : seed_arg) (w : world)
    (rs : RandomState) (store : RandomState → world) (ugen : ndarray2 F)
    (rs' : RandomState) :
  let p := dim0 coefs in
  let k := dim2 coefs in
  let cov := match cov_resid with None => eye k | Some c => c end in
  wf3 coefs → dim1 coefs = k → nrows cov = k →
  intercept_shape k steps intercept →
  seed_generator seed w = Ok (rs, store) →
  multivariate_normal rs (replicate (nrows cov) f0) cov steps = (Ok ugen, rs') →
  ∃ result,
    varsim coefs intercept cov_resid steps initvalues seed w
    = (Ok result, store rs') ∧
    wf2 result ∧ nrows result = steps ∧ ncols result = k ∧
    (∀ t, (t < steps)%nat → (t < p)%nat →
       rows result !! t = Some (spec_intercept_row k intercept t)) ∧
    (∀ t, (p ≤ t < steps)%nat →
       rows result !! t
       = Some (spec_ar_row coefs result t
                 (vadd (spec_intercept_row k intercept t) (row_of ugen t)))) ∧
    (Forall (Forall (λ x, x = f0)) (rows cov) →
     ∀ t, (p ≤ t < steps)%nat →
       rows result !! t
       = Some (spec_ar_row coefs result t (spec_intercept_row k intercept t))).
Proof.
  intros p k cov Hwf Hsq Hcov Hshape Hseed Hdraw.
  destruct (mvn_shape _ _ _ _ _ _ Hdraw) as (Huwf & Hun & Huc).
  rewrite length_replicate, Hcov in Huc.
  destruct (varsim_start_eq coefs intercept steps ugen Huwf Hun Huc Hshape)
    as (a & Ha & Han & Hac & Halen & Harow).
  fold p in Harow. fold k in Harow, Hac.
  destruct (ar_loop_eq coefs (steps - p) p a) as
    (result & Hres & Hrn & Hrc & Hrlen & Hout & Hin).
  { by destruct Hwf. }
  { by rewrite Hsq, Hac. }
  { done. }
  { fold p. lia. }
  fold p in Hres, Hout, Hin.
  assert (Hrows : ∀ t, (p ≤ t < steps)%nat →
            rows result !! t
            = Some (spec_ar_row coefs result t
                      (vadd (spec_intercept_row k intercept t) (row_of ugen t)))).
  { intros t Ht. rewrite Hin by lia. do 2 f_equal.
    apply row_of_lookup. rewrite Harow by lia. by rewrite decide_False by lia. }
  assert (Hseedrows : ∀ t, (t < steps)%nat → (t < p)%nat →
            rows result !! t = Some (spec_intercept_row k intercept t)).
  { intros t Ht Htp. rewrite Hout by lia. rewrite Harow by done.
    by rewrite decide_True. }
  assert (Hurow : ∀ t, (t < steps)%nat → length (row_of ugen t) = k).
  { intros t Ht. destruct Huwf as [Hulen Hurows]. rewrite <- Huc.
    eapply (Forall_lookup_1 _ _ _ _ Hurows). apply lookup_row_of. lia. }
  exists result. split_and!.
  - unfold varsim. rewrite Hseed. fold k. fold cov. rewrite Hdraw.
    cbn [bind]. unfold varsim_series. rewrite Ha. cbn [bind]. fold p.
    unfold index_range at 2. by rewrite Hres.
  - split; [lia |]. apply Forall_lookup_2. intros t r Hr.
    assert (Ht : (t < steps)%nat).
    { apply lookup_lt_Some in Hr. lia. }
    rewrite Hrc, Hac.
    destruct (decide (t < p)%nat) as [Hlt | Hge].
    + rewrite Hseedrows in Hr by done. injection Hr as <-.
      by eapply length_spec_intercept_row.
    + rewrite Hrows in Hr by lia. injection Hr as <-.
      rewrite length_spec_ar_row; [exact Hsq | done |].
      unfold vadd. rewrite length_zip_with, Hurow by done.
      rewrite (length_spec_intercept_row k steps) by done. lia.
  - lia.
  - lia.
  - exact Hseedrows.
  - exact Hrows.
  - intros Hzero t Ht. rewrite Hrows by done. do 2 f_equal.
    pose proof (mvn_degenerate _ _ _ _ _ _ Hdraw Hzero) as Hmean.
    rewrite Hcov in Hmean.
    rewrite (proj1 (Forall_forall _ _) Hmean (row_of ugen t)).
    + apply vadd_zeros_r.
      apply (length_spec_intercept_row k steps); [done | lia].
    + apply list_elem_of_lookup. exists t. apply lookup_row_of.
      destruct Huwf as [-> _]. lia.
Qed.

(** C1: with coefficients of shape (p, K, K), once the generator is
    chosen and the noise [ugen] is drawn, [varsim] returns a (steps, K)
    series in which rows 0..p-1 hold the contribution of the intercept
    alone (zero when there is none) and no noise, and every row [t] with
    [p <= t < steps] holds the intercept, plus the noise of step [t],
    plus the sum over the lags j = 0..p-1 of coefficient slice [j]
    applied to row [t - j - 1] of the returned series.  When the
    covariance is the zero matrix the noise vanishes and the rows from
    [p] on follow the autoregressive recursion alone. *)
Theorem varsim_rows (coefs : ndarray3 F) (intercept : option (array12 F))
    (cov_resid : option (ndarray2 F)) (steps : nat)
    (initvalues : option (ndarray2 F)) (seed : seed_arg) (w : world)
    (rs : RandomState) (store : RandomState → world) (ugen : ndarray2 F)
    (rs' : RandomState) :
  let p := dim0 coefs in
  let k := dim2 coefs in
  let cov := match cov_resid with None => eye k | Some c => c end in
  wf3 coefs → dim1 coefs = k → nrows cov = k →
  intercept_shape k steps intercept →
  seed_generator seed w = Ok (rs, store) →
  multivariate_normal rs (replicate (nrows cov) f0) cov steps = (Ok ugen, rs') →
  ∃ result,
    varsim coefs intercept cov_resid steps initvalues seed w
    = (Ok result, store rs') ∧
    wf2 result ∧ nrows result = steps ∧ ncols result = k ∧
    (∀ t, (t < steps)%nat → (t < p)%nat →
       rows result !! t = Some (spec_intercept_row k intercept t)) ∧
    (∀ t, (p ≤ t < steps)%nat →
       rows result !! t
       = Some (spec_ar_row coefs result t
                 (vadd (spec_intercept_row k intercept t) (row_of ugen t)))) ∧
    (Forall (Forall (λ x, x = f0)) (rows cov) →
     ∀ t, (p ≤ t < steps)%nat →
       rows result !! t
       = Some (spec_ar_row coefs result t (spec_intercept_row k intercept t))).
Proof. apply varsim_eq. Qed.

(** C8: a 2-d intercept whose number of rows differs from [steps] makes
    the call fail: no series is returned, and when the generator is
    built and the noise drawn the failure is the ValueError of the
    length check.  A (steps, K) intercept is added row by row: the
    first [p] rows of the series are its rows, and each later row starts
    from its row plus the noise. *)
Theorem varsim_offset (coefs : ndarray3 F) (offset : ndarray2 F)
    (cov_resid : option (ndarray2 F)) (steps : nat)
    (initvalues : option (ndarray2 F)) (seed : seed_arg) (w : world) :
  let p := dim0 coefs in
  let k := dim2 coefs in
  let cov := match cov_resid with None => eye k | Some c => c end in
  let call := varsim coefs (Some (Arr2 offset)) cov_resid steps initvalues seed w in
  (nrows offset ≠ steps →
   is_Raise call.1 ∧
   ∀ rs store ugen rs',
     seed_generator seed w = Ok (rs, store) →
     multivariate_normal rs (replicate (nrows cov) f0) cov steps = (Ok ugen, rs') →
     call.1 = Raise (ValueError "2-D intercept needs to have length `steps`")) ∧
  (nrows offset = steps → wf2 offset → ncols offset = k →
   wf3 coefs → dim1 coefs = k → nrows cov = k →
   ∀ rs store ugen rs',
     seed_generator seed w = Ok (rs, store) →
     multivariate_normal rs (replicate (nrows cov) f0) cov steps = (Ok ugen, rs') →
     ∃ result, call = (Ok result, store rs') ∧
       nrows result = steps ∧ ncols result = k ∧
       (∀ t, (t < steps)%nat → (t < p)%nat →
          rows result !! t = Some (row_of offset t)) ∧
       (∀ t, (p ≤ t < steps)%nat →
          rows result !! t
          = Some (spec_ar_row coefs result t
                    (vadd (row_of offset t) (row_of ugen t))))).
Proof.
  intros p k cov call. split.
  - intros Hne.
    assert (Hfail : ∀ rs store ugen rs',
      seed_generator seed w = Ok (rs, store) →
      multivariate_normal rs (replicate (nrows cov) f0) cov steps = (Ok ugen, rs') →
      call.1 = Raise (ValueError "2-D intercept needs to have length `steps`")).
    { intros rs store ugen rs' Hseed Hdraw.
      destruct (mvn_shape _ _ _ _ _ _ Hdraw) as (_ & Hun & _).
      unfold call, varsim. rewrite Hseed. fold k. fold cov. rewrite Hdraw.
      cbn [fst bind]. unfold varsim_series, varsim_start.
      cbn [ndim len]. rewrite Hun.
      rewrite bool_decide_eq_true_2 by lia.
      by rewrite bool_decide_eq_false_2 by done. }
    split; [| exact Hfail].
    destruct (seed_generator seed w) as [[rs store] | e] eqn:Hseed.
    + destruct (multivariate_normal rs (replicate (nrows cov) f0) cov steps)
        as [[ugen | e] rs'] eqn:Hdraw.
      * eexists. by eapply Hfail.
      * exists e. unfold call, varsim. rewrite Hseed. fold k. fold cov.
        by rewrite Hdraw.
    + exists e. unfold call, varsim. by rewrite Hseed.
  - intros Hn Hwfo Hc Hwf Hsq Hcov rs store ugen rs' Hseed Hdraw.
    destruct (varsim_eq coefs (Some (Arr2 offset)) cov_resid steps initvalues
                seed w rs store ugen rs' Hwf Hsq Hcov
                (conj Hwfo (conj Hn Hc)) Hseed Hdraw)
      as (result & Hcall & _ & Hrn & Hrc & Hseedrows & Hrows & _).
    exists result. split_and!; done.
Qed.

(** C6: with an integer seed the outcome of [varsim] is a function of
    its arguments alone: it does not depend on the state of the
    module-level generator or of any generator of the caller, and it
    leaves both as they were, so a second call with the same arguments
    returns the same outcome. *)
Theorem varsim_seed_deterministic (coefs : ndarray3 F)
    (intercept : option (array12 F)) (cov_resid : option (ndarray2 F))
    (steps : nat) (initvalues : option (ndarray2 F)) (n : Z) (w1 w2 : world) :
  let first := varsim coefs intercept cov_resid steps initvalues (SeedInt n) w1 in
  let second := varsim coefs intercept cov_resid steps initvalues (SeedInt n) first.2 in
  first.2 = w1 ∧ second.1 = first.1 ∧
  (varsim coefs intercept cov_resid steps initvalues (SeedInt n) w2).1 = first.1.
Proof.
  assert (Hw : ∀ w,
    varsim coefs intercept cov_resid steps initvalues (SeedInt n) w
    = ((varsim coefs intercept cov_resid steps initvalues (SeedInt n) w1).1, w)).
  { intros w. unfold varsim, seed_generator.
    destruct (new_RandomState n) as [rs | e]; cbn [bind]; [| done].
    by destruct (multivariate_normal rs _ _ steps) as [ugen rs']. }
  intros first second. unfold second, first.
  rewrite (Hw w1) at 1. cbn [snd].
  split_and!; [done | | by rewrite (Hw w2)].
  by rewrite (Hw w1) at 1.
Qed.

End SimulationClaims.

Lemma varsim_rows_witness :
  let coefs := Array3 1 2 2 [[[1%Q; 0%Q]; [1%Q; 1%Q]]] in
  ∃ result,
    varsim coefs (Some (Arr1 [1%Q; 2%Q])) None 3 None (SeedInt 7) (World 0 0)
    = (Ok result, World 0 0) ∧
    nrows result = 3%nat ∧ rows result !! 0%nat = Some [1%Q; 2%Q].
Proof.
  intros coefs.
  assert (Hwf : wf3 coefs) by (split; [reflexivity | repeat constructor]).
  destruct (multivariate_normal (Sampler:=lcg_sampler) 7
              (replicate 2 0%Q) (eye 2) 3) as [[ugen | e] rs'] eqn:Hdraw;
    [| vm_compute in Hdraw; discriminate Hdraw].
  destruct (@varsim_rows Q Q_scalar lcg_sampler _ _
              coefs (Some (Arr1 [1%Q; 2%Q])) None 3 None (SeedInt 7)
              (@World Q lcg_sampler 0%Z 0%Z) 7%Z
              (λ _, @World Q lcg_sampler 0%Z 0%Z) ugen rs'
              Hwf eq_refl eq_refl eq_refl eq_refl Hdraw)
    as (result & Hcall & _ & Hn & _ & Hseedrows & _).
  exists result. split_and!; [exact Hcall | exact Hn |].
  exact (Hseedrows 0%nat ltac:(lia) ltac:(simpl; lia)).
Defined.

Lemma varsim_offset_witness :
  let coefs := Array3 1 2 2 [[[1%Q; 0%Q]; [1%Q; 1%Q]]] in
  let offset := Array2 2 2 [[1%Q; 2%Q]; [3%Q; 4%Q]] in
  (varsim coefs (Some (Arr2 offset)) None 3 None (SeedInt 7) (World 0 0)).1
  = Raise (ValueError "2-D intercept needs to have length `steps`").
Proof.
  intros coefs offset.
  assert (Hne : nrows offset ≠ 3%nat) by (simpl; lia).
  destruct (multivariate_normal (Sampler:=lcg_sampler) 7
              (replicate 2 0%Q) (eye 2) 3) as [[ugen | e] rs'] eqn:Hdraw;
    [| vm_compute in Hdraw; discriminate Hdraw].
  exact (proj2 (proj1 (@varsim_offset Q Q_scalar lcg_sampler _ _
                         coefs offset None 3 None (SeedInt 7)
                         (@World Q lcg_sampler 0%Z 0%Z)) Hne)
           7%Z (λ _, @World Q lcg_sampler 0%Z 0%Z) ugen rs' eq_refl Hdraw).
Defined.

(** The simulation on the congruential generator: one lag, two
    variables, a constant intercept; row 0 is the intercept, and the
    rows after it add the noise and the autoregressive term. *)
Example varsim_seeded_run :
  (varsim (Array3 1 2 2 [[[1%Q; 0%Q]; [1%Q; 1%Q]]]) (Some (Arr1 [1%Q; 2%Q]))
     (Some (Array2 2 2 [[0%Q; 0%Q]; [0%Q; 0%Q]])) 3 None (SeedInt 7) (World 0 0)).1
  = Ok (Array2 3 2 [[1%Q; 2%Q]; [2%Q; 5%Q]; [3%Q; 9%Q]]).
Proof. vm_compute. reflexivity. Qed.

(** * Further properties of the module *)

(** ** Position of a name *)

Lemma py_index_found (lst : list pyobj) (name : pyobj) :
  name ∈ lst →
  ∃ i : nat, py_index lst name = Ok (Z.of_nat i) ∧ lst !! i = Some name ∧
    ∀ j : nat, (j < i)%nat → lst !! j ≠ Some name.
Proof.
  intros Hin. unfold py_index.
  destruct (list_find (λ y, y = name) lst) as [[i y] |] eqn:Hfind.
  - apply list_find_Some in Hfind as (Hi & -> & Hfirst).
    exists i. split_and!; [done | done |].
    intros j Hj Hjn. by apply (Hfirst j name).
  - apply list_find_None in Hfind.
    exfalso. by apply (proj1 (Forall_forall _ _) Hfind name).
Qed.

Lemma py_index_missing (lst : list pyobj) (name : pyobj) :
  name ∉ lst →
  py_index lst name = Raise (ValueError (repr name +:+ " is not in list")).
Proof.
  intros Hnot. unfold py_index.
  destruct (list_find (λ y, y = name) lst) as [[i y] |] eqn:Hfind; [| done].
  apply list_find_Some in Hfind as (Hi & -> & _).
  exfalso. apply Hnot. by eapply list_elem_of_lookup_2.
Qed.

(** X1: a name that occurs in the list, string or integer, is answered
    with the position of its first occurrence: the element there is the
    name, and no earlier element is.  An integer that is an element is
    looked up like any name and is not taken for a position. *)
Theorem get_index_first_occurrence (lst : list pyobj) (name : pyobj) :
  name ∈ lst →
  ∃ i : nat, get_index lst name = Ok (Z.of_nat i) ∧ lst !! i = Some name ∧
    ∀ j : nat, (j < i)%nat → lst !! j ≠ Some name.
Proof.
  intros Hin. destruct (py_index_found lst name Hin) as (i & Hidx & Hi & Hfirst).
  exists i. unfold get_index. by rewrite Hidx.
Qed.

Lemma get_index_first_occurrence_witness :
  let lst := [PyInt 1; PyInt 0; PyInt 0] in
  (PyInt 0 ∈ lst) ∧
  ∃ i : nat, get_index lst (PyInt 0) = Ok (Z.of_nat i) ∧
    lst !! i = Some (PyInt 0) ∧
    ∀ j : nat, (j < i)%nat → lst !! j ≠ Some (PyInt 0).
Proof.
  intros lst.
  assert (Hin : PyInt 0 ∈ lst)
    by (apply elem_of_cons; right; apply elem_of_cons; by left).
  split; [exact Hin |].
  exact (get_index_first_occurrence lst (PyInt 0) Hin).
Defined.

(** X2: an integer that is not an element of the list is handed back as
    it is, with no check against the length of the list: the answer may
    be negative or lie past the end. *)
Theorem get_index_integer_passthrough (lst : list pyobj) (n : Z) :
  PyInt n ∉ lst → get_index lst (PyInt n) = Ok n.
Proof.
  intros Hnot. unfold get_index. by rewrite (py_index_missing _ _ Hnot).
Qed.

Lemma get_index_integer_passthrough_witness :
  (PyInt 7 ∉ [PyStr "gdp"; PyStr "cons"]) ∧
  get_index [PyStr "gdp"; PyStr "cons"] (PyInt 7) = Ok 7 ∧
  (Z.of_nat (length [PyStr "gdp"; PyStr "cons"]) ≤ 7).
Proof.
  assert (Hnot : PyInt 7 ∉ [PyStr "gdp"; PyStr "cons"]).
  { rewrite !not_elem_of_cons. repeat split; try discriminate.
    apply not_elem_of_nil. }
  split_and!; [exact Hnot | | simpl; lia].
  exact (get_index_integer_passthrough _ 7 Hnot).
Defined.



(** X4: on a list without repetition [get_index] inverts indexing: the
    name stored at position [i] is answered with [i]. *)
Theorem get_index_lookup_inverse (lst : list pyobj) (i : nat) (name : pyobj) :
  NoDup lst → lst !! i = Some name → get_index lst name = Ok (Z.of_nat i).
Proof.
  intros Hnd Hi.
  destruct (py_index_found lst name) as (j & Hidx & Hj & _);
    [by eapply list_elem_of_lookup_2 |].
  unfold get_index. rewrite Hidx.
  by rewrite (NoDup_lookup _ _ _ _ Hnd Hj Hi).
Qed.

Lemma get_index_lookup_inverse_witness :
  get_index [PyStr "gdp"; PyStr "cons"; PyInt 5] (PyInt 5) = Ok 2.
Proof.
  assert (Hnd : NoDup [PyStr "gdp"; PyStr "cons"; PyInt 5]).
  { repeat constructor; rewrite ?not_elem_of_cons; repeat split;
      try discriminate; apply not_elem_of_nil. }
  exact (get_index_lookup_inverse _ 2 (PyInt 5) Hnd eq_refl).
Defined.

(** ** Half-vectorisation outside the square case *)

Section VechShapes.
Context {A : Type}.

Lemma vech_while_fails (a : ndarray2 A) (length i n b : nat) (acc : list A) :
  (b + n < length)%nat → get2 a (b + n) i = None →
  (∀ b', (b ≤ b' < b + n)%nat → is_Some (get2 a b' i)) →
  vech_while a length i b acc = Raise IndexError.
Proof.
  revert b acc. induction n as [| n IH]; intros b acc Hlt Hnone Hsome.
  - simp vech_while. destruct (decide (b < length)%nat); [| lia]. simpl.
    rewrite Nat.add_0_r in Hnone. by rewrite Hnone.
  - simp vech_while. destruct (decide (b < length)%nat); [| lia]. simpl.
    destruct (Hsome b) as [x Hx]; [lia |]. rewrite Hx. simpl.
    apply IH.
    + lia.
    + by replace (b + 1 + n)%nat with (b + S n)%nat by lia.
    + intros b' Hb'. apply Hsome. lia.
Qed.

Lemma omap_ext_in {B} (f g : B → option A) (l : list B) :
  (∀ y, y ∈ l → f y = g y) → omap f l = omap g l.
Proof.
  induction l as [| y l IH]; intros Hfg; [done |].
  assert (IH' : omap f l = omap g l).
  { apply IH. intros y' Hy'. apply Hfg. by right. }
  cbn. rewrite (Hfg y) by by left.
  destruct (g y); cbn; [f_equal |]; exact IH'.
Qed.

(** The columns that [vech] reads, from the diagonal down. *)
Lemma vech_eq (a : ndarray2 A) (k : nat) :
  (∀ b i, (b < k)%nat → (i < k)%nat → is_Some (get2 a b i)) → ncols a = k →
  vech a
  = Ok (mjoin (map (λ i, omap (λ b, get2 a b i) (seq i (k - i))) (seq 0 k))).
Proof.
  intros Hall Hc. unfold vech. rewrite Hc.
  by rewrite (vech_columns_eq a k 0 k []).
Qed.

Lemma get2_in_range (a : ndarray2 A) (b i : nat) :
  wf2 a → (b < nrows a)%nat → (i < ncols a)%nat → is_Some (get2 a b i).
Proof.
  intros [Hlen Hrows] Hb Hi. unfold get2.
  destruct (lookup_lt_is_Some_2 (rows a) b) as [r Hr]; [lia |].
  rewrite Hr. apply lookup_lt_is_Some_2.
  rewrite (Forall_lookup_1 _ _ _ _ Hrows Hr). lia.
Qed.

(** X5: a matrix with fewer rows than columns makes [vech] fail: the
    loop over the first column runs to the index [A.shape[1] - 1], past
    the last row, and the read raises [IndexError]. *)
Theorem vech_wide_fails (a : ndarray2 A) :
  wf2 a → (nrows a < ncols a)%nat → vech a = Raise IndexError.
Proof.
  intros Hwf Hlt. unfold vech.
  destruct (ncols a) as [| m] eqn:Hc; [lia |].
  cbn [seq foldM bind].
  rewrite (vech_while_fails a (S m) 0 (nrows a) 0 []); [done | lia | |].
  - unfold get2. destruct Hwf as [Hlen _].
    by rewrite (lookup_ge_None_2 (rows a) (0 + nrows a)) by lia.
  - intros b' Hb'. apply get2_in_range; [done | lia | lia].
Qed.

(** X6: a matrix with more rows than columns is accepted: [vech] reads
    the square block of the first [A.shape[1]] rows and never looks at
    the rows below it. *)
Theorem vech_tall_ignores_rows (a : ndarray2 A) :
  wf2 a → (ncols a ≤ nrows a)%nat →
  ∃ v, vech a = Ok v ∧ vech (top_square a) = Ok v ∧
       (2 * length v = ncols a * (ncols a + 1))%nat.
Proof.
  intros Hwf Hle. set (k := ncols a).
  assert (Hall : ∀ b i, (b < k)%nat → (i < k)%nat → is_Some (get2 a b i)).
  { intros b i Hb Hi. apply get2_in_range; [done | lia | done]. }
  assert (Hsame : ∀ b i, (b < k)%nat → get2 (top_square a) b i = get2 a b i).
  { intros b i Hb. unfold get2, top_square. cbn [rows].
    by rewrite lookup_take_lt by done. }
  eexists. split_and!.
  - by apply vech_eq.
  - rewrite (vech_eq (top_square a) k); [| | done].
    + do 2 f_equal. apply map_ext_in. intros i Hi. apply in_seq in Hi.
      apply omap_ext_in. intros b Hb. apply list_elem_of_In, in_seq in Hb.
      apply Hsame. lia.
    + intros b i Hb Hi. rewrite Hsame by done. by apply Hall.
  - apply (triangle_length _ k 0 k); [| done].
    intros i Hi. rewrite omap_total_length; [apply length_seq |].
    intros b Hb. apply list_elem_of_In, in_seq in Hb. apply Hall; lia.
Qed.

End VechShapes.

Lemma vech_wide_fails_witness :
  vech (Array2 1 2 [[1; 2]]) = Raise IndexError.
Proof.
  assert (Hwf : wf2 (Array2 1 2 [[1; 2]]))
    by (split; [reflexivity | repeat constructor]).
  exact (vech_wide_fails (Array2 1 2 [[1; 2]]) Hwf (le_n 2)).
Defined.

Lemma vech_tall_ignores_rows_witness :
  let a := Array2 3 2 [[1; 2]; [3; 4]; [5; 6]] in
  ∃ v, vech a = Ok v ∧ vech (Array2 2 2 [[1; 2]; [3; 4]]) = Ok v ∧
       (2 * length v = 2 * (2 + 1))%nat.
Proof.
  intros a.
  assert (Hwf : wf2 a) by (split; [reflexivity | repeat constructor]).
  exact (vech_tall_ignores_rows a Hwf (le_S 2 2 (le_n 2))).
Defined.

Section VechIndex.
Context {A : Type}.

Lemma triangle_even (i k : nat) :
  (i ≤ k)%nat → (2 * (i * (2 * k + 1 - i) / 2) = i * (2 * k + 1 - i))%nat.
Proof.
  intros Hi. destruct (Nat.Even_or_Odd i) as [[m ->] | [m ->]].
  - replace (2 * m * (2 * k + 1 - 2 * m))%nat
      with (m * (2 * k + 1 - 2 * m) * 2)%nat by lia.
    rewrite Nat.div_mul by done. lia.
  - replace ((2 * m + 1) * (2 * k + 1 - (2 * m + 1)))%nat
      with ((2 * m + 1) * (k - m) * 2)%nat by lia.
    rewrite Nat.div_mul by done. lia.
Qed.

Lemma lookup_mjoin_triangle (cols : nat → list A) (k n lo i r off : nat) :
  (∀ c, (c < k)%nat → length (cols c) = (k - c)%nat) →
  (lo + n ≤ k)%nat → (lo ≤ i < lo + n)%nat → (r < k - i)%nat →
  (2 * off = (i - lo) * (2 * k + 1 - lo - i))%nat →
  mjoin (map cols (seq lo n)) !! (off + r)%nat = cols i !! r.
Proof.
  intros Hcols. revert lo off.
  induction n as [| n IH]; intros lo off Hk Hi Hr Hoff; [lia |].
  simpl. destruct (decide (i = lo)) as [-> | Hne].
  - assert (off = 0)%nat as -> by lia.
    rewrite lookup_app_l; [done |]. rewrite Hcols by lia. simpl. lia.
  - assert (Hlen : length (cols lo) = (k - lo)%nat) by (apply Hcols; lia).
    assert (Hge : (k - lo ≤ off)%nat) by nia.
    rewrite lookup_app_r by lia. rewrite Hlen.
    replace (off + r - (k - lo))%nat with ((off - (k - lo)) + r)%nat by lia.
    apply IH; [lia | lia | done | nia].
Qed.

(** Where [vech] puts the entry [A[b, i]] of a square matrix. *)
Lemma vech_lookup (a : ndarray2 A) (k : nat) (v : list A) (b i : nat) :
  wf2 a → nrows a = k → ncols a = k → vech a = Ok v → (i ≤ b < k)%nat →
  v !! (i * (2 * k + 1 - i) / 2 + (b - i))%nat = get2 a b i.
Proof.
  intros Hwf Hn Hc Hv Hb.
  assert (Hall : ∀ b i, (b < k)%nat → (i < k)%nat → is_Some (get2 a b i)).
  { intros b' i' Hb' Hi'. apply get2_in_range; [done | lia | lia]. }
  rewrite (vech_eq a k Hall Hc) in Hv. injection Hv as <-.
  set (col := λ i, omap (λ b, get2 a b i) (seq i (k - i))).
  rewrite (lookup_mjoin_triangle col k k 0 i (b - i)).
  - unfold col. apply (omap_total_lookup (λ b', get2 a b' i)).
    + intros b' Hb'. apply list_elem_of_In, in_seq in Hb'. apply Hall; lia.
    + rewrite lookup_seq_lt by lia. f_equal. lia.
  - intros c Hc'. unfold col. rewrite omap_total_length; [apply length_seq |].
    intros b' Hb'. apply list_elem_of_In, in_seq in Hb'. apply Hall; lia.
  - lia.
  - lia.
  - lia.
  - rewrite triangle_even by lia. rewrite Nat.sub_0_r.
    replace (2 * k + 1 - 0 - i)%nat with (2 * k + 1 - i)%nat by lia. done.
Qed.

(** X7: in the result of [vech] on a K x K matrix, the entry [A[b, i]] on
    or below the diagonal stands at position i(2K + 1 - i)/2 + (b - i):
    the columns before column [i] contribute K, K - 1, ..., K - i + 1
    entries. *)
Theorem vech_position (a : ndarray2 A) (k : nat) (v : list A) (b i : nat) :
  wf2 a → nrows a = k → ncols a = k → vech a = Ok v → (i ≤ b < k)%nat →
  v !! (i * (2 * k + 1 - i) / 2 + (b - i))%nat = get2 a b i.
Proof. apply vech_lookup. Qed.

End VechIndex.

Lemma vech_position_witness :
  let a := Array2 3 3 [[1; 2; 3]; [4; 5; 6]; [7; 8; 9]] in
  [1; 4; 7; 5; 8; 9] !! 4%nat = get2 a 2 1.
Proof.
  intros a.
  assert (Hwf : wf2 a) by (split; [reflexivity | repeat constructor]).
  exact (vech_position a 3 [1; 4; 7; 5; 8; 9] 2 1 Hwf eq_refl eq_refl eq_refl
           (conj (le_S 1 1 (le_n 1)) (le_n 3))).
Defined.

Section VechInjective.
Context {A : Type}.

Lemma vech_is_Ok (a : ndarray2 A) (k : nat) :
  wf2 a → nrows a = k → ncols a = k → ∃ v, vech a = Ok v.
Proof.
  intros Hwf Hn Hc. eexists. apply (vech_eq a k); [| done].
  intros b i Hb Hi. apply get2_in_range; [done | lia | lia].
Qed.

Lemma vech_agree (a a' : ndarray2 A) (k : nat) :
  wf2 a → nrows a = k → ncols a = k →
  wf2 a' → nrows a' = k → ncols a' = k →
  vech a = vech a' →
  ∀ b i, (i ≤ b < k)%nat → get2 a b i = get2 a' b i.
Proof.
  intros Hwf Hn Hc Hwf' Hn' Hc' Heq b i Hb.
  destruct (vech_is_Ok a k Hwf Hn Hc) as [v Hv].
  rewrite <- (vech_lookup a k v b i) by done.
  rewrite Hv in Heq. symmetry in Heq.
  by rewrite <- (vech_lookup a' k v b i) by done.
Qed.

(** X8: on K x K matrices [vech] keeps exactly the entries on and below
    the diagonal: two matrices have the same half-vectorisation if and
    only if they agree there, whatever stands above the diagonal. *)
Theorem vech_lower_triangle (a a' : ndarray2 A) (k : nat) :
  wf2 a → nrows a = k → ncols a = k →
  wf2 a' → nrows a' = k → ncols a' = k →
  vech a = vech a' ↔ ∀ b i, (i ≤ b < k)%nat → get2 a b i = get2 a' b i.
Proof.
  intros Hwf Hn Hc Hwf' Hn' Hc'. split; [by apply vech_agree |].
  intros Hsame.
  rewrite (vech_eq a k), (vech_eq a' k); try done.
  - do 2 f_equal. apply map_ext_in. intros i Hi. apply in_seq in Hi.
    apply omap_ext_in. intros b Hb. apply list_elem_of_In, in_seq in Hb.
    apply Hsame. lia.
  - intros b i Hb Hi. apply get2_in_range; [done | lia | lia].
  - intros b i Hb Hi. apply get2_in_range; [done | lia | lia].
Qed.

(** X9: a symmetric matrix can be read back from its half-vectorisation:
    two symmetric K x K matrices with the same [vech] are the same
    matrix. *)
Theorem vech_symmetric_injective (a a' : ndarray2 A) (k : nat) :
  wf2 a → nrows a = k → ncols a = k → symmetric a →
  wf2 a' → nrows a' = k → ncols a' = k → symmetric a' →
  vech a = vech a' → a = a'.
Proof.
  intros Hwf Hn Hc Hsym Hwf' Hn' Hc' Hsym' Heq.
  pose proof (vech_agree a a' k Hwf Hn Hc Hwf' Hn' Hc' Heq) as Hlow.
  assert (Hall : ∀ b i, (b < k)%nat → (i < k)%nat → get2 a b i = get2 a' b i).
  { intros b i Hb Hi. destruct (decide (i ≤ b)%nat).
    - apply Hlow. lia.
    - rewrite (Hsym b i), (Hsym' b i). apply Hlow. lia. }
  destruct a as [n m rs], a' as [n' m' rs']. simpl in *. subst.
  f_equal. destruct Hwf as [Hlen Hrows], Hwf' as [Hlen' Hrows']. simpl in *.
  apply list_eq_same_length with k; [done | done |].
  intros b r r' Hb Hr Hr'.
  pose proof (Forall_lookup_1 _ _ _ _ Hrows Hr) as Hlr.
  pose proof (Forall_lookup_1 _ _ _ _ Hrows' Hr') as Hlr'. simpl in *.
  apply list_eq_same_length with k; [done | done |].
  intros i x x' Hi Hx Hx'.
  specialize (Hall b i Hb Hi). unfold get2 in Hall. simpl in Hall.
  rewrite Hr, Hr', Hx, Hx' in Hall. by injection Hall.
Qed.

End VechInjective.

Lemma vech_lower_triangle_witness :
  vech (Array2 2 2 [[1; 2]; [3; 4]]) = vech (Array2 2 2 [[1; 7]; [3; 4]]).
Proof.
  apply (vech_lower_triangle _ _ 2);
    try reflexivity; try (split; [reflexivity | repeat constructor]).
  intros b i Hb.
  destruct b as [| [| b]], i as [| [| i]]; try reflexivity; lia.
Defined.

Lemma vech_symmetric_injective_witness :
  let a := Array2 2 2 [[1; 3]; [3; 4]] in
  symmetric a ∧ (vech a = vech a → a = a).
Proof.
  intros a.
  assert (Hwf : wf2 a) by (split; [reflexivity | repeat constructor]).
  assert (Hsym : symmetric a).
  { intros b i. destruct b as [| [| b]], i as [| [| i]]; try reflexivity.
    all: unfold get2; simpl; by destruct i. }
  split; [exact Hsym |].
  exact (vech_symmetric_injective a a 2 Hwf eq_refl eq_refl Hsym
           Hwf eq_refl eq_refl Hsym).
Defined.

(** ** Seasonal dummies: centring, rows and shifts *)

Lemma rows_ext {A} (a b : ndarray2 A) :
  wf2 a → wf2 b → nrows a = nrows b → ncols a = ncols b →
  (∀ r i, (r < nrows a)%nat → (i < ncols a)%nat → get2 a r i = get2 b r i) →
  rows a = rows b.
Proof.
  intros [Hla Hra] [Hlb Hrb] Hn Hc Hsame.
  apply list_eq_same_length with (nrows a); [lia | lia |].
  intros r x y Hr Hx Hy.
  pose proof (Forall_lookup_1 _ _ _ _ Hra Hx) as Hlx.
  pose proof (Forall_lookup_1 _ _ _ _ Hrb Hy) as Hly. simpl in *.
  apply list_eq_same_length with (ncols a); [lia | lia |].
  intros i u v Hi Hu Hv.
  specialize (Hsame r i Hr Hi). unfold get2 in Hsame.
  rewrite Hx, Hy, Hu, Hv in Hsame. by injection Hsame.
Qed.

Section SeasonalFacts.
Context {F : Type} `{Scalar F}.

(** The season of row [r], as the loop of [seasonal_dummies] sees it. *)
Lemma seasonal_uncentered (n_seasons : Z) (len_endog : nat) (first_period : Z) :
  1 ≤ n_seasons →
  ∃ M, seasonal_dummies n_seasons len_endog first_period false = Some M ∧
    wf2 M ∧ nrows M = len_endog ∧ ncols M = Z.to_nat (n_seasons - 1) ∧
    ∀ r i, (r < len_endog)%nat → (i < Z.to_nat (n_seasons - 1))%nat →
      get2 M r i
      = Some (if decide ((Z.of_nat r + first_period) `mod` n_seasons = Z.of_nat i)
              then f1 else f0).
Proof.
  intros Hn. unfold seasonal_dummies.
  rewrite decide_False by lia. rewrite decide_True by lia.
  eexists. split; [reflexivity |].
  rewrite (seasonal_loop_eq n_seasons first_period len_endog)
    by (apply wf2_zeros || done).
  destruct (wf2_set_pairs
              (mjoin (map (season_cells n_seasons first_period len_endog)
                        (py_range 0 (n_seasons - 1))))
              f1 (zeros len_endog (Z.to_nat (n_seasons - 1)))
              (wf2_zeros _ _)) as (Hwf & Hrows & Hcols).
  split_and!; [done | done | done |].
  intros r i Hr Hi.
  rewrite get2_set_pairs by (rewrite get2_zeros by done; by eexists).
  rewrite get2_zeros by done.
  pose proof (elem_of_season_cells n_seasons first_period len_endog r i
                ltac:(lia) Hr Hi) as Hiff.
  repeat case_decide; tauto.
Qed.

Lemma seasonal_centered_eq (n_seasons : Z) (len_endog : nat) (first_period : Z) :
  seasonal_dummies n_seasons len_endog first_period true
  = (if decide (n_seasons = 0) then id
     else isub_scalar (fdiv (of_int 1) (of_int n_seasons)))
    <$> seasonal_dummies n_seasons len_endog first_period false.
Proof. unfold seasonal_dummies. by repeat case_decide. Qed.

Lemma wf2_isub_scalar (c : F) (a : ndarray2 F) : wf2 a → wf2 (isub_scalar c a).
Proof.
  intros [Hlen Hrows]. split; simpl.
  - by rewrite length_map.
  - apply Forall_forall. intros r Hr.
    apply list_elem_of_fmap in Hr as (r0 & -> & Hr0). rewrite length_map.
    by apply (proj1 (Forall_forall _ _) Hrows).
Qed.

Lemma get2_isub_scalar (c : F) (a : ndarray2 F) (r i : nat) :
  get2 (isub_scalar c a) r i = (λ x, fsub x c) <$> get2 a r i.
Proof.
  unfold get2, isub_scalar. cbn [rows].
  change (map (map (λ x, fsub x c)) (rows a))
    with (fmap (M:=list) (fmap (M:=list) (λ x, fsub x c)) (rows a)).
  rewrite list_lookup_fmap. destruct (rows a !! r) as [row |]; simpl; [| done].
  by rewrite list_lookup_fmap.
Qed.

(** X10: with [centered=True] every entry is the dummy less
    [1 / n_seasons]: [1 - 1/n_seasons] where (r + first_period) mod
    n_seasons = i, and [0 - 1/n_seasons] elsewhere; the shape is that of
    the dummies that are not centred. *)
Theorem seasonal_dummies_centered (n_seasons : Z) (len_endog : nat)
    (first_period : Z) :
  1 ≤ n_seasons →
  ∃ M, seasonal_dummies n_seasons len_endog first_period true = Some M ∧
    wf2 M ∧ nrows M = len_endog ∧ ncols M = Z.to_nat (n_seasons - 1) ∧
    ∀ r i, (r < len_endog)%nat → (i < Z.to_nat (n_seasons - 1))%nat →
      get2 M r i
      = Some (fsub
                (if decide ((Z.of_nat r + first_period) `mod` n_seasons = Z.of_nat i)
                 then f1 else f0)
                (fdiv (of_int 1) (of_int n_seasons))).
Proof.
  intros Hn.
  destruct (seasonal_uncentered n_seasons len_endog first_period Hn)
    as (M & HM & Hwf & Hr & Hc & Hentry).
  rewrite seasonal_centered_eq, HM. rewrite decide_False by lia.
  eexists. split; [reflexivity |]. split_and!.
  - by apply wf2_isub_scalar.
  - done.
  - done.
  - intros r i Hri Hi. by rewrite get2_isub_scalar, Hentry.
Qed.

(** X11: a row of the dummies holds at most one 1, and it holds none
    exactly when the observation falls in the last season, the one that
    has no column. *)
Theorem seasonal_dummies_reference_season (n_seasons : Z) (len_endog : nat)
    (first_period : Z) (M : ndarray2 F) (r : nat) :
  f1 ≠ f0 → 1 ≤ n_seasons → (r < len_endog)%nat →
  seasonal_dummies n_seasons len_endog first_period false = Some M →
  (∀ i i', get2 M r i = Some f1 → get2 M r i' = Some f1 → i = i') ∧
  ((∀ i, (i < Z.to_nat (n_seasons - 1))%nat → get2 M r i = Some f0)
   ↔ (Z.of_nat r + first_period) `mod` n_seasons = n_seasons - 1).
Proof.
  intros Hne Hn Hr HM.
  destruct (seasonal_uncentered n_seasons len_endog first_period Hn)
    as (M' & HM' & Hwf & Hrows & Hcols & Hentry).
  rewrite HM in HM'. injection HM' as <-.
  pose proof (Z.mod_pos_bound (Z.of_nat r + first_period) n_seasons ltac:(lia))
    as Hbound.
  assert (Hone : ∀ i, get2 M r i = Some f1 →
            (Z.of_nat r + first_period) `mod` n_seasons = Z.of_nat i).
  { intros i Hi.
    assert (Hlt : (i < Z.to_nat (n_seasons - 1))%nat).
    { destruct Hwf as [Hlen Hall]. unfold get2 in Hi.
      destruct (rows M !! r) as [row |] eqn:Hrow; [| done].
      apply lookup_lt_Some in Hi.
      rewrite (Forall_lookup_1 _ _ _ _ Hall Hrow) in Hi. lia. }
    rewrite (Hentry r i Hr Hlt) in Hi. case_decide; [done |].
    injection Hi as Hi. by destruct Hne. }
  split.
  - intros i i' Hi Hi'. apply Hone in Hi, Hi'. lia.
  - split.
    + intros Hzero.
      destruct (decide ((Z.of_nat r + first_period) `mod` n_seasons
                        = n_seasons - 1)) as [| Hlast]; [done |].
      exfalso.
      set (c := Z.to_nat ((Z.of_nat r + first_period) `mod` n_seasons)).
      assert (Hc : (c < Z.to_nat (n_seasons - 1))%nat) by (unfold c; lia).
      specialize (Hzero c Hc). rewrite (Hentry r c Hr Hc) in Hzero.
      rewrite decide_True in Hzero by (unfold c; lia).
      injection Hzero as Hzero. by apply Hne.
    + intros Hlast i Hi. rewrite (Hentry r i Hr Hi).
      by rewrite decide_False by lia.
Qed.

End SeasonalFacts.

Section SeasonalRows.
Context {F : Type} `{Scalar F}.

Lemma seasonal_rows (n_seasons : Z) (len_endog : nat) (first_period : Z)
    (centered : bool) (M : ndarray2 F) (r : nat) :
  1 ≤ n_seasons → (r < len_endog)%nat →
  seasonal_dummies n_seasons len_endog first_period centered = Some M →
  rows M !! r
  = Some (map (if centered
               then (λ x, fsub x (fdiv (of_int 1) (of_int n_seasons)))
               else id)
            (season_row n_seasons first_period r)).
Proof.
  intros Hn Hr HM.
  destruct (seasonal_uncentered n_seasons len_endog first_period Hn)
    as (M0 & HM0 & [Hlen Hall] & Hrows & Hcols & Hentry).
  assert (Hrow0 : rows M0 !! r = Some (season_row n_seasons first_period r)).
  { destruct (lookup_lt_is_Some_2 (rows M0) r) as [row Hrow]; [lia |].
    rewrite Hrow. f_equal.
    pose proof (Forall_lookup_1 _ _ _ _ Hall Hrow) as Hlrow. simpl in Hlrow.
    apply list_eq_same_length with (ncols M0).
    - unfold season_row. rewrite length_map, length_seq. lia.
    - done.
    - intros i x y Hi Hx Hy.
      specialize (Hentry r i Hr ltac:(lia)). unfold get2 in Hentry.
      rewrite Hrow, Hx in Hentry. injection Hentry as ->.
      unfold season_row in Hy.
      change (map ?f ?l) with (fmap (M:=list) f l) in Hy.
      rewrite list_lookup_fmap, lookup_seq_lt in Hy by lia.
      simpl in Hy. by injection Hy as <-. }
  destruct centered.
  - rewrite seasonal_centered_eq, HM0 in HM. rewrite decide_False in HM by lia.
    simpl in HM. injection HM as <-. unfold isub_scalar. cbn [rows].
    change (map (map ?f) ?l) with (fmap (M:=list) (map f) l).
    by rewrite list_lookup_fmap, Hrow0.
  - rewrite HM0 in HM. injection HM as <-. rewrite Hrow0. f_equal.
    symmetry. apply map_id.
Qed.

Lemma season_row_ext (n_seasons fp fp' : Z) (r r' : nat) :
  (Z.of_nat r + fp) `mod` n_seasons = (Z.of_nat r' + fp') `mod` n_seasons →
  season_row (F:=F) n_seasons fp r = season_row n_seasons fp' r'.
Proof. intros Heq. unfold season_row. by rewrite Heq. Qed.

(** X12: the dummies repeat with the period [n_seasons]: the row of
    observation r + n_seasons equals the row of observation r, centred
    or not. *)
Theorem seasonal_dummies_periodic (n_seasons : Z) (len_endog : nat)
    (first_period : Z) (centered : bool) (M : ndarray2 F) (r : nat) :
  1 ≤ n_seasons → (r + Z.to_nat n_seasons < len_endog)%nat →
  seasonal_dummies n_seasons len_endog first_period centered = Some M →
  rows M !! (r + Z.to_nat n_seasons)%nat = rows M !! r.
Proof.
  intros Hn Hr HM.
  assert (Hr0 : (r < len_endog)%nat) by lia.
  rewrite (seasonal_rows _ _ _ _ _ r Hn Hr0 HM).
  rewrite (seasonal_rows _ _ _ _ _ (r + Z.to_nat n_seasons) Hn Hr HM).
  do 2 f_equal. apply season_row_ext.
  replace (Z.of_nat (r + Z.to_nat n_seasons) + first_period)
    with (Z.of_nat r + first_period + 1 * n_seasons) by lia.
  by rewrite Z.mod_add by lia.
Qed.

(** X13: [first_period] moves the start of the sample along one fixed
    calendar: the dummies of a sample that starts in season
    [first_period] are the dummies of a sample that starts
    [first_period] observations earlier in season 0, without its first
    [first_period] rows. *)
Theorem seasonal_dummies_shift (n_seasons : Z) (len_endog first_period : nat)
    (centered : bool) (M M0 : ndarray2 F) :
  1 ≤ n_seasons →
  seasonal_dummies n_seasons len_endog (Z.of_nat first_period) centered = Some M →
  seasonal_dummies n_seasons (first_period + len_endog) 0 centered = Some M0 →
  rows M = drop first_period (rows M0).
Proof.
  intros Hn HM HM0.
  assert (Hlen : ∀ len fp c (N : ndarray2 F),
            seasonal_dummies n_seasons len fp c = Some N → length (rows N) = len).
  { intros len fp c N HN.
    destruct (seasonal_uncentered n_seasons len fp Hn)
      as (N0 & HN0 & [Hl _] & Hrows & _).
    destruct c.
    - rewrite seasonal_centered_eq, HN0 in HN.
      rewrite decide_False in HN by lia. simpl in HN. injection HN as <-.
      simpl. rewrite length_map. lia.
    - rewrite HN0 in HN. injection HN as <-. lia. }
  apply list_eq_same_length with len_endog.
  - rewrite length_drop, (Hlen _ _ _ _ HM0). lia.
  - by rewrite (Hlen _ _ _ _ HM).
  - intros r x y Hr Hx Hy. rewrite lookup_drop in Hy.
    assert (Hr0 : (first_period + r < first_period + len_endog)%nat) by lia.
    rewrite (seasonal_rows _ _ _ _ _ r Hn Hr HM) in Hx.
    rewrite (seasonal_rows _ _ _ _ _ (first_period + r) Hn Hr0 HM0) in Hy.
    injection Hx as <-. injection Hy as <-. f_equal.
    apply season_row_ext. f_equal. lia.
Qed.

(** X14: [seasonal_dummies] returns an array for every [n_seasons >= 0],
    with [len_endog] rows and n_seasons - 1 columns (none when
    [n_seasons] is 0), centred or not; for a negative [n_seasons] it
    returns no array at all ([None] in Python) and raises nothing. *)
Theorem seasonal_dummies_shape (n_seasons : Z) (len_endog : nat)
    (first_period : Z) (centered : bool) :
  (0 ≤ n_seasons →
   ∃ M, seasonal_dummies n_seasons len_endog first_period centered = Some M ∧
        wf2 M ∧ nrows M = len_endog ∧ ncols M = Z.to_nat (n_seasons - 1)) ∧
  (n_seasons < 0 →
   seasonal_dummies (F:=F) n_seasons len_endog first_period centered = None).
Proof.
  split.
  - intros Hn. destruct (decide (n_seasons = 0)) as [-> | Hne].
    + unfold seasonal_dummies. rewrite decide_True by done.
      eexists. split; [reflexivity |]. split_and!; [| done | done].
      split; simpl; [by rewrite length_replicate |].
      by apply Forall_replicate.
    + destruct (seasonal_uncentered n_seasons len_endog first_period ltac:(lia))
        as (M & HM & Hwf & Hr & Hc & _).
      destruct centered.
      * rewrite seasonal_centered_eq, HM. rewrite decide_False by done.
        eexists. split; [reflexivity |].
        split_and!; [by apply wf2_isub_scalar | done | done].
      * by exists M.
  - intros Hn. unfold seasonal_dummies.
    rewrite decide_False by lia. by rewrite decide_False by lia.
Qed.

End SeasonalRows.

Lemma seasonal_dummies_centered_witness :
  1 ≤ 4 ∧
  ∃ M, seasonal_dummies (F:=Q) 4 6 1 true = Some M ∧
       get2 M 0 1 = Some (1 - inject_Z 1 / inject_Z 4)%Q ∧
       get2 M 0 0 = Some (0 - inject_Z 1 / inject_Z 4)%Q.
Proof.
  assert (Hn : 1 ≤ 4) by lia. split; [exact Hn |].
  destruct (seasonal_dummies_centered (F:=Q) 4 6 1 Hn)
    as (M & HM & _ & _ & _ & Hentry).
  exists M. split_and!; [exact HM | |].
  - exact (Hentry 0%nat 1%nat ltac:(lia) ltac:(lia)).
  - exact (Hentry 0%nat 0%nat ltac:(lia) ltac:(lia)).
Defined.

Lemma seasonal_dummies_reference_season_witness :
  let M := Array2 4 2 [[1%Q; 0%Q]; [0%Q; 1%Q]; [0%Q; 0%Q]; [1%Q; 0%Q]] in
  (∀ i, (i < Z.to_nat (3 - 1))%nat → get2 M 2 i = Some 0%Q)
  ↔ (Z.of_nat 2 + 0) `mod` 3 = 3 - 1.
Proof.
  intros M.
  assert (Hne : (1%Q : Q) ≠ 0%Q) by discriminate.
  assert (Hn : 1 ≤ 3) by lia.
  assert (Hr : (2 < 4)%nat) by lia.
  exact (proj2 (seasonal_dummies_reference_season (F:=Q) 3 4 0 M 2
                  Hne Hn Hr eq_refl)).
Defined.

Lemma seasonal_dummies_periodic_witness :
  let M := Array2 4 2 [[1%Q; 0%Q]; [0%Q; 1%Q]; [0%Q; 0%Q]; [1%Q; 0%Q]] in
  rows M !! (0 + Z.to_nat 3)%nat = rows M !! 0%nat.
Proof.
  intros M.
  assert (Hn : 1 ≤ 3) by lia.
  assert (Hr : (0 + Z.to_nat 3 < 4)%nat) by (simpl; lia).
  exact (seasonal_dummies_periodic (F:=Q) 3 4 0 false M 0 Hn Hr eq_refl).
Defined.

Lemma seasonal_dummies_shift_witness :
  let M := Array2 2 2 [[0%Q; 1%Q]; [0%Q; 0%Q]] in
  let M0 := Array2 3 2 [[1%Q; 0%Q]; [0%Q; 1%Q]; [0%Q; 0%Q]] in
  rows M = drop 1 (rows M0).
Proof.
  intros M M0.
  assert (Hn : 1 ≤ 3) by lia.
  exact (seasonal_dummies_shift (F:=Q) 3 2 1 false M M0 Hn eq_refl eq_refl).
Defined.

Lemma seasonal_dummies_shape_witness :
  (0 ≤ 0 ∧
   ∃ M, seasonal_dummies (F:=Q) 0 5 0 true = Some M ∧
        wf2 M ∧ nrows M = 5%nat ∧ ncols M = Z.to_nat (0 - 1)) ∧
  (-1 < 0 ∧ seasonal_dummies (F:=Q) (-1) 5 0 true = None).
Proof.
  assert (Hn : 0 ≤ 0) by lia.
  assert (Hneg : -1 < 0) by lia.
  split; split; [exact Hn | | exact Hneg |].
  - exact (proj1 (seasonal_dummies_shape (F:=Q) 0 5 0 true) Hn).
  - exact (proj2 (seasonal_dummies_shape (F:=Q) (-1) 5 0 true) Hneg).
Defined.

(** ** Companion matrix: failures and the first-order case *)

Section CompanionEdges.
Context {F : Type} `{Scalar F}.

(** X15: [comp_matrix] fails in two ways.  Slices that are not square
    stop at the assertion, before anything is built, whatever the number
    of lags; square slices with no lag at all (shape (0, K, K)) pass the
    assertion and fail in [np.concatenate], which has nothing to
    concatenate: a VAR(0) has no companion matrix, not an empty one. *)
Theorem comp_matrix_failures (coefs : ndarray3 F) :
  (dim1 coefs ≠ dim2 coefs → comp_matrix coefs = Raise AssertionError) ∧
  (wf3 coefs → dim1 coefs = dim2 coefs → dim0 coefs = 0%nat →
   comp_matrix coefs
   = Raise (ValueError "need at least one array to concatenate")).
Proof.
  split.
  - intros Hne. unfold comp_matrix. by rewrite decide_False.
  - intros [Hlen _] Hk Hp. unfold comp_matrix.
    rewrite decide_True by done. unfold concatenate_axis1.
    rewrite Hp in Hlen. by destruct (slices coefs).
Qed.

(** X16: for a VAR(1), shape (1, K, K), the companion matrix is the
    coefficient matrix itself: no identity block is set. *)
Theorem comp_matrix_one_lag (coefs : ndarray3 F) (a1 : list (list F)) :
  wf3 coefs → dim1 coefs = dim2 coefs → slices coefs = [a1] →
  comp_matrix coefs = Ok (Array2 (dim1 coefs) (dim1 coefs) a1).
Proof.
  intros Hwf Hk Hs.
  assert (Hp : dim0 coefs = 1%nat) by (destruct Hwf as [<- _]; by rewrite Hs).
  rewrite (comp_matrix_eq coefs Hk ltac:(lia) Hwf). rewrite Hp.
  replace (dim1 coefs * 1 - dim1 coefs)%nat with 0%nat by lia.
  cbn [seq zip zip_with foldl]. unfold with_top. rewrite Hp.
  replace (dim1 coefs * 1 - dim1 coefs)%nat with 0%nat by lia.
  rewrite Nat.mul_1_r. cbn [replicate]. rewrite app_nil_r. do 2 f_equal.
  destruct Hwf as [_ Hsl]. rewrite Hs in Hsl.
  apply Forall_cons_1 in Hsl as [[Hlen _] _].
  apply list_eq_same_length with (dim1 coefs).
  - done.
  - by rewrite length_map, length_seq.
  - intros i x y Hi Hx Hy.
    change (map ?f ?l) with (fmap (M:=list) f l) in Hx.
    rewrite list_lookup_fmap, lookup_seq_lt in Hx by done. simpl in Hx.
    injection Hx as <-. unfold top_row. rewrite Hs. simpl.
    by rewrite Hy, app_nil_r.
Qed.

End CompanionEdges.

Lemma comp_matrix_failures_witness :
  comp_matrix (Array3 1 1 2 [[[1%Q; 2%Q]]]) = Raise AssertionError ∧
  comp_matrix (Array3 0 2 2 ([] : list (list (list Q))))
  = Raise (ValueError "need at least one array to concatenate").
Proof.
  split.
  - apply (proj1 (comp_matrix_failures (Array3 1 1 2 [[[1%Q; 2%Q]]]))).
    simpl. lia.
  - apply (proj2 (comp_matrix_failures (Array3 0 2 2 []))).
    + split; [reflexivity | constructor].
    + reflexivity.
    + reflexivity.
Defined.

Lemma comp_matrix_one_lag_witness :
  comp_matrix (Array3 1 2 2 [[[1%Q; 2%Q]; [3%Q; 4%Q]]])
  = Ok (Array2 2 2 [[1%Q; 2%Q]; [3%Q; 4%Q]]).
Proof.
  apply (comp_matrix_one_lag (Array3 1 2 2 [[[1%Q; 2%Q]; [3%Q; 4%Q]]])).
  - split; [reflexivity | repeat constructor].
  - reflexivity.
  - reflexivity.
Defined.

(** ** Companion matrix as a first-order system *)

#[export] Instance Qc_exact_laws : ExactLaws Qc.
Proof.
  split.
  - exact Qcplus_0_l.
  - exact Qcplus_0_r.
  - exact Qcplus_assoc.
  - exact Qcmult_0_l.
  - exact Qcmult_1_l.
Qed.

Section CompanionSums.
Context {F : Type} `{Scalar F} `{!ExactLaws F}.

Lemma dotp_acc (acc : F) (l : list (F * F)) :
  foldl (λ acc ab, fadd acc (fmul ab.1 ab.2)) acc l
  = fadd acc (foldl (λ acc ab, fadd acc (fmul ab.1 ab.2)) f0 l).
Proof.
  revert acc. induction l as [| ab l IH]; intros acc; simpl.
  - by rewrite exact_add_0_r.
  - rewrite (IH (fadd acc _)), (IH (fadd f0 _)).
    by rewrite exact_add_0_l, exact_add_assoc.
Qed.

Lemma dotp_app (l1 l2 v1 v2 : list F) :
  length l1 = length v1 →
  dotp (l1 ++ l2) (v1 ++ v2) = fadd (dotp l1 v1) (dotp l2 v2).
Proof.
  intros Hlen. unfold dotp.
  rewrite zip_with_app by done. rewrite foldl_app. apply dotp_acc.
Qed.

Lemma dotp_nil_l (v : list F) : dotp [] v = f0.
Proof. done. Qed.

Lemma dotp_unit_from (n c s : nat) (v : list F) (acc : F) :
  length v = n →
  foldl (λ acc ab, fadd acc (fmul ab.1 ab.2)) acc
    (zip (map (λ j, if decide (j = c) then f1 else f0) (seq s n)) v)
  = if decide (s ≤ c < s + n)%nat
    then fadd acc (default f0 (v !! (c - s)%nat)) else acc.
Proof.
  revert s v acc. induction n as [| n IH]; intros s v acc Hlen.
  - simpl. by rewrite decide_False by lia.
  - destruct v as [| x v]; [done |]. simpl in Hlen.
    cbn [seq map zip zip_with foldl fst snd].
    rewrite IH by lia.
    destruct (decide (s = c)) as [-> | Hne].
    + rewrite decide_False by lia. rewrite decide_True by lia.
      rewrite exact_mul_1_l. by rewrite Nat.sub_diag.
    + rewrite exact_mul_0_l, exact_add_0_r.
      destruct (decide (S s ≤ c < S s + n)%nat).
      * rewrite decide_True by lia.
        by replace (c - s)%nat with (S (c - S s)) by lia.
      * by rewrite decide_False by lia.
Qed.

Lemma dotp_unit_row (n c : nat) (v : list F) (x : F) :
  length v = n → v !! c = Some x → dotp (unit_row n c) v = x.
Proof.
  intros Hlen Hc. unfold dotp, unit_row.
  pose proof (lookup_lt_Some _ _ _ Hc) as Hlt.
  rewrite dotp_unit_from by done.
  rewrite decide_True by lia.
  by rewrite Nat.sub_0_r, Hc, exact_add_0_l.
Qed.

Lemma sum_foldl_foldr {B} (g : B → F) (l : list B) (a : F) :
  foldl (λ acc x, fadd acc (g x)) a l
  = fadd a (foldr (λ x acc, fadd (g x) acc) f0 l).
Proof.
  revert a. induction l as [| x l IH]; intros a; simpl.
  - by rewrite exact_add_0_r.
  - by rewrite IH, exact_add_assoc.
Qed.

Lemma take_mjoin_uniform {B} (ls : list (list B)) (k n : nat) :
  Forall (λ r, length r = k) ls → take (n * k) (mjoin ls) = mjoin (take n ls).
Proof.
  intros Hall. revert n. induction Hall as [| r ls Hr _ IH]; intros n.
  - cbn. by rewrite !take_nil.
  - destruct n as [| n]; [done |]. simpl.
    replace (k + n * k)%nat with (length r + n * k)%nat by lia.
    by rewrite take_app_add, IH.
Qed.

End CompanionSums.

Section CompanionRowsFacts.
Context {F : Type} `{Scalar F}.

Lemma length_unit_row (n c : nat) : length (unit_row (F:=F) n c) = n.
Proof. unfold unit_row. by rewrite length_map, length_seq. Qed.

Lemma lookup_unit_row (n c j : nat) :
  (j < n)%nat →
  unit_row (F:=F) n c !! j = Some (if decide (j = c) then f1 else f0).
Proof.
  intros Hj. unfold unit_row.
  change (map ?f ?l) with (fmap (M:=list) f l).
  by rewrite list_lookup_fmap, lookup_seq_lt.
Qed.

(** The rows of the companion matrix: the coefficient slices side by
    side, then the rows of an identity matrix. *)
Lemma comp_matrix_rows (coefs : ndarray3 F) :
  wf3 coefs → dim1 coefs = dim2 coefs → (1 ≤ dim0 coefs)%nat →
  let k := dim1 coefs in
  let kp := (k * dim0 coefs)%nat in
  comp_matrix coefs
  = Ok (Array2 kp kp
          (map (top_row coefs) (seq 0 k) ++ map (unit_row kp) (seq 0 (kp - k)))).
Proof.
  intros Hwf Hk Hp k kp.
  rewrite (comp_matrix_eq coefs Hk Hp Hwf). fold k. fold kp. f_equal.
  set (pairs := zip (seq k (kp - k)) (seq 0 (kp - k))).
  set (M := foldl (λ a ij, set2 ij.1 ij.2 f1 a) (with_top coefs) pairs).
  set (T := Array2 kp kp
              (map (top_row coefs) (seq 0 k) ++ map (unit_row kp) (seq 0 (kp - k)))).
  pose proof (wf2_with_top coefs Hk Hp Hwf) as Hwft.
  destruct (wf2_set_pairs pairs f1 _ Hwft) as (HwfM & HnM & HcM).
  fold M in HwfM, HnM, HcM.
  assert (Hnt : nrows (with_top coefs) = kp) by done.
  assert (Hct : ncols (with_top coefs) = kp) by done.
  assert (Hkkp : (k ≤ kp)%nat) by (unfold kp; nia).
  assert (HwfT : wf2 T).
  { unfold T. split; cbn [nrows ncols rows].
    - rewrite length_app, !length_map, !length_seq. lia.
    - apply Forall_app. split; apply Forall_forall; intros r Hr;
        apply list_elem_of_fmap in Hr as (i & -> & Hi);
        apply list_elem_of_In, in_seq in Hi.
      + rewrite length_top_row by (done || lia). unfold kp, k. rewrite Hk. lia.
      + apply length_unit_row. }
  assert (Hrows : rows M = rows T).
  { apply rows_ext; [done | done | by rewrite HnM | by rewrite HcM |].
    intros i j Hi Hj. rewrite HnM, Hnt in Hi. rewrite HcM, Hct in Hj.
    unfold M.
    rewrite get2_set_pairs
      by (apply get2_is_Some; [done | by rewrite Hnt | by rewrite Hct]).
    rewrite get2_with_top by done. fold k.
    unfold get2, T. cbn [rows].
    destruct (decide (i < k)%nat) as [Hlt | Hge].
    - rewrite decide_False
        by (unfold pairs; rewrite elem_of_diagonal; lia).
      rewrite lookup_app_l by (by rewrite length_map, length_seq).
      change (map ?f ?l) with (fmap (M:=list) f l).
      by rewrite list_lookup_fmap, lookup_seq_lt.
    - rewrite lookup_app_r by (rewrite length_map, length_seq; lia).
      rewrite length_map, length_seq.
      change (map ?f ?l) with (fmap (M:=list) f l).
      rewrite list_lookup_fmap, lookup_seq_lt by lia. simpl.
      rewrite lookup_unit_row by done.
      unfold pairs. f_equal.
      destruct (decide (j = (i - k)%nat)) as [-> | Hne].
      + by rewrite decide_True by (rewrite elem_of_diagonal; lia).
      + by rewrite decide_False by (rewrite elem_of_diagonal; lia). }
  destruct M as [n m rs]. simpl in *. by subst.
Qed.

End CompanionRowsFacts.

Section CompanionFirstOrder.
Context {F : Type} `{Scalar F} `{!ExactLaws F}.

Lemma dotp_blocks (sl : list (list (list F))) (ys : list (list F)) (i k : nat) :
  length sl = length ys →
  Forall (λ s, ∃ r, s !! i = Some r ∧ length r = k) sl →
  Forall (λ y, length y = k) ys →
  dotp (mjoin (map (λ s, default [] (s !! i)) sl)) (mjoin ys)
  = foldr (λ cy acc, fadd (dotp (default [] (cy.1 !! i)) cy.2) acc) f0
      (zip sl ys).
Proof.
  revert ys. induction sl as [| s sl IH]; intros ys Hlen Hsl Hys.
  - by destruct ys.
  - destruct ys as [| y ys]; [done |]. simpl in Hlen.
    apply Forall_cons_1 in Hsl as [(r & Hr & Hlr) Hsl].
    apply Forall_cons_1 in Hys as [Hy Hys].
    cbn [map zip_with foldr fst snd]. rewrite Hr. cbn [default]. unfold id.
    change (mjoin (r :: ?l)) with (r ++ mjoin l).
    change (mjoin (y :: ys)) with (y ++ mjoin ys).
    rewrite dotp_app by lia. f_equal. apply IH; [lia | done | done].
Qed.

Lemma lag_fold_lookup (sl : list (list (list F))) (ys : list (list F))
    (i : nat) (base : list F) (b : F) :
  base !! i = Some b → Forall (λ s, is_Some (s !! i)) sl →
  foldl (λ acc cy, vadd acc (dot cy.1 cy.2)) base (zip sl ys) !! i
  = Some (foldl (λ acc cy, fadd acc (dotp (default [] (cy.1 !! i)) cy.2)) b
            (zip sl ys)).
Proof.
  revert ys base b. induction sl as [| s sl IH]; intros ys base b Hb Hsl.
  - done.
  - destruct ys as [| y ys]; [done |].
    apply Forall_cons_1 in Hsl as [[r Hr] Hsl].
    cbn [zip_with foldl fst snd]. apply IH; [| done].
    unfold vadd, dot. rewrite lookup_zip_with, Hb. simpl.
    change (map ?f ?l) with (fmap (M:=list) f l).
    by rewrite list_lookup_fmap, Hr.
Qed.

Lemma length_lag_fold (sl : list (list (list F))) (ys : list (list F))
    (k : nat) (base : list F) :
  length base = k → Forall (λ s, length s = k) sl →
  length (foldl (λ acc cy, vadd acc (dot cy.1 cy.2)) base (zip sl ys)) = k.
Proof.
  revert ys base. induction sl as [| s sl IH]; intros ys base Hb Hsl.
  - done.
  - destruct ys as [| y ys]; [done |].
    apply Forall_cons_1 in Hsl as [Hs Hsl].
    cbn [zip_with foldl fst snd]. apply IH; [| done].
    unfold vadd, dot. rewrite length_zip_with, length_map. lia.
Qed.

Lemma comp_matrix_apply (coefs : ndarray3 F) (ys : list (list F))
    (M : ndarray2 F) :
  wf3 coefs → dim1 coefs = dim2 coefs → (1 ≤ dim0 coefs)%nat →
  length ys = dim0 coefs → Forall (λ y, length y = dim1 coefs) ys →
  comp_matrix coefs = Ok M →
  dot (rows M) (mjoin ys)
  = lag_sum coefs ys ++ mjoin (take (dim0 coefs - 1) ys).
Proof.
  intros Hwf Hk Hp Hlen Hys HM.
  rewrite (comp_matrix_rows coefs Hwf Hk Hp) in HM. injection HM as <-.
  set (k := dim1 coefs). set (p := dim0 coefs). set (kp := (k * p)%nat).
  cbn [rows]. unfold dot.
  rewrite map_app. rewrite !map_map.
  assert (Hx : length (mjoin ys) = kp).
  { rewrite (length_mjoin_uniform ys k) by done. unfold kp. fold p in Hlen. lia. }
  destruct Hwf as [Hsllen Hsl].
  f_equal.
  - apply list_eq_same_length with k.
    + unfold lag_sum. apply length_lag_fold; [by rewrite length_replicate |].
      eapply Forall_impl; [exact Hsl |]. by intros s [Hs _].
    + by rewrite length_map, length_seq.
    + intros i u v Hi Hu Hv.
      change (map ?f ?l) with (fmap (M:=list) f l) in Hu.
      rewrite list_lookup_fmap, lookup_seq_lt in Hu by done. simpl in Hu.
      injection Hu as <-. unfold lag_sum in Hv.
      rewrite (lag_fold_lookup _ _ i _ f0) in Hv.
      * injection Hv as <-. rewrite sum_foldl_foldr, exact_add_0_l.
        unfold top_row. apply (dotp_blocks _ _ i k); [lia | | done].
        eapply Forall_impl; [exact Hsl |]. intros s [Hs Hrows].
        destruct (lookup_lt_is_Some_2 s i) as [r Hr]; [fold k in Hs; lia |].
        exists r. split; [done |].
        rewrite (Forall_lookup_1 _ _ _ _ Hrows Hr). by rewrite <- Hk.
      * by apply lookup_replicate_2.
      * eapply Forall_impl; [exact Hsl |]. intros s [Hs _].
        apply lookup_lt_is_Some_2. fold k in Hs. lia.
  - rewrite <- (take_mjoin_uniform ys k) by done.
    assert (Hkp : (kp - k = (p - 1) * k)%nat) by (unfold kp; nia).
    rewrite <- Hkp.
    apply list_eq_same_length with (kp - k)%nat.
    + rewrite length_take. lia.
    + by rewrite length_map, length_seq.
    + intros c u v Hc Hu Hv.
      change (map ?f ?l) with (fmap (M:=list) f l) in Hu.
      rewrite list_lookup_fmap, lookup_seq_lt in Hu by done. simpl in Hu.
      injection Hu as <-. rewrite lookup_take_lt in Hv by done.
      by apply dotp_unit_row.
Qed.

(** X17: in exact arithmetic the companion matrix turns the VAR(p)
    recursion into a first-order one.  Applied to the stacked lags
    (y_1; ...; y_p), most recent first, it returns the autoregressive
    term A_1 y_1 + ... + A_p y_p on top and below it the lags
    y_1, ..., y_(p-1) moved down by one block. *)
Theorem comp_matrix_first_order (coefs : ndarray3 F) (ys : list (list F)) :
  wf3 coefs → dim1 coefs = dim2 coefs → (1 ≤ dim0 coefs)%nat →
  length ys = dim0 coefs → Forall (λ y, length y = dim1 coefs) ys →
  ∃ M, comp_matrix coefs = Ok M ∧
    dot (rows M) (mjoin ys)
    = lag_sum coefs ys ++ mjoin (take (dim0 coefs - 1) ys).
Proof.
  intros Hwf Hk Hp Hlen Hys.
  pose proof (comp_matrix_rows coefs Hwf Hk Hp) as HM. cbv zeta in HM.
  eexists. split; [exact HM |]. by apply comp_matrix_apply.
Qed.

End CompanionFirstOrder.

Lemma comp_matrix_first_order_witness :
  let q (n : Z) : Qc := Q2Qc (inject_Z n) in
  let coefs := Array3 2 2 2 [[[q 1; q 2]; [q 3; q 4]]; [[q 5; q 6]; [q 7; q 8]]] in
  let ys := [[q 1; q 0]; [q 0; q 1]] in
  ∃ M, comp_matrix coefs = Ok M ∧
    dot (rows M) (mjoin ys) = lag_sum coefs ys ++ mjoin (take (2 - 1) ys).
Proof.
  intros q coefs ys.
  assert (Hwf : wf3 coefs) by (split; [reflexivity | repeat constructor]).
  assert (Hys : Forall (λ y, length y = dim1 coefs) ys) by (repeat constructor).
  exact (comp_matrix_first_order coefs ys Hwf eq_refl (le_S 1 1 (le_n 1))
           eq_refl Hys).
Defined.

(** ** The simulated series as a first-order system *)

#[export] Instance Qc_scalar_laws : ScalarLaws Qc.
Proof. split; [exact Qcplus_0_l | exact Qcplus_0_r]. Qed.

Section SeriesFacts.
Context {F : Type} `{Scalar F} `{!ScalarLaws F}.

(** The series that [varsim] builds from the noise it has drawn. *)
Lemma varsim_series_eq (coefs : ndarray3 F) (intercept : option (array12 F))
    (steps : nat) (ugen : ndarray2 F) :
  let p := dim0 coefs in
  let k := dim2 coefs in
  wf3 coefs → dim1 coefs = k →
  wf2 ugen → nrows ugen = steps → ncols ugen = k →
  intercept_shape k steps intercept →
  ∃ result,
    varsim_series coefs intercept steps ugen = Ok result ∧
    wf2 result ∧ nrows result = steps ∧ ncols result = k ∧
    (∀ t, (t < steps)%nat → (t < p)%nat →
       rows result !! t = Some (spec_intercept_row k intercept t)) ∧
    (∀ t, (p ≤ t < steps)%nat →
       rows result !! t
       = Some (spec_ar_row coefs result t
                 (vadd (spec_intercept_row k intercept t) (row_of ugen t)))).
Proof.
  intros p k Hwf Hsq Huwf Hun Huc Hshape.
  destruct (varsim_start_eq coefs intercept steps ugen Huwf Hun Huc Hshape)
    as (a & Ha & Han & Hac & Halen & Harow).
  fold p in Harow. fold k in Harow, Hac.
  destruct (ar_loop_eq coefs (steps - p) p a) as
    (result & Hres & Hrn & Hrc & Hrlen & Hout & Hin).
  { by destruct Hwf. }
  { by rewrite Hsq, Hac. }
  { done. }
  { fold p. lia. }
  fold p in Hres, Hout, Hin.
  assert (Hrows : ∀ t, (p ≤ t < steps)%nat →
            rows result !! t
            = Some (spec_ar_row coefs result t
                      (vadd (spec_intercept_row k intercept t) (row_of ugen t)))).
  { intros t Ht. rewrite Hin by lia. do 2 f_equal.
    apply row_of_lookup. rewrite Harow by lia. by rewrite decide_False by lia. }
  assert (Hseedrows : ∀ t, (t < steps)%nat → (t < p)%nat →
            rows result !! t = Some (spec_intercept_row k intercept t)).
  { intros t Ht Htp. rewrite Hout by lia. rewrite Harow by done.
    by rewrite decide_True. }
  assert (Hurow : ∀ t, (t < steps)%nat → length (row_of ugen t) = k).
  { intros t Ht. destruct Huwf as [Hulen Hurows]. rewrite <- Huc.
    eapply (Forall_lookup_1 _ _ _ _ Hurows). apply lookup_row_of. lia. }
  exists result. split_and!.
  - unfold varsim_series. rewrite Ha. cbn [bind]. fold p.
    unfold index_range at 2. by rewrite Hres.
  - split; [lia |]. apply Forall_lookup_2. intros t r Hr.
    assert (Ht : (t < steps)%nat).
    { apply lookup_lt_Some in Hr. lia. }
    rewrite Hrc, Hac.
    destruct (decide (t < p)%nat) as [Hlt | Hge].
    + rewrite Hseedrows in Hr by done. injection Hr as <-.
      by eapply length_spec_intercept_row.
    + rewrite Hrows in Hr by lia. injection Hr as <-.
      rewrite length_spec_ar_row; [exact Hsq | done |].
      unfold vadd. rewrite length_zip_with, Hurow by done.
      rewrite (length_spec_intercept_row k steps) by done. lia.
  - lia.
  - lia.
  - exact Hseedrows.
  - exact Hrows.
Qed.

End SeriesFacts.

Section SeriesFirstOrder.
Context {F : Type} `{Scalar F} `{!ScalarLaws F} `{!ExactLaws F}.

Lemma vadd_assoc (u v w : list F) : vadd u (vadd v w) = vadd (vadd u v) w.
Proof.
  unfold vadd. revert v w. induction u as [| x u IH]; intros v w; [done |].
  destruct v as [| y v]; [done |]. destruct w as [| z w]; [done |].
  simpl. by rewrite exact_add_assoc, IH.
Qed.

Lemma vfold_acc (k : nat) (terms : list (list F)) (base : list F) :
  length base = k → Forall (λ x, length x = k) terms →
  foldl vadd base terms = vadd base (foldl vadd (replicate k f0) terms).
Proof.
  intros Hbase Hterms. revert base Hbase.
  induction Hterms as [| x terms Hx _ IH]; intros base Hbase; simpl.
  - by rewrite vadd_zeros_r.
  - rewrite (IH (vadd base x)), (IH (vadd (replicate k f0) x)).
    + by rewrite (vadd_zeros_l k x Hx), vadd_assoc.
    + unfold vadd. rewrite length_zip_with, length_replicate. lia.
    + unfold vadd. rewrite length_zip_with. lia.
Qed.

Lemma lag_fold_seq (f : list F → list (list F) → list F → list F)
    (g : nat → list F) (pre sl : list (list (list F))) (base : list F) :
  foldl (λ acc j, f acc (default [] ((pre ++ sl) !! j)) (g j)) base
    (seq (length pre) (length sl))
  = foldl (λ acc cy, f acc cy.1 cy.2) base
      (zip sl (map g (seq (length pre) (length sl)))).
Proof.
  revert pre base. induction sl as [| s sl IH]; intros pre base; [done |].
  cbn [length seq map zip_with foldl fst snd].
  rewrite list_lookup_middle by done. cbn [default]. unfold id.
  specialize (IH (pre ++ [s]) (f base s (g (length pre)))).
  rewrite <- app_assoc in IH. cbn [app] in IH.
  rewrite length_app in IH. cbn [length] in IH.
  replace (length pre + 1)%nat with (S (length pre)) in IH by lia.
  exact IH.
Qed.

(** The row that the loop of [varsim] builds at time [t], regrouped: the
    start of the row plus the autoregressive term. *)
Lemma spec_ar_row_lag_sum (coefs : ndarray3 F) (series : ndarray2 F) (t : nat)
    (base : list F) :
  wf3 coefs → length base = dim1 coefs →
  spec_ar_row coefs series t base
  = vadd base (lag_sum coefs (lags_at series (dim0 coefs) t)).
Proof.
  intros [Hlen Hsl] Hbase. unfold spec_ar_row, lag_sum, lags_at.
  pose proof (lag_fold_seq (λ acc c y, vadd acc (dot c y))
                (λ j, row_of series (t - j - 1)) [] (slices coefs)) as Hseq.
  cbn [app length] in Hseq. rewrite Hlen in Hseq.
  rewrite !Hseq.
  set (zs := zip (slices coefs)
               (map (λ j, row_of series (t - j - 1)) (seq 0 (dim0 coefs)))).
  assert (Hfold : ∀ b,
    foldl (λ acc cy, vadd acc (dot cy.1 cy.2)) b zs
    = foldl vadd b (map (λ cy, dot cy.1 cy.2) zs)).
  { intros b. symmetry.
    exact (foldl_fmap vadd b zs (λ cy : list (list F) * list F, dot cy.1 cy.2)). }
  rewrite !Hfold. apply vfold_acc; [done |].
  apply Forall_forall. intros x Hx.
  apply list_elem_of_fmap in Hx as ([c y] & -> & Hcy).
  unfold zs in Hcy. apply elem_of_zip_l in Hcy. simpl.
  unfold dot. rewrite length_map.
  by destruct (proj1 (Forall_forall _ _) Hsl c Hcy) as [-> _].
Qed.

End SeriesFirstOrder.

Section SeriesCompanion.
Context {F : Type} `{Scalar F} `{!ScalarLaws F} `{!ExactLaws F}.

Lemma lags_at_succ (series : ndarray2 F) (p t : nat) :
  lags_at series (S p) (t + 1) = row_of series t :: lags_at series p t.
Proof.
  unfold lags_at. cbn [seq map].
  replace (t + 1 - 0 - 1)%nat with t by lia. f_equal.
  rewrite <- seq_shift, map_map. apply map_ext. intros j. f_equal. lia.
Qed.

Lemma take_lags_at (series : ndarray2 F) (p t : nat) :
  take p (lags_at series (S p) t) = lags_at series p t.
Proof.
  unfold lags_at. rewrite seq_S, map_app.
  rewrite take_app_length'; [done |]. by rewrite length_map, length_seq.
Qed.

Lemma lags_at_rows (series : ndarray2 F) (p t : nat) :
  wf2 series → (p ≤ t ≤ nrows series)%nat →
  length (lags_at series p t) = p ∧
  Forall (λ y, length y = ncols series) (lags_at series p t).
Proof.
  intros [Hlen Hrows] Ht. unfold lags_at. split.
  - by rewrite length_map, length_seq.
  - apply Forall_forall. intros y Hy.
    apply list_elem_of_fmap in Hy as (j & -> & Hj).
    apply list_elem_of_In, in_seq in Hj.
    eapply (Forall_lookup_1 _ _ _ _ Hrows). apply lookup_row_of. lia.
Qed.

(** X18: in exact arithmetic the series that [varsim] builds from its
    noise is the first-order system of its companion matrix.  With the
    stacked state (y_(t-1); ...; y_(t-p)), for every generated row t >= p
    the next state is the companion matrix of [comp_matrix] applied to
    the state, plus the intercept and the noise of step t in the top
    block. *)
Theorem varsim_series_first_order (coefs : ndarray3 F)
    (intercept : option (array12 F)) (steps : nat) (ugen : ndarray2 F) :
  let p := dim0 coefs in
  let k := dim2 coefs in
  wf3 coefs → dim1 coefs = k → (1 ≤ p)%nat →
  wf2 ugen → nrows ugen = steps → ncols ugen = k →
  intercept_shape k steps intercept →
  ∃ result M,
    varsim_series coefs intercept steps ugen = Ok result ∧
    comp_matrix coefs = Ok M ∧
    ∀ t, (p ≤ t < steps)%nat →
      mjoin (lags_at result p (t + 1))
      = vadd (vadd (spec_intercept_row k intercept t) (row_of ugen t)
                ++ replicate (k * (p - 1)) f0)
          (dot (rows M) (mjoin (lags_at result p t))).
Proof.
  intros p k Hwf Hsq Hp Huwf Hun Huc Hshape.
  destruct (varsim_series_eq coefs intercept steps ugen Hwf Hsq Huwf Hun Huc Hshape)
    as (result & Hres & Hrwf & Hrn & Hrc & _ & Hrows).
  fold p in Hrows. fold k in Hrows, Hrc.
  pose proof (comp_matrix_rows coefs Hwf Hsq Hp) as HM. cbv zeta in HM.
  eexists result, _. split; [exact Hres |]. split; [exact HM |].
  intros t Ht.
  destruct (lags_at_rows result p t Hrwf ltac:(lia)) as [Hlen Hall].
  rewrite Hrc in Hall.
  rewrite (comp_matrix_apply coefs (lags_at result p t) _ Hwf Hsq Hp Hlen
             ltac:(by rewrite Hsq) HM).
  fold p.
  set (shock := vadd (spec_intercept_row k intercept t) (row_of ugen t)).
  assert (Hshock : length shock = k).
  { unfold shock, vadd. rewrite length_zip_with.
    rewrite (length_spec_intercept_row k steps) by (done || lia).
    destruct Huwf as [Hulen Hurows].
    rewrite (Forall_lookup_1 _ _ _ _ Hurows (lookup_row_of ugen t ltac:(lia))).
    lia. }
  assert (Hsum : length (lag_sum coefs (lags_at result p t)) = k).
  { unfold lag_sum. rewrite <- Hsq.
    apply length_lag_fold; [by rewrite length_replicate |].
    destruct Hwf as [_ Hsl]. eapply Forall_impl; [exact Hsl |].
    by intros s [Hs _]. }
  unfold vadd at 1. rewrite zip_with_app by lia.
  change (zip_with fadd ?u ?v) with (vadd u v).
  rewrite (vadd_zeros_l (k * (p - 1))).
  - destruct p as [| p'] eqn:Hpeq; [lia |].
    rewrite lags_at_succ.
    replace (S p' - 1)%nat with p' by lia. rewrite take_lags_at.
    change (mjoin (?r :: ?l)) with (r ++ mjoin l). f_equal.
    rewrite (row_of_lookup result t _ (Hrows t Ht)).
    fold shock. rewrite spec_ar_row_lag_sum; [| done | by rewrite Hsq].
    unfold p in Hpeq. by rewrite Hpeq.
  - rewrite (length_mjoin_uniform _ k).
    + rewrite length_take, Hlen. nia.
    + by apply Forall_take.
Qed.

End SeriesCompanion.

Lemma varsim_series_first_order_witness :
  let q (n : Z) : Qc := Q2Qc (inject_Z n) in
  let coefs := Array3 2 2 2 [[[q 1; q 0]; [q 1; q 1]]; [[q 0; q 2]; [q 0; q 0]]] in
  let ugen := Array2 4 2 [[q 0; q 0]; [q 0; q 0]; [q 1; q 0]; [q 0; q 1]] in
  let intercept := Some (Arr1 [q 1; q 2]) in
  ∃ result M,
    varsim_series coefs intercept 4 ugen = Ok result ∧
    comp_matrix coefs = Ok M ∧
    ∀ t, (2 ≤ t < 4)%nat →
      mjoin (lags_at result 2 (t + 1))
      = vadd (vadd (spec_intercept_row 2 intercept t) (row_of ugen t)
                ++ replicate (2 * (2 - 1)) f0)
          (dot (rows M) (mjoin (lags_at result 2 t))).
Proof.
  intros q coefs ugen intercept.
  assert (Hwf : wf3 coefs) by (split; [reflexivity | repeat constructor]).
  assert (Huwf : wf2 ugen) by (split; [reflexivity | repeat constructor]).
  exact (varsim_series_first_order coefs intercept 4 ugen Hwf eq_refl
           (le_S 1 1 (le_n 1)) Huwf eq_refl eq_refl eq_refl).
Defined.

(** ** Coefficient names at the edges *)

Section NameEdges.
Context {A : Type}.

(** X19: the trend names depend on [trendorder] only through the three
    tests of the code.  Without exogenous regressors a negative
    [trendorder] gives the names of [trendorder = 1] ('const' alone,
    since a negative number differs from 0), and every [trendorder]
    above 3 gives the names of [trendorder = 3]: no fourth trend name
    exists. *)
Theorem make_lag_names_trendorder_edges (names : names_arg)
    (lag_order trendorder : Z) :
  (trendorder < 0 →
   make_lag_names (A:=A) names lag_order trendorder None
   = make_lag_names (A:=A) names lag_order 1 None) ∧
  (3 ≤ trendorder →
   make_lag_names (A:=A) names lag_order trendorder None
   = make_lag_names (A:=A) names lag_order 3 None).
Proof.
  split; intros Ht; unfold make_lag_names; cbv zeta.
  - rewrite (decide_True (P:=trendorder ≠ 0)) by lia.
    rewrite (decide_False (P:=trendorder > 1)) by lia.
    by rewrite (decide_False (P:=trendorder > 2)) by lia.
  - rewrite (decide_True (P:=trendorder ≠ 0)) by lia.
    rewrite (decide_True (P:=trendorder > 1)) by lia.
    by rewrite (decide_True (P:=trendorder > 2)) by lia.
Qed.

(** X20: with a lag order of zero or less the loop over the lags does not
    run: the result holds the trend names and the names of the exogenous
    regressors and no lag name, whatever the variable names are. *)
Theorem make_lag_names_no_lags (names : list pyobj) (lag_order trendorder : Z)
    (exog : option (ndarray2 A)) :
  lag_order ≤ 0 → 0 ≤ trendorder ≤ 3 →
  make_lag_names (NameList names) lag_order trendorder exog
  = spec_trend_names trendorder ++ spec_exog_names (exog_count exog).
Proof.
  intros Hlag Hrange. rewrite make_lag_names_list by done.
  unfold spec_lag_names, py_range.
  replace (Z.to_nat (lag_order + 1 - 1)) with 0%nat by lia.
  simpl. by rewrite !app_nil_r.
Qed.

(** X21: a name that is not a string enters the result through [str]:
    the call on a list of names equals the call on the list of their
    string forms. *)
Theorem make_lag_names_stringified (names : list pyobj)
    (lag_order trendorder : Z) (exog : option (ndarray2 A)) :
  make_lag_names (NameList names) lag_order trendorder exog
  = make_lag_names (NameList (map (λ o, PyStr (str o)) names))
      lag_order trendorder exog.
Proof.
  unfold make_lag_names. cbv zeta. rewrite !lag_loop_eq.
  replace (map (λ lag : Z,
             map (λ name : pyobj, "L" +:+ pretty lag +:+ "." +:+ str name)
               (map (λ o : pyobj, PyStr (str o)) names))
             (py_range 1 (lag_order + 1)))
    with (map (λ lag : Z,
             map (λ name : pyobj, "L" +:+ pretty lag +:+ "." +:+ str name) names)
             (py_range 1 (lag_order + 1))); [done |].
  apply map_ext. intros lag. by rewrite map_map.
Qed.

End NameEdges.

Lemma make_lag_names_trendorder_edges_witness :
  (-2 < 0 ∧
   make_lag_names (A:=Q) (NameList [PyStr "y"]) 1 (-2) None = ["const"; "L1.y"]) ∧
  (3 ≤ 7 ∧
   make_lag_names (A:=Q) (NameList [PyStr "y"]) 1 7 None
   = ["const"; "trend"; "trend**2"; "L1.y"]).
Proof.
  assert (Hneg : -2 < 0) by lia.
  assert (Hbig : 3 ≤ 7) by lia.
  split; split; [exact Hneg | | exact Hbig |].
  - exact (proj1 (make_lag_names_trendorder_edges (A:=Q)
                    (NameList [PyStr "y"]) 1 (-2)) Hneg).
  - exact (proj2 (make_lag_names_trendorder_edges (A:=Q)
                    (NameList [PyStr "y"]) 1 7) Hbig).
Defined.

Lemma make_lag_names_no_lags_witness :
  make_lag_names (NameList [PyStr "y"; PyStr "x"]) 0 2
    (Some (Array2 3 1 [[0%Q]; [0%Q]; [0%Q]]))
  = ["const"; "trend"; "exog0"].
Proof.
  assert (Hlag : 0 ≤ 0) by lia.
  assert (Hrange : 0 ≤ 2 ≤ 3) by lia.
  exact (make_lag_names_no_lags [PyStr "y"; PyStr "x"] 0 2
           (Some (Array2 3 1 [[0%Q]; [0%Q]; [0%Q]])) Hlag Hrange).
Defined.

(** ** Lagged observations without a trend *)

Section LagRows.
Context {F : Type} `{Scalar F}.

Lemma spec_lagged_row_succ (y : ndarray2 F) (lags t : nat) :
  spec_lagged_row y (S lags) (t + 1)
  = default [] (rows y !! t) ++ spec_lagged_row y lags t.
Proof.
  unfold spec_lagged_row. cbn [seq map].
  replace (t + 1 - 1)%nat with t by lia.
  change (mjoin (?r :: ?l)) with (r ++ mjoin l). do 2 f_equal.
  rewrite <- seq_shift, map_map. apply map_ext. intros lag.
  by replace (t + 1 - S lag)%nat with (t - lag)%nat by lia.
Qed.

Lemma spec_lagged_row_take (y : ndarray2 F) (lags t : nat) :
  wf2 y → (S lags ≤ t ≤ nrows y)%nat →
  take (ncols y * lags) (spec_lagged_row y (S lags) t) = spec_lagged_row y lags t.
Proof.
  intros [Hlen Hrows] Ht. unfold spec_lagged_row.
  rewrite Nat.mul_comm. rewrite (take_mjoin_uniform _ (ncols y)).
  - f_equal. rewrite seq_S, map_app.
    rewrite take_app_length'; [done |]. by rewrite length_map, length_seq.
  - apply Forall_forall. intros r Hr. apply list_elem_of_In, in_map_iff in Hr.
    destruct Hr as (lag & <- & Hlag). apply in_seq in Hlag.
    destruct (lookup_lt_is_Some_2 (rows y) (t - lag)%nat) as [r Hr]; [lia |].
    rewrite Hr. simpl. by eapply (Forall_lookup_1 _ _ _ _ Hrows).
Qed.

Lemma get_var_endog_nc (y : ndarray2 F) (lags : nat) (hc : has_constant_t) :
  get_var_endog y lags "nc" hc = Ok (lag_matrix y lags).
Proof. unfold get_var_endog. by rewrite decide_False by (by intros []). Qed.

Lemma lookup_lag_matrix (y : ndarray2 F) (lags t : nat) :
  wf2 y → (lags ≤ t < nrows y)%nat →
  rows (lag_matrix y lags) !! (t - lags)%nat = Some (spec_lagged_row y lags t).
Proof.
  intros Hwf Ht. rewrite rows_lag_matrix by done.
  change (map ?f ?l) with (fmap (M:=list) f l).
  rewrite list_lookup_fmap, lookup_seq_lt by lia. simpl.
  by replace (lags + (t - lags))%nat with t by lia.
Qed.

(** X22: with the trend 'nc' no trend routine is called and the
    [has_constant] option has no effect: for every value of the option,
    'raise' on a series with a constant column included, the call
    returns the nobs - p rows of lagged observations, K*p columns
    wide. *)
Theorem get_var_endog_no_trend (y : ndarray2 F) (lags : nat)
    (hc : has_constant_t) :
  wf2 y → (lags < nrows y)%nat →
  ∃ Zm, get_var_endog y lags "nc" hc = Ok Zm ∧
    get_var_endog y lags "nc" HC_raise = Ok Zm ∧
    wf2 Zm ∧ nrows Zm = (nrows y - lags)%nat ∧
    ncols Zm = (ncols y * lags)%nat ∧
    ∀ t, (lags ≤ t < nrows y)%nat →
      rows Zm !! (t - lags)%nat = Some (spec_lagged_row y lags t).
Proof.
  intros Hwf Hlags.
  destruct (lag_matrix_shape y lags Hwf Hlags) as (HwfZ & Hn & Hc).
  exists (lag_matrix y lags). rewrite !get_var_endog_nc.
  split_and!; try done.
  intros t Ht. by apply lookup_lag_matrix.
Qed.

(** X23: the rows of lagged observations slide along the series: the
    row of time t + 1 is the observation of time t followed by the row
    of time t without its oldest observation. *)
Theorem get_var_endog_sliding (y : ndarray2 F) (lags : nat)
    (hc : has_constant_t) (Zm : ndarray2 F) (t : nat) (r r' yt : list F) :
  wf2 y → (1 ≤ lags)%nat → (lags ≤ t)%nat → (t + 1 < nrows y)%nat →
  get_var_endog y lags "nc" hc = Ok Zm →
  rows Zm !! (t - lags)%nat = Some r →
  rows Zm !! (t + 1 - lags)%nat = Some r' →
  rows y !! t = Some yt →
  r' = yt ++ take (ncols y * (lags - 1)) r.
Proof.
  intros Hwf Hl Ht Ht1 HZ Hr Hr' Hyt.
  rewrite get_var_endog_nc in HZ. injection HZ as <-.
  rewrite lookup_lag_matrix in Hr by (done || lia).
  rewrite lookup_lag_matrix in Hr' by (done || lia).
  injection Hr as <-. injection Hr' as <-.
  destruct lags as [| l]; [lia |].
  rewrite spec_lagged_row_succ, Hyt. cbn [default]. unfold id. f_equal.
  replace (S l - 1)%nat with l by lia.
  symmetry. apply spec_lagged_row_take; [done | lia].
Qed.

End LagRows.

Lemma get_var_endog_no_trend_witness :
  let y := Array2 3 1 [[1%Q]; [1%Q]; [1%Q]] in
  ∃ Zm, get_var_endog y 1 "nc" HC_skip = Ok Zm ∧
    get_var_endog y 1 "nc" HC_raise = Ok Zm ∧
    nrows Zm = (3 - 1)%nat ∧ ncols Zm = (1 * 1)%nat.
Proof.
  intros y.
  assert (Hwf : wf2 y) by (split; [reflexivity | repeat constructor]).
  destruct (get_var_endog_no_trend y 1 HC_skip Hwf (le_S 2 2 (le_n 2)))
    as (Zm & HZ & HZr & _ & Hn & Hc & _).
  exists Zm. split_and!; [exact HZ | exact HZr | exact Hn | exact Hc].
Defined.

Lemma get_var_endog_sliding_witness :
  let y := Array2 4 2 [[1%Q; 2%Q]; [3%Q; 4%Q]; [5%Q; 6%Q]; [7%Q; 8%Q]] in
  [5%Q; 6%Q; 3%Q; 4%Q] = [5%Q; 6%Q] ++ take (2 * (2 - 1)) [3%Q; 4%Q; 1%Q; 2%Q].
Proof.
  intros y.
  assert (Hwf : wf2 y) by (split; [reflexivity | repeat constructor]).
  exact (get_var_endog_sliding y 2 HC_skip
           (Array2 2 4 [[3%Q; 4%Q; 1%Q; 2%Q]; [5%Q; 6%Q; 3%Q; 4%Q]]) 2
           [3%Q; 4%Q; 1%Q; 2%Q] [5%Q; 6%Q; 3%Q; 4%Q] [5%Q; 6%Q]
           Hwf (le_S 1 1 (le_n 1)) (le_n 2) (le_n 4)
           eq_refl eq_refl eq_refl eq_refl).
Defined.

(** ** Simulation: the generator *)

Section GeneratorFacts.
Context {F : Type} `{Scalar F} `{Sampler F} `{!SamplerLaws F}.

Lemma varsim_length_check (coefs : ndarray3 F) (offset : ndarray2 F)
    (steps : nat) (ugen : ndarray2 F) :
  nrows offset ≠ steps → nrows ugen = steps →
  varsim_series coefs (Some (Arr2 offset)) steps ugen
  = Raise (ValueError "2-D intercept needs to have length `steps`").
Proof.
  intros Hne Hun. unfold varsim_series, varsim_start. cbn [ndim len].
  rewrite Hun. rewrite bool_decide_eq_true_2 by lia.
  by rewrite bool_decide_eq_false_2 by done.
Qed.

(** X24: the length check on a 2-d intercept comes after the noise is
    drawn.  A call that fails on it has still advanced the generator it
    drew from: the generator of the module when [seed] is None, the
    caller's generator when [seed] is a RandomState; the other one is
    left as it was. *)
Theorem varsim_failure_after_draw (coefs : ndarray3 F) (offset : ndarray2 F)
    (cov_resid : option (ndarray2 F)) (steps : nat)
    (initvalues : option (ndarray2 F)) (w : world) (ugen : ndarray2 F)
    (rs' : RandomState) :
  let k := dim2 coefs in
  let cov := match cov_resid with None => eye k | Some c => c end in
  let failure := Raise (ValueError "2-D intercept needs to have length `steps`") in
  nrows offset ≠ steps →
  (multivariate_normal (np_random w) (replicate (nrows cov) f0) cov steps
   = (Ok ugen, rs') →
   varsim coefs (Some (Arr2 offset)) cov_resid steps initvalues SeedNone w
   = (failure, World rs' (caller_rs w))) ∧
  (multivariate_normal (caller_rs w) (replicate (nrows cov) f0) cov steps
   = (Ok ugen, rs') →
   varsim coefs (Some (Arr2 offset)) cov_resid steps initvalues SeedRandomState w
   = (failure, World (np_random w) rs')).
Proof.
  intros k cov failure Hne.
  split; intros Hdraw;
    destruct (mvn_shape _ _ _ _ _ _ Hdraw) as (_ & Hun & _);
    unfold varsim, seed_generator; fold k; fold cov; rewrite Hdraw;
    cbn [bind]; by rewrite varsim_length_check.
Qed.

(** X25: an integer seed stands for the generator built from it: the
    call with [seed=n] returns what the call returns when it is handed
    the generator [RandomState(n)] itself, and what a call without a seed
    returns when the generator of the module is in that state. *)
Theorem varsim_seed_is_generator (coefs : ndarray3 F)
    (intercept : option (array12 F)) (cov_resid : option (ndarray2 F))
    (steps : nat) (initvalues : option (ndarray2 F)) (n : Z)
    (rs other : RandomState) (w : world) :
  new_RandomState n = Ok rs →
  (varsim coefs intercept cov_resid steps initvalues (SeedInt n) w).1
  = (varsim coefs intercept cov_resid steps initvalues SeedRandomState
       (World other rs)).1 ∧
  (varsim coefs intercept cov_resid steps initvalues (SeedInt n) w).1
  = (varsim coefs intercept cov_resid steps initvalues SeedNone
       (World rs other)).1.
Proof.
  intros Hrs. unfold varsim, seed_generator. rewrite Hrs. cbn [bind np_random caller_rs].
  by destruct (multivariate_normal rs _ _ steps) as [ugen rs'].
Qed.

End GeneratorFacts.

Lemma varsim_failure_after_draw_witness :
  let coefs := Array3 1 2 2 [[[1%Q; 0%Q]; [1%Q; 1%Q]]] in
  let offset := Array2 2 2 [[1%Q; 2%Q]; [3%Q; 4%Q]] in
  ∃ ugen rs',
    multivariate_normal (Sampler:=lcg_sampler) 7%Z (replicate 2 0%Q) (eye 2) 3
    = (Ok ugen, rs') ∧
    varsim coefs (Some (Arr2 offset)) None 3 None SeedNone
      (@World Q lcg_sampler 7%Z 9%Z)
    = (Raise (ValueError "2-D intercept needs to have length `steps`"),
       @World Q lcg_sampler rs' 9%Z).
Proof.
  intros coefs offset.
  assert (Hne : nrows offset ≠ 3%nat) by (simpl; lia).
  destruct (multivariate_normal (Sampler:=lcg_sampler) 7%Z
              (replicate 2 0%Q) (eye 2) 3) as [[ugen | e] rs'] eqn:Hdraw;
    [| vm_compute in Hdraw; discriminate Hdraw].
  exists ugen, rs'. split; [reflexivity |].
  exact (proj1 (@varsim_failure_after_draw Q Q_scalar lcg_sampler _
                  coefs offset None 3 None (@World Q lcg_sampler 7%Z 9%Z)
                  ugen rs' Hne) Hdraw).
Defined.

Lemma varsim_seed_is_generator_witness :
  let coefs := Array3 1 2 2 [[[1%Q; 0%Q]; [1%Q; 1%Q]]] in
  (varsim coefs None None 3 None (SeedInt 7) (@World Q lcg_sampler 0%Z 0%Z)).1
  = (varsim coefs None None 3 None SeedRandomState
       (@World Q lcg_sampler 5%Z 7%Z)).1.
Proof.
  intros coefs.
  exact (proj1 (@varsim_seed_is_generator Q Q_scalar lcg_sampler
                  coefs None None 3 None 7 7%Z 5%Z
                  (@World Q lcg_sampler 0%Z 0%Z) eq_refl)).
Defined.

(** ** Autocorrelations *)

Section AutocorrelationFacts.
Context {F : Type} `{Scalar F}.
Variable fsqrt : F → F.

Lemma get3_at2 (a : ndarray3 F) (h i j : nat) (s : list (list F)) (x : F) :
  slices a !! h = Some s → get3 a h i j = Some x → at2 s i j = x.
Proof.
  intros Hs Hx. unfold get3 in Hx. rewrite Hs in Hx. unfold at2.
  destruct (s !! i) as [r |]; [| done]. by rewrite Hx.
Qed.

Lemma at2_sqrt_outer (u v : list F) (i j : nat) (x y : F) :
  u !! i = Some x → v !! j = Some y →
  at2 (map (λ x, map (λ y, fsqrt (fmul x y)) v) u) i j = fsqrt (fmul x y).
Proof.
  intros Hi Hj. unfold at2.
  change (map ?f u) with (fmap (M:=list) f u).
  rewrite list_lookup_fmap, Hi. cbn [fmap option_fmap option_map].
  change (map ?f v) with (fmap (M:=list) f v).
  by rewrite list_lookup_fmap, Hj.
Qed.

Lemma pick_lt (len i : nat) : (i < len)%nat → pick len i = i.
Proof. intros Hi. unfold pick. case_decide; lia. Qed.

(** X26: [acf_to_acorr] scales the autocovariances of every lag by the
    variances at lag 0: for an array of shape (n, K, K) with n >= 1 the
    result has the same shape and its entry [h, i, j] is
    acf[h, i, j] / sqrt(acf[0, i, i] * acf[0, j, j]).  With no lag at
    all, reading [acf[0]] raises IndexError. *)
Theorem acf_to_acorr_entries (acf : ndarray3 F) (k : nat) :
  wf3 acf → dim1 acf = k → dim2 acf = k →
  ((1 ≤ dim0 acf)%nat →
   ∃ R, acf_to_acorr fsqrt acf = Ok R ∧
     dim0 R = dim0 acf ∧ dim1 R = k ∧ dim2 R = k ∧
     ∀ h i j x vi vj,
       get3 acf h i j = Some x →
       get3 acf 0 i i = Some vi → get3 acf 0 j j = Some vj →
       get3 R h i j = Some (fdiv x (fsqrt (fmul vi vj)))) ∧
  (dim0 acf = 0%nat → acf_to_acorr fsqrt acf = Raise IndexError).
Proof.
  intros [Hlen Hsl] Hd1 Hd2. split.
  - intros Hn. unfold acf_to_acorr.
    destruct (lookup_lt_is_Some_2 (slices acf) 0) as [a0 Ha0]; [lia |].
    rewrite Ha0. cbv zeta.
    set (diag := np_diag a0 (dim1 acf) (dim2 acf)).
    assert (Hdiag : length diag = k).
    { unfold diag, np_diag. rewrite length_map, length_seq. lia. }
    unfold div_broadcast. cbn [nrows ncols sqrt_outer rows].
    rewrite Hdiag, Hd1, Hd2. unfold broadcast_dim.
    rewrite decide_True by done. cbn [bind].
    eexists. split; [reflexivity |]. cbn [dim0 dim1 dim2].
    split_and!; [done | done | done |].
    intros h i j x vi vj Hx Hvi Hvj.
    assert (Hh : is_Some (slices acf !! h)).
    { unfold get3 in Hx. by destruct (slices acf !! h). }
    destruct Hh as [s Hs].
    destruct (Forall_lookup_1 _ _ _ _ Hsl Hs) as [Hslen Hsrows].
    rewrite Hd1 in Hslen. rewrite Hd2 in Hsrows.
    assert (Hi : (i < k)%nat).
    { unfold get3 in Hx. rewrite Hs in Hx.
      destruct (s !! i) as [r |] eqn:Hr; [| done].
      apply lookup_lt_Some in Hr. lia. }
    assert (Hj : (j < k)%nat).
    { unfold get3 in Hx. rewrite Hs in Hx.
      destruct (s !! i) as [r |] eqn:Hr; [| done].
      apply lookup_lt_Some in Hx.
      rewrite (Forall_lookup_1 _ _ _ _ Hsrows Hr) in Hx. lia. }
    unfold get3. cbn [slices].
    change (map ?f (slices acf)) with (fmap (M:=list) f (slices acf)).
    rewrite list_lookup_fmap, Hs. cbn [fmap option_fmap option_map].
    change (map ?f (seq 0 k)) with (fmap (M:=list) f (seq 0 k)).
    rewrite list_lookup_fmap, lookup_seq_lt by done.
    cbn [fmap option_fmap option_map].
    change (map ?f (seq 0 k)) with (fmap (M:=list) f (seq 0 k)).
    rewrite list_lookup_fmap, lookup_seq_lt by done.
    cbn [fmap option_fmap option_map]. rewrite !Nat.add_0_l.
    rewrite !pick_lt by done.
    rewrite (get3_at2 acf h i j s x Hs Hx). do 3 f_equal.
    assert (Hdiag_at : ∀ c v, (c < k)%nat → get3 acf 0 c c = Some v →
              diag !! c = Some v).
    { intros c v Hc Hv. unfold diag, np_diag.
      change (map ?f ?l) with (fmap (M:=list) f l).
      rewrite list_lookup_fmap, lookup_seq_lt by lia. simpl.
      f_equal. by apply (get3_at2 acf 0 c c a0 v Ha0). }
    exact (at2_sqrt_outer diag diag i j vi vj
             (Hdiag_at i vi Hi Hvi) (Hdiag_at j vj Hj Hvj)).
  - intros Hz. unfold acf_to_acorr. rewrite Hz in Hlen.
    by destruct (slices acf).
Qed.

End AutocorrelationFacts.

Lemma acf_to_acorr_entries_witness :
  let acf := Array3 1 2 2 [[[4%Q; 2%Q]; [2%Q; 9%Q]]] in
  ∃ R, acf_to_acorr Qsqrt acf = Ok R ∧
    get3 R 0 0 1 = Some (2 / Qsqrt (4 * 9))%Q.
Proof.
  intros acf.
  assert (Hwf : wf3 acf) by (split; [reflexivity | repeat constructor]).
  destruct (proj1 (acf_to_acorr_entries Qsqrt acf 2 Hwf eq_refl eq_refl)
              (le_n 1)) as (R & HR & _ & _ & _ & Hentry).
  exists R. split; [exact HR |].
  exact (Hentry 0%nat 0%nat 1%nat 2%Q 4%Q 9%Q eq_refl eq_refl eq_refl).
Defined.
